(** * discord-rpc: transport and request-correlation engine

    A shallow embedding of [src/transport/websocket.ts] (class
    [WebsocketTransport]) and of the [Client] class that follows it in the
    same source file, together with the properties of the connection state
    machine, the request correlation engine and the token lifecycle.

    JavaScript values are embedded as a small JSON-like datatype, the
    client object as a record, and methods as computations in a state and
    exception monad over that record.  Everything the client does to the
    outside world (emitting an event, calling the transport, settling a
    promise, arming a timer, an HTTP call) is recorded, in program order,
    in an effect log. *)

From stdpp Require Import base list strings sets.
From Stdlib Require Import ZArith DecimalString.

Set Default Proof Using "Type".
Set Warnings "-register-all,-clear-no-such-hyp".

(** ** JavaScript values *)

(** What [JSON.parse] produces, plus [undefined].  Numbers are integers;
    fractional numbers do not occur in what the client inspects. *)
Inductive json : Type :=
| JUndefined
| JNull
| JBool (b : bool)
| JNum (n : Z)
| JStr (s : string)
| JArr (items : list json)
| JObj (fields : list (string * json)).

(** Truthiness, as used by [if (v)] and [a && b]. *)
Definition truthy (v : json) : bool :=
  match v with
  | JUndefined | JNull => false
  | JBool b => b
  | JNum n => negb (n =? 0)%Z
  | JStr s => negb (bool_decide (s = ""))
  | JArr _ | JObj _ => true
  end.

(** [v === undefined || v === null], the test behind [??]. *)
Definition nullish (v : json) : bool :=
  match v with
  | JUndefined | JNull => true
  | _ => false
  end.

(** [a ?? b] *)
Definition coalesce (a b : json) : json := if nullish a then b else a.

(** Own property of an object literal, first binding first. *)
Fixpoint own_property (k : string) (fs : list (string * json)) : option json :=
  match fs with
  | [] => None
  | (k', v) :: fs' => if bool_decide (k = k') then Some v else own_property k fs'
  end.

(** Property read [v.k] for the data properties the client reads
    ([user], [config], [cdn_host], [code], [message] and the four token
    fields; none of them is inherited from a prototype): [None] is the
    [TypeError] raised on [undefined] and [null]; a missing property reads
    as [undefined]. *)
Definition get (v : json) (k : string) : option json :=
  match v with
  | JUndefined | JNull => None
  | JObj fs => Some (default JUndefined (own_property k fs))
  | _ => Some JUndefined
  end.

(** [k in v] for the same property names: [None] is the [TypeError] that
    [in] raises when its right operand is not an object. *)
Definition has_property (k : string) (v : json) : option bool :=
  match v with
  | JObj fs => Some (bool_decide (is_Some (own_property k fs)))
  | JArr _ => Some false
  | _ => None
  end.

Definition string_of_Z (n : Z) : string := NilZero.string_of_int (Z.to_int n).

(** String conversion, as performed by template literals and by
    [URLSearchParams]. *)
Fixpoint js_to_string (v : json) : string :=
  match v with
  | JUndefined => "undefined"
  | JNull => "null"
  | JBool true => "true"
  | JBool false => "false"
  | JNum n => string_of_Z n
  | JStr s => s
  | JArr items =>
      (fix join (l : list json) : string :=
         match l with
         | [] => ""
         | x :: r =>
             let sx := if nullish x then "" else js_to_string x in
             match r with
             | [] => sx
             | _ => sx +:+ "," +:+ join r
             end
         end) items
  | JObj _ => "[object Object]"
  end.


(** ** Errors, envelopes and promises *)

(** Modelled from the spec: the enumerations [RPC_ERROR_CODE] and
    [CUSTOM_RPC_ERROR_CODE] are declared outside [src/]; the three members
    the client uses are kept symbolic.  [CodeOf v] is a code copied from a
    payload ([message.data.code], [reason.code]). *)
Inductive error_code : Type :=
| RPC_UNKNOWN_ERROR
| RPC_CONNECTION_TIMEOUT
| RPC_CONNECTION_ENDED
| CodeOf (v : json).

(** Modelled from the spec: the class [RPCError] is declared outside
    [src/]; an instance is represented by the two fields the client
    assigns, and a fresh instance carries the code it was built with and
    an empty message. *)
Record RPCError : Type := { code : error_code; message : json }.

Definition new_RPCError (c : error_code) : RPCError :=
  {| code := c; message := JStr "" |}.

Inductive type_error : Type :=
| ReadOfNullish (property : string)        (* reading a property of undefined/null *)
| InOperatorOnPrimitive (property : string) (* [k in v] with [v] not an object *)
| WriteOfUndefined (property : string)     (* setting a property of undefined *)
| InvalidAccessTokenResponse (data : json). (* thrown by hanleAccessTokenResponse *)

Inductive js_error : Type :=
| ErrRPC (e : RPCError)
| Error (msg : string)
| TypeError (e : type_error).

(** [CommandIncoming]: an inbound envelope. *)
Record envelope : Type :=
  { cmd : string; evt : option string; nonce : option string; data : json }.

(** The object handed to [transport.send] by [request]. *)
Record command : Type :=
  { c_cmd : string; c_args : json; c_evt : option string; c_nonce : string }.

(** The optional argument of the transport's [close] event. *)
Inductive close_reason : Type :=
| ReasonUndefined
| ReasonString (s : string)
| ReasonObject (rcode : json) (rmessage : json).

Inductive value : Type :=
| VUndefined
| VEnvelope (m : envelope)
| VReason (r : close_reason).

Inductive promise : Type :=
| Pending
| Resolved (v : value)
| Rejected (e : js_error).

(** A value of [_nonceMap]: the [resolve]/[reject] pair of a promise
    (represented by the index of that promise) and the error captured when
    the request was made. *)
Record nonceObj : Type := { p_promise : nat; p_error : RPCError }.

(** ** The insertion-ordered [Map] behind [_nonceMap] *)

Section Map.
Context {V : Type}.

Fixpoint Map_get (k : string) (m : list (string * V)) : option V :=
  match m with
  | [] => None
  | (k', v) :: m' => if bool_decide (k = k') then Some v else Map_get k m'
  end.

Definition Map_has (k : string) (m : list (string * V)) : bool :=
  bool_decide (is_Some (Map_get k m)).

(** [set] keeps the position of a key that is already present and
    appends a new one. *)
Fixpoint Map_set (k : string) (v : V) (m : list (string * V)) : list (string * V) :=
  match m with
  | [] => [(k, v)]
  | (k', v') :: m' =>
      if bool_decide (k = k') then (k, v) :: m' else (k', v') :: Map_set k v m'
  end.

Fixpoint Map_delete (k : string) (m : list (string * V)) : list (string * V) :=
  match m with
  | [] => []
  | (k', v') :: m' =>
      if bool_decide (k = k') then Map_delete k m' else (k', v') :: Map_delete k m'
  end.

(** In-place mutation of the value stored under [k]. *)
Definition Map_alter (f : V → V) (k : string) (m : list (string * V))
  : list (string * V) :=
  (λ kv, if bool_decide (k = kv.1) then (kv.1, f kv.2) else kv) <$> m.
End Map.

#[global] Arguments Map_alter {V} f k m : simpl never.

(** ** The client object and its run-time

    Promises are numbered in creation order: promise [p] is [promises !! p].
    Timers are numbered by [setTimeout]; [timers] holds the armed ones. *)

Inductive timer_action : Type :=
| ConnectTimeout (p : nat) (error : RPCError) (* the arrow function of connect() *)
| RefreshAccessToken.                         (* () => void this.refreshAccessToken() *)

Record timer : Type := { t_id : nat; t_delay : json; t_action : timer_action }.

(** The closure passed to [this.once("connected", ...)] by [connect]: it
    captures [resolve] of promise [p] and the timer [timeout]. *)
Inductive connected_listener : Type :=
| OnConnected (p : nat) (timeout : nat).

(** One-shot listeners of the transport's [close] event: the one installed
    by the [connected] listener, and [resolve] of the promise made by
    [WebsocketTransport.close]. *)
Inductive close_listener : Type :=
| RejectPending
| ResolveClose (p : nat).

(** A call of [this.fetch("POST", path, ...)] with a form-encoded body. *)
Record http_request : Type :=
  { h_path : string; h_form : list (string * string); h_authorization : option string }.

Inductive effect : Type :=
| Emit (name : option string) (args : list json) (* this.emit(name, ...args) *)
| TransportSend (c : command)                    (* this.transport.send(c) *)
| TransportConnect                               (* this.transport.connect() *)
| TransportClose                                 (* this.transport.close() *)
| Resolve (p : nat) (v : value)                  (* resolve(v) of promise p *)
| Reject (p : nat) (e : js_error)                (* reject(e) of promise p *)
| SetTimeout (t : nat) (delay : json)
| ClearTimeout (t : nat)
| Fired (t : nat)                                (* the callback of timer t runs *)
| Fetch (r : http_request)
| Uncaught (e : js_error).                       (* an exception leaves a handler *)

(** The first ten fields are the fields of the JavaScript object;
    [promises], [timers] and [nextTimer] are the run-time's; [onConnected]
    and [onClose] are the one-shot listeners registered on the client and
    on its transport; [connecting] lists the promises whose [reject] is
    attached by [.catch] to a [transport.connect()] still in flight. *)
Record client : Type :=
  { clientId : string;
    clientSecret : option string;
    accessToken : json;
    refreshToken : json;
    tokenType : json;
    user : json;
    cdnHost : string;
    refreshTimeout : option nat;
    connectionPromise : option nat;
    _nonceMap : list (string * nonceObj);
    promises : list promise;
    timers : list timer;
    nextTimer : nat;
    onConnected : list connected_listener;
    onClose : list close_listener;
    connecting : list nat;
    log : list effect }.

Definition set_accessToken (x : json) (st : client) : client :=
  {| clientId := clientId st;
     clientSecret := clientSecret st;
     accessToken := x;
     refreshToken := refreshToken st;
     tokenType := tokenType st;
     user := user st;
     cdnHost := cdnHost st;
     refreshTimeout := refreshTimeout st;
     connectionPromise := connectionPromise st;
     _nonceMap := _nonceMap st;
     promises := promises st;
     timers := timers st;
     nextTimer := nextTimer st;
     onConnected := onConnected st;
     onClose := onClose st;
     connecting := connecting st;
     log := log st |}.

Definition set_refreshToken (x : json) (st : client) : client :=
  {| clientId := clientId st;
     clientSecret := clientSecret st;
     accessToken := accessToken st;
     refreshToken := x;
     tokenType := tokenType st;
     user := user st;
     cdnHost := cdnHost st;
     refreshTimeout := refreshTimeout st;
     connectionPromise := connectionPromise st;
     _nonceMap := _nonceMap st;
     promises := promises st;
     timers := timers st;
     nextTimer := nextTimer st;
     onConnected := onConnected st;
     onClose := onClose st;
     connecting := connecting st;
     log := log st |}.

Definition set_tokenType (x : json) (st : client) : client :=
  {| clientId := clientId st;
     clientSecret := clientSecret st;
     accessToken := accessToken st;
     refreshToken := refreshToken st;
     tokenType := x;
     user := user st;
     cdnHost := cdnHost st;
     refreshTimeout := refreshTimeout st;
     connectionPromise := connectionPromise st;
     _nonceMap := _nonceMap st;
     promises := promises st;
     timers := timers st;
     nextTimer := nextTimer st;
     onConnected := onConnected st;
     onClose := onClose st;
     connecting := connecting st;
     log := log st |}.

Definition set_user (x : json) (st : client) : client :=
  {| clientId := clientId st;
     clientSecret := clientSecret st;
     accessToken := accessToken st;
     refreshToken := refreshToken st;
     tokenType := tokenType st;
     user := x;
     cdnHost := cdnHost st;
     refreshTimeout := refreshTimeout st;
     connectionPromise := connectionPromise st;
     _nonceMap := _nonceMap st;
     promises := promises st;
     timers := timers st;
     nextTimer := nextTimer st;
     onConnected := onConnected st;
     onClose := onClose st;
     connecting := connecting st;
     log := log st |}.

Definition set_cdnHost (x : string) (st : client) : client :=
  {| clientId := clientId st;
     clientSecret := clientSecret st;
     accessToken := accessToken st;
     refreshToken := refreshToken st;
     tokenType := tokenType st;
     user := user st;
     cdnHost := x;
     refreshTimeout := refreshTimeout st;
     connectionPromise := connectionPromise st;
     _nonceMap := _nonceMap st;
     promises := promises st;
     timers := timers st;
     nextTimer := nextTimer st;
     onConnected := onConnected st;
     onClose := onClose st;
     connecting := connecting st;
     log := log st |}.

Definition set_refreshTimeout (x : option nat) (st : client) : client :=
  {| clientId := clientId st;
     clientSecret := clientSecret st;
     accessToken := accessToken st;
     refreshToken := refreshToken st;
     tokenType := tokenType st;
     user := user st;
     cdnHost := cdnHost st;
     refreshTimeout := x;
     connectionPromise := connectionPromise st;
     _nonceMap := _nonceMap st;
     promises := promises st;
     timers := timers st;
     nextTimer := nextTimer st;
     onConnected := onConnected st;
     onClose := onClose st;
     connecting := connecting st;
     log := log st |}.

Definition set_connectionPromise (x : option nat) (st : client) : client :=
  {| clientId := clientId st;
     clientSecret := clientSecret st;
     accessToken := accessToken st;
     refreshToken := refreshToken st;
     tokenType := tokenType st;
     user := user st;
     cdnHost := cdnHost st;
     refreshTimeout := refreshTimeout st;
     connectionPromise := x;
     _nonceMap := _nonceMap st;
     promises := promises st;
     timers := timers st;
     nextTimer := nextTimer st;
     onConnected := onConnected st;
     onClose := onClose st;
     connecting := connecting st;
     log := log st |}.

Definition set_nonceMap (x : list (string * nonceObj)) (st : client) : client :=
  {| clientId := clientId st;
     clientSecret := clientSecret st;
     accessToken := accessToken st;
     refreshToken := refreshToken st;
     tokenType := tokenType st;
     user := user st;
     cdnHost := cdnHost st;
     refreshTimeout := refreshTimeout st;
     connectionPromise := connectionPromise st;
     _nonceMap := x;
     promises := promises st;
     timers := timers st;
     nextTimer := nextTimer st;
     onConnected := onConnected st;
     onClose := onClose st;
     connecting := connecting st;
     log := log st |}.

Definition set_promises (x : list promise) (st : client) : client :=
  {| clientId := clientId st;
     clientSecret := clientSecret st;
     accessToken := accessToken st;
     refreshToken := refreshToken st;
     tokenType := tokenType st;
     user := user st;
     cdnHost := cdnHost st;
     refreshTimeout := refreshTimeout st;
     connectionPromise := connectionPromise st;
     _nonceMap := _nonceMap st;
     promises := x;
     timers := timers st;
     nextTimer := nextTimer st;
     onConnected := onConnected st;
     onClose := onClose st;
     connecting := connecting st;
     log := log st |}.

Definition set_timers (x : list timer) (st : client) : client :=
  {| clientId := clientId st;
     clientSecret := clientSecret st;
     accessToken := accessToken st;
     refreshToken := refreshToken st;
     tokenType := tokenType st;
     user := user st;
     cdnHost := cdnHost st;
     refreshTimeout := refreshTimeout st;
     connectionPromise := connectionPromise st;
     _nonceMap := _nonceMap st;
     promises := promises st;
     timers := x;
     nextTimer := nextTimer st;
     onConnected := onConnected st;
     onClose := onClose st;
     connecting := connecting st;
     log := log st |}.

Definition set_nextTimer (x : nat) (st : client) : client :=
  {| clientId := clientId st;
     clientSecret := clientSecret st;
     accessToken := accessToken st;
     refreshToken := refreshToken st;
     tokenType := tokenType st;
     user := user st;
     cdnHost := cdnHost st;
     refreshTimeout := refreshTimeout st;
     connectionPromise := connectionPromise st;
     _nonceMap := _nonceMap st;
     promises := promises st;
     timers := timers st;
     nextTimer := x;
     onConnected := onConnected st;
     onClose := onClose st;
     connecting := connecting st;
     log := log st |}.

Definition set_onConnected (x : list connected_listener) (st : client) : client :=
  {| clientId := clientId st;
     clientSecret := clientSecret st;
     accessToken := accessToken st;
     refreshToken := refreshToken st;
     tokenType := tokenType st;
     user := user st;
     cdnHost := cdnHost st;
     refreshTimeout := refreshTimeout st;
     connectionPromise := connectionPromise st;
     _nonceMap := _nonceMap st;
     promises := promises st;
     timers := timers st;
     nextTimer := nextTimer st;
     onConnected := x;
     onClose := onClose st;
     connecting := connecting st;
     log := log st |}.

Definition set_onClose (x : list close_listener) (st : client) : client :=
  {| clientId := clientId st;
     clientSecret := clientSecret st;
     accessToken := accessToken st;
     refreshToken := refreshToken st;
     tokenType := tokenType st;
     user := user st;
     cdnHost := cdnHost st;
     refreshTimeout := refreshTimeout st;
     connectionPromise := connectionPromise st;
     _nonceMap := _nonceMap st;
     promises := promises st;
     timers := timers st;
     nextTimer := nextTimer st;
     onConnected := onConnected st;
     onClose := x;
     connecting := connecting st;
     log := log st |}.

Definition set_connecting (x : list nat) (st : client) : client :=
  {| clientId := clientId st;
     clientSecret := clientSecret st;
     accessToken := accessToken st;
     refreshToken := refreshToken st;
     tokenType := tokenType st;
     user := user st;
     cdnHost := cdnHost st;
     refreshTimeout := refreshTimeout st;
     connectionPromise := connectionPromise st;
     _nonceMap := _nonceMap st;
     promises := promises st;
     timers := timers st;
     nextTimer := nextTimer st;
     onConnected := onConnected st;
     onClose := onClose st;
     connecting := x;
     log := log st |}.

Definition set_log (x : list effect) (st : client) : client :=
  {| clientId := clientId st;
     clientSecret := clientSecret st;
     accessToken := accessToken st;
     refreshToken := refreshToken st;
     tokenType := tokenType st;
     user := user st;
     cdnHost := cdnHost st;
     refreshTimeout := refreshTimeout st;
     connectionPromise := connectionPromise st;
     _nonceMap := _nonceMap st;
     promises := promises st;
     timers := timers st;
     nextTimer := nextTimer st;
     onConnected := onConnected st;
     onClose := onClose st;
     connecting := connecting st;
     log := x |}.

(** ** Computations over the client

    A method body is a function from the state of the client to a result
    (a value, or a thrown exception) and the state it leaves. *)

Inductive result (A : Type) : Type :=
| Ok (a : A)
| Throw (e : js_error).
Arguments Ok {A} a.
Arguments Throw {A} e.

Definition M (A : Type) : Type := client → result A * client.

#[global] Instance M_ret : MRet M := λ A a st, (Ok a, st).
#[global] Instance M_bind : MBind M := λ A B k m st,
  match m st with
  | (Ok a, st') => k a st'
  | (Throw e, st') => (Throw e, st')
  end.

Definition gets {A : Type} (f : client → A) : M A := λ st, (Ok (f st), st).
Definition modify (f : client → client) : M unit := λ st, (Ok (), f st).
Definition throw {A : Type} (e : js_error) : M A := λ st, (Throw e, st).
Definition perform (e : effect) : M unit :=
  modify (λ st, set_log (log st ++ [e]) st).

Fixpoint forEach {A : Type} (l : list A) (f : A → M unit) : M unit :=
  match l with
  | [] => mret ()
  | x :: r => f x;; forEach r f
  end.

(** [v.k], raising the [TypeError] of a read from [undefined] or [null]. *)
Definition read (v : json) (k : string) : M json :=
  match get v k with
  | Some x => mret x
  | None => throw (TypeError (ReadOfNullish k))
  end.

(** [!(k in v)] *)
Definition missing (k : string) (v : json) : M bool :=
  match has_property k v with
  | Some b => mret (negb b)
  | None => throw (TypeError (InOperatorOnPrimitive k))
  end.

(** [b || m], evaluating [m] only when [b] is false. *)
Definition or_else (b : bool) (m : M bool) : M bool :=
  if b then mret true else m.

(** *** Promises and timers *)

Definition new_Promise : M nat := λ st,
  (Ok (length (promises st)), set_promises (promises st ++ [Pending]) st).

(** Settling a promise that is already settled changes nothing. *)
Definition settle (p : nat) (s : promise) : M unit :=
  modify (λ st,
    match promises st !! p with
    | Some Pending => set_promises (<[p := s]> (promises st)) st
    | _ => st
    end).

Definition resolve (p : nat) (v : value) : M unit :=
  perform (Resolve p v);; settle p (Resolved v).

Definition reject (p : nat) (e : js_error) : M unit :=
  perform (Reject p e);; settle p (Rejected e).

Definition setTimeout (a : timer_action) (delay : json) : M nat :=
  t ← gets nextTimer;
  modify (λ st, set_nextTimer (S t)
                  (set_timers (timers st ++ [{| t_id := t; t_delay := delay; t_action := a |}]) st));;
  perform (SetTimeout t delay);;
  mret t.

Definition clearTimeout (t : nat) : M unit :=
  perform (ClearTimeout t);;
  modify (λ st, set_timers (filter (λ x, t_id x ≠ t) (timers st)) st).

(** *** Events of the client: [once("connected", ...)] and [emit] *)

(** Body of the listener registered by [connect] (source lines 408-425). *)
Definition run_connected (l : connected_listener) : M unit :=
  let 'OnConnected p timeout := l in
  modify (set_connectionPromise None);;
  modify (λ st, set_onClose (onClose st ++ [RejectPending]) st);;
  clearTimeout timeout;;
  resolve p VUndefined.

(** The client's own listeners of the event [name]: the one-shot
    [connected] listeners run, in registration order, and are removed. *)
Definition notify (name : option string) : M unit :=
  if bool_decide (name = Some "connected") then
    ls ← gets onConnected;
    modify (set_onConnected []);;
    forEach ls run_connected
  else mret ().

(** [this.emit(name, ...args)]: subscribers of the application see the
    logged [Emit]; then the client's own listeners run. *)
Definition emit (name : option string) (args : list json) : M unit :=
  perform (Emit name args);;
  notify name.

(** *** The transport's [close] event *)

(** The two assignments to [promise.error] in the [close] listener. *)
Definition close_error (reason : close_reason) : RPCError :=
  {| code := match reason with
             | ReasonObject c _ => CodeOf c
             | _ => RPC_CONNECTION_ENDED
             end;
     message := match reason with
                | ReasonObject _ m => m
                | ReasonString s => JStr s
                | ReasonUndefined => JStr "Connection ended"
                end |}.

Definition set_error (e : RPCError) (o : nonceObj) : nonceObj :=
  {| p_promise := p_promise o; p_error := e |}.

(** The callback of [this._nonceMap.forEach] (lines 412-418). *)
Definition reject_entry (reason : close_reason) (kv : string * nonceObj) : M unit :=
  modify (λ st, set_nonceMap (Map_alter (set_error (close_error reason)) kv.1 (_nonceMap st)) st);;
  reject (p_promise kv.2) (ErrRPC (close_error reason)).

(** The [close] listener installed once connected (lines 411-421). *)
Definition disconnect (reason : close_reason) : M unit :=
  entries ← gets _nonceMap;
  forEach entries (reject_entry reason);;
  emit (Some "disconnected") [].

Definition run_close (reason : close_reason) (l : close_listener) : M unit :=
  match l with
  | RejectPending => disconnect reason
  | ResolveClose p => resolve p (VReason reason)
  end.

Definition transport_emit_close (reason : close_reason) : M unit :=
  ls ← gets onClose;
  modify (set_onClose []);;
  forEach ls (run_close reason).

(** *** The [message] handler installed by the constructor (lines 212-233) *)

Definition is_ready (m : envelope) : bool :=
  bool_decide (cmd m = "DISPATCH") && bool_decide (evt m = Some "READY").

(** The branch of the handshake: lines 214-217. *)
Definition handshake (m : envelope) : M unit :=
  u ← read (data m) "user";
  (if truthy u then modify (set_user u) else mret ());;
  c ← read (data m) "config";
  (if truthy c then
     h ← read c "cdn_host";
     if truthy h then modify (set_cdnHost ("https://" +:+ js_to_string h)) else mret ()
   else mret ());;
  emit (Some "connected") [].

(** The statement [if (message.nonce && this._nonceMap.has(message.nonce))]
    of lines 219-229. *)
Definition settle_reply (m : envelope) : M unit :=
  match nonce m with
  | Some n =>
      if negb (bool_decide (n = "")) then
        found ← gets (λ st, Map_get n (_nonceMap st));
        match found with
        | Some o =>
            (if bool_decide (evt m = Some "ERROR") then
               c ← read (data m) "code";
               msg ← read (data m) "message";
               let e := {| code := CodeOf c; message := msg |} in
               modify (λ st, set_nonceMap (Map_alter (set_error e) n (_nonceMap st)) st);;
               reject (p_promise o) (ErrRPC e)
             else resolve (p_promise o) (VEnvelope m));;
            modify (λ st, set_nonceMap (Map_delete n (_nonceMap st)) st)
        | None => mret ()
        end
      else mret ()
  | None => mret ()
  end.

Definition on_message (m : envelope) : M unit :=
  if is_ready m then handshake m
  else
    settle_reply m;;
    emit (evt m) [data m].

(** *** [request] (lines 263-273); [uuid] is what [crypto.randomUUID()]
    returns *)

Definition request (cmd : string) (args : json) (evt : option string) (uuid : string)
  : M nat :=
  let error := new_RPCError RPC_UNKNOWN_ERROR in
  p ← new_Promise;
  let nonce := uuid in
  perform (TransportSend {| c_cmd := cmd; c_args := args; c_evt := evt; c_nonce := nonce |});;
  modify (λ st, set_nonceMap (Map_set nonce {| p_promise := p; p_error := error |} (_nonceMap st)) st);;
  mret p.

(** *** Token lifecycle (lines 241-258, 287-321) *)

Definition fetch (path : string) (form : list (string * string)) : M unit :=
  at_ ← gets accessToken;
  tt ← gets tokenType;
  perform (Fetch {| h_path := path; h_form := form;
                    h_authorization :=
                      if truthy at_
                      then Some (js_to_string tt +:+ " " +:+ js_to_string at_)
                      else None |}).

(** [refreshAccessToken] up to its [await]; the body of the response is
    handed to [hanleAccessTokenResponse] when it arrives. *)
Definition refreshAccessToken : M unit :=
  emit (Some "debug") [JStr "CLIENT | Refreshing access token!"];;
  cid ← gets clientId;
  cs ← gets clientSecret;
  rt ← gets refreshToken;
  fetch "/oauth2/token"
    [("client_id", cid);
     ("client_secret", default "" cs);
     ("grant_type", "refresh_token");
     ("refresh_token", js_to_string (coalesce rt (JStr "")))].

(** [this.refreshTimeout = setTimeout(() => void this.refreshAccessToken(), delay)] *)
Definition schedule_refresh (delay : json) : M unit :=
  t ← setTimeout RefreshAccessToken delay;
  modify (set_refreshTimeout (Some t)).

Definition hanleAccessTokenResponse (data : json) : M unit :=
  m1 ← missing "access_token" data;
  m2 ← or_else m1 (missing "refresh_token" data);
  m3 ← or_else m2 (missing "expires_in" data);
  m4 ← or_else m3 (missing "token_type" data);
  match m4 with
  | true => throw (TypeError (InvalidAccessTokenResponse data))
  | false =>
      a ← read data "access_token";
      modify (set_accessToken a);;
      r ← read data "refresh_token";
      modify (set_refreshToken r);;
      tt ← read data "token_type";
      modify (set_tokenType tt);;
      e ← read data "expires_in";
      schedule_refresh e
  end.

(** *** [connect] (lines 391-431) and [destroy] (lines 452-460)

    An [async] method is identified with the promise its body returns or
    awaits last: the promise the caller receives adopts that settlement. *)

Definition connect : M nat :=
  cp ← gets connectionPromise;
  match cp with
  | Some p => mret p
  | None =>
      let error := new_RPCError RPC_UNKNOWN_ERROR in
      p ← new_Promise;
      timeout ← setTimeout (ConnectTimeout p error) (JNum 10000);
      modify (λ st, set_onConnected (onConnected st ++ [OnConnected p timeout]) st);;
      perform TransportConnect;;
      modify (λ st, set_connecting (connecting st ++ [p]) st);;
      modify (set_connectionPromise (Some p));;
      mret p
  end.

(** The callback of a timer. *)
Definition fire (a : timer_action) : M unit :=
  match a with
  | ConnectTimeout p _ =>
      modify (set_connectionPromise None);;
      reject p (ErrRPC {| code := RPC_CONNECTION_TIMEOUT;
                          message := JStr "Connection timed out" |})
  | RefreshAccessToken => refreshAccessToken
  end.

(** [WebsocketTransport.close] (lines 62-67), as called by [destroy]. *)
Definition transport_close : M nat :=
  perform TransportClose;;
  p ← new_Promise;
  modify (λ st, set_onClose (onClose st ++ [ResolveClose p]) st);;
  mret p.

Definition destroy : M nat :=
  rt ← gets refreshTimeout;
  (match rt with
   | Some t =>
       clearTimeout t;;
       modify (set_refreshTimeout None);;
       modify (set_refreshToken JUndefined)
   | None => mret ()
   end);;
  transport_close.

(** ** What happens to a client *)

Inductive event : Type :=
| CallConnect
| CallRequest (cmd : string) (args : json) (evt : option string) (uuid : string)
| CallDestroy
| Message (m : envelope)                  (* the transport emits "message" *)
| Close (reason : close_reason)           (* the transport emits "close" *)
| ConnectRejected (p : nat) (e : js_error) (* transport.connect() rejects *)
| ConnectResolved (p : nat)               (* transport.connect() resolves *)
| TimerFires (t : nat)
| TokenResponse (data : json).            (* the awaited POST /oauth2/token returns *)

Definition handle (e : event) : M unit :=
  match e with
  | CallConnect => connect;; mret ()
  | CallRequest c a ev uuid => request c a ev uuid;; mret ()
  | CallDestroy => destroy;; mret ()
  | Message m => on_message m
  | Close reason => transport_emit_close reason
  | ConnectRejected p e =>
      ps ← gets connecting;
      if bool_decide (p ∈ ps) then
        modify (λ st, set_connecting (filter (λ q, q ≠ p) (connecting st)) st);;
        reject p e
      else mret ()
  | ConnectResolved p =>
      modify (λ st, set_connecting (filter (λ q, q ≠ p) (connecting st)) st)
  | TimerFires t =>
      tm ← gets (λ st, find (λ x, bool_decide (t_id x = t)) (timers st));
      match tm with
      | Some x =>
          modify (λ st, set_timers (filter (λ y, t_id y ≠ t) (timers st)) st);;
          perform (Fired t);;
          fire (t_action x)
      | None => mret ()
      end
  | TokenResponse data => hanleAccessTokenResponse data
  end.

(** An exception that leaves a handler is reported and the state it left
    stays. *)
Definition step (e : event) (st : client) : client :=
  match handle e st with
  | (Ok _, st') => st'
  | (Throw err, st') => set_log (log st' ++ [Uncaught err]) st'
  end.

Fixpoint run (es : list event) (st : client) : client :=
  match es with
  | [] => st
  | e :: es' => run es' (step e st)
  end.

(** [new Client({ clientId, clientSecret })] *)
Definition new_Client (id : string) (secret : option string) : client :=
  {| clientId := id; clientSecret := secret;
     accessToken := JUndefined; refreshToken := JUndefined; tokenType := JStr "Bearer";
     user := JUndefined; cdnHost := "https://cdn.discordapp.com";
     refreshTimeout := None; connectionPromise := None; _nonceMap := [];
     promises := []; timers := []; nextTimer := 0;
     onConnected := []; onClose := []; connecting := []; log := [] |}.

(** ** The socket transport ([WebsocketTransport], lines 4-68) *)

Module WebsocketTransport.

(** What becomes of one [new WebSocket(url)]: [onopen] fires, [onerror]
    fires, or neither does. *)
Inductive probe : Type := Opens | Errors | Stalls.

(** The local endpoints, as seen through the URLs that are tried. *)
Definition network : Type := string → probe.

Inductive effect : Type :=
| NewWebSocket (url : string)
| Resolve                     (* resolve() of the promise of connect() *)
| Reject (e : js_error)       (* reject(e) of the promise of connect() *)
| Unhandled (e : js_error)    (* an exception leaves the async executor or a handler *)
| EmitMessage (m : json)      (* this.emit("message", m) *)
| EmitClose                   (* this.emit("close") *)
| SocketSend (payload : json) (* this.ws.send(JSON.stringify(payload)) *)
| SocketClose.                (* this.ws.close() *)

(** [ws] is the field [this.ws], a socket being named by its URL;
    [listening] tells whether [onmessage], [onclose] and [onerror] of
    [this.ws] are the handlers of lines 38-52; [closing] counts the
    [once('close', resolve)] listeners registered by [close]. *)
Record transport : Type :=
  { clientId : string; ws : option string; listening : bool;
    closing : nat; log : list effect }.

Definition perform (e : effect) (tr : transport) : transport :=
  {| clientId := clientId tr; ws := ws tr; listening := listening tr;
     closing := closing tr; log := log tr ++ [e] |}.

Definition set_ws (s : string) (tr : transport) : transport :=
  {| clientId := clientId tr; ws := Some s; listening := listening tr;
     closing := closing tr; log := log tr |}.

Definition set_listening (tr : transport) : transport :=
  {| clientId := clientId tr; ws := ws tr; listening := true;
     closing := closing tr; log := log tr |}.

Definition set_closing (n : nat) (tr : transport) : transport :=
  {| clientId := clientId tr; ws := ws tr; listening := listening tr;
     closing := n; log := log tr |}.

Definition new (client_id : string) : transport :=
  {| clientId := client_id; ws := None; listening := false; closing := 0; log := [] |}.

(** [`ws://127.0.0.1:${6463 + i}/?v=1&client_id=${this.client.clientId}`] *)
Definition url (client_id : string) (i : nat) : string :=
  "ws://127.0.0.1:" +:+ string_of_Z (6463 + Z.of_nat i) +:+ "/?v=1&client_id=" +:+ client_id.
#[global] Arguments url : simpl never.

(** First settlement wins. *)
Definition settle (s : promise) (pr : promise) : promise :=
  match pr with
  | Pending => s
  | _ => pr
  end.

(** The loop [for (let i = 0; i < 10; i++)] from index [i] on, with
    [remaining = 10 - i] rounds left.  The boolean tells whether control
    leaves the loop ([false]: the executor stays suspended at [await]). *)
Fixpoint probe_loop (net : network) (remaining i : nat) (pr : promise) (tr : transport)
  : bool * promise * transport :=
  match remaining with
  | 0 => (true, pr, tr)
  | S r =>
      let u := url (clientId tr) i in
      let tr := perform (NewWebSocket u) tr in
      match net u with
      | Opens => (true, settle (Resolved VUndefined) pr, perform Resolve (set_ws u tr))
      | Errors => probe_loop net r (S i) pr tr
      | Stalls => (false, pr, tr)
      end
  end.

(** [connect()]: the promise it returns, and the transport afterwards. *)
Definition connect (net : network) (tr : transport) : promise * transport :=
  match probe_loop net 10 0 Pending tr with
  | (false, pr, tr) => (pr, tr)
  | (true, pr, tr) =>
      let e := Error "Failed to connect to websocket" in
      let '(pr, tr) :=
        match ws tr with
        | None => (settle (Rejected e) pr, perform (Reject e) tr)
        | Some _ => (pr, tr)
        end in
      match ws tr with
      | None => (pr, perform (Unhandled (TypeError (WriteOfUndefined "onmessage"))) tr)
      | Some _ => (pr, set_listening tr)
      end
  end.

(** What the socket [this.ws] does later; a text frame is given by the
    value [JSON.parse] returns for it. *)
Inductive socket_event : Type :=
| Frame (parsed : json)
| Closed
| Failed (error : js_error).

Definition on_socket (ev : socket_event) (tr : transport) : transport :=
  if listening tr then
    match ev with
    | Frame m => perform (EmitMessage m) tr
    | Closed => set_closing 0 (perform EmitClose tr)
    | Failed err => perform (Unhandled err) (perform SocketClose tr)
    end
  else tr.


Definition close (tr : transport) : transport :=
  let tr := set_closing (S (closing tr)) tr in
  match ws tr with
  | Some _ => perform SocketClose tr
  | None => tr
  end.

End WebsocketTransport.


(** * The asynchronous methods of the client

    [login], [authorize], [authenticate] and [subscribe] are [async]
    methods: each call has a promise of its own and runs until its next
    [await], where it is suspended with what remains to be done.  A
    session is a client together with its suspended calls. *)

(** [AuthorizeOptions]; [scopes] is kept as the value it is tested as in
    [login], an absent [useRPCToken] is [false]. *)
Record AuthorizeOptions : Type :=
  { scopes : json; redirect_uri : option string; prompt : option string;
    useRPCToken : bool }.

(** What an [async] method returned: nothing, or the object with
    [unsubscribe] made by [subscribe] for an event and its arguments. *)
Inductive returned : Type :=
| RUndefined
| RSubscription (event : string) (args : json).

(** The promise of one call of an [async] method. *)
Inductive call : Type :=
| Running
| Returned (r : returned)
| Threw (e : js_error).

(** What a suspended call waits for: a promise of the client, the promise
    of another [async] call, or the answer to an HTTP request. *)
Inductive awaited : Type :=
| OnPromise (p : nat)
| OnCall (q : nat)
| OnFetch (k : nat).

(** The rest of a method after one of its [await]s; [self] is the promise
    of the call. *)
Inductive continuation : Type :=
| LoginConnected (self : nat) (options : option AuthorizeOptions) (* line 438 *)
| LoginAuthorized (self : nat)                                    (* line 445 *)
| LoginAuthenticated (self : nat)                                 (* line 446 *)
| AuthorizeRpcToken (self : nat) (options : AuthorizeOptions)     (* lines 327-337 *)
| AuthorizeCode (self : nat) (options : AuthorizeOptions)         (* lines 340-348 *)
| AuthorizeToken (self : nat)                                     (* lines 350-365 *)
| AuthenticateReply (self : nat)                                  (* lines 280-281 *)
| SubscribeReply (self : nat) (event : string) (args : json).     (* line 377 *)

(** What an [await] yields. *)
Inductive arrival : Type :=
| Value (v : value)
| Return (r : returned)
| Response (data : json)
| Failure (e : js_error).

(** [application] is the field [this.application]; [tasks] are the
    suspended calls, in the order in which they were suspended; [calls]
    holds the promises of the [async] calls; [nextFetch] numbers the HTTP
    requests that are awaited; [uuid] is the source of
    [crypto.randomUUID()], of which [drawn] values were taken. *)
Record session : Type :=
  { cl : client; application : json;
    tasks : list (awaited * continuation); calls : list call;
    nextFetch : nat; uuid : nat → string; drawn : nat }.

Definition set_cl (x : client) (s : session) : session :=
  {| cl := x; application := application s; tasks := tasks s; calls := calls s;
     nextFetch := nextFetch s; uuid := uuid s; drawn := drawn s |}.

Definition set_application (x : json) (s : session) : session :=
  {| cl := cl s; application := x; tasks := tasks s; calls := calls s;
     nextFetch := nextFetch s; uuid := uuid s; drawn := drawn s |}.

Definition set_tasks (x : list (awaited * continuation)) (s : session) : session :=
  {| cl := cl s; application := application s; tasks := x; calls := calls s;
     nextFetch := nextFetch s; uuid := uuid s; drawn := drawn s |}.

Definition set_calls (x : list call) (s : session) : session :=
  {| cl := cl s; application := application s; tasks := tasks s; calls := x;
     nextFetch := nextFetch s; uuid := uuid s; drawn := drawn s |}.

Definition set_nextFetch (x : nat) (s : session) : session :=
  {| cl := cl s; application := application s; tasks := tasks s; calls := calls s;
     nextFetch := x; uuid := uuid s; drawn := drawn s |}.

Definition set_drawn (x : nat) (s : session) : session :=
  {| cl := cl s; application := application s; tasks := tasks s; calls := calls s;
     nextFetch := nextFetch s; uuid := uuid s; drawn := x |}.

Definition new_session (id : string) (secret : option string) (rng : nat → string)
  : session :=
  {| cl := new_Client id secret; application := JUndefined; tasks := []; calls := [];
     nextFetch := 0; uuid := rng; drawn := 0 |}.

(** Computations over a session. *)
Definition SM (A : Type) : Type := session → result A * session.

#[global] Instance SM_ret : MRet SM := λ A a s, (Ok a, s).
#[global] Instance SM_bind : MBind SM := λ A B k m s,
  match m s with
  | (Ok a, s') => k a s'
  | (Throw e, s') => (Throw e, s')
  end.

(** A computation of the client, run on the client of the session. *)
Definition lift {A : Type} (m : M A) : SM A := λ s,
  let '(r, c) := m (cl s) in (r, set_cl c s).

Definition update (f : session → session) : SM unit := λ s, (Ok (), f s).

Definition randomUUID : SM string := λ s,
  (Ok (uuid s (drawn s)), set_drawn (S (drawn s)) s).

(** [this.request(cmd, args, evt)] with the token drawn by the call. *)
Definition s_request (cmd : string) (args : json) (evt : option string) : SM nat :=
  u ← randomUUID;
  lift (request cmd args evt u).

(** [this.fetch("POST", path, ...)]: the request goes out, and its answer
    is awaited under a number. *)
Definition s_fetch (path : string) (form : list (string * string)) : SM nat :=
  lift (fetch path form);;
  k ← (λ s, (Ok (nextFetch s), s));
  update (set_nextFetch (S k));;
  mret k.

Definition await (h : awaited) (k : continuation) : SM unit :=
  update (λ s, set_tasks (tasks s ++ [(h, k)]) s).

(** Settling the promise of a call, once. *)
Definition finish (q : nat) (c : call) : SM unit :=
  update (λ s,
    match calls s !! q with
    | Some Running => set_calls (<[q := c]> (calls s)) s
    | _ => s
    end).

(** The body of an [async] method, or the rest of it: what it throws
    rejects the promise of the call. *)
Definition attempt (self : nat) (body : SM unit) : SM unit := λ s,
  match body s with
  | (Ok _, s') => (Ok (), s')
  | (Throw e, s') => finish self (Threw e) s'
  end.

(** The call of an [async] method: a new promise, and the body up to its
    first [await]. *)
Definition async (body : nat → SM unit) : SM nat :=
  self ← (λ s, (Ok (length (calls s)), set_calls (calls s ++ [Running]) s));
  attempt self (body self);;
  mret self.

Definition string_or_undefined (o : option string) : json :=
  match o with
  | Some s => JStr s
  | None => JUndefined
  end.

(** [authenticate] (lines 279-285). *)
Definition authenticate : SM nat :=
  async (λ self,
    at_ ← lift (gets accessToken);
    p ← s_request "AUTHENTICATE" (JObj [("access_token", coalesce at_ (JStr ""))]) None;
    await (OnPromise p) (AuthenticateReply self)).

(** Lines 340-348 of [authorize], up to the [await]. *)
Definition authorize_request (self : nat) (options : AuthorizeOptions) (rpcToken : json)
  : SM unit :=
  id ← lift (gets clientId);
  p ← s_request "AUTHORIZE"
         (JObj [("scopes", scopes options);
                ("client_id", JStr id);
                ("rpc_token", if useRPCToken options then rpcToken else JUndefined);
                ("redirect_uri", string_or_undefined (redirect_uri options));
                ("prompt", JStr (default "consent" (prompt options)))])
         None;
  await (OnPromise p) (AuthorizeCode self options).

(** [authorize] (lines 323-366). *)
Definition authorize (options : AuthorizeOptions) : SM nat :=
  async (λ self,
    if useRPCToken options then
      id ← lift (gets clientId);
      secret ← lift (gets clientSecret);
      k ← s_fetch "/oauth2/token/rpc"
             [("client_id", id); ("client_secret", default "" secret)];
      await (OnFetch k) (AuthorizeRpcToken self options)
    else authorize_request self options JUndefined).

(** [subscribe] (lines 376-384). *)
Definition subscribe (event : string) (args : json) : SM nat :=
  async (λ self,
    p ← s_request "SUBSCRIBE" args (Some event);
    await (OnPromise p) (SubscribeReply self event args)).

(** The [unsubscribe] of the object a call of [subscribe] returned. *)
Definition unsubscribe (q : nat) : SM unit :=
  c ← (λ s, (Ok (calls s !! q), s));
  match c with
  | Some (Returned (RSubscription event args)) =>
      s_request "UNSUBSCRIBE" args (Some event);; mret ()
  | _ => mret ()
  end.

(** [login] (lines 437-447). *)
Definition login (options : option AuthorizeOptions) : SM nat :=
  async (λ self,
    p ← lift connect;
    await (OnPromise p) (LoginConnected self options)).

Definition self_of (k : continuation) : nat :=
  match k with
  | LoginConnected self _ | LoginAuthorized self | LoginAuthenticated self
  | AuthorizeRpcToken self _ | AuthorizeCode self _ | AuthorizeToken self
  | AuthenticateReply self | SubscribeReply self _ _ => self
  end.

(** [(await ...).data]: the payload of a reply or of an HTTP response. *)
Definition payload (a : arrival) : SM json :=
  match a with
  | Value (VEnvelope m) => mret (data m)
  | Response d => mret d
  | _ => λ s, (Throw (TypeError (ReadOfNullish "data")), s)
  end.

(** A property of a payload; reading from [undefined] or [null] throws. *)
Definition field (v : json) (k : string) : SM json := lift (read v k).

(** The rest of a method, given what its [await] yields.  The object
    [new ClientUser(this, user)] is kept as the payload [user] it is made
    from, as in the handshake. *)
Definition rest (k : continuation) (a : arrival) : SM unit :=
  match k with
  | LoginConnected self options =>
      match options with
      | Some o =>
          if truthy (scopes o) then
            q ← authorize o;
            await (OnCall q) (LoginAuthorized self)
          else
            lift (emit (Some "ready") []);;
            finish self (Returned RUndefined)
      | None =>
          lift (emit (Some "ready") []);;
          finish self (Returned RUndefined)
      end
  | LoginAuthorized self =>
      q ← authenticate;
      await (OnCall q) (LoginAuthenticated self)
  | LoginAuthenticated self => finish self (Returned RUndefined)
  | AuthorizeRpcToken self options =>
      d ← payload a;
      t ← field d "rpc_token";
      authorize_request self options t
  | AuthorizeCode self options =>
      d ← payload a;
      c ← field d "code";
      id ← lift (gets clientId);
      secret ← lift (gets clientSecret);
      k ← s_fetch "/oauth2/token"
             [("client_id", id);
              ("client_secret", default "" secret);
              ("redirect_uri", default "" (redirect_uri options));
              ("grant_type", "authorization_code");
              ("code", js_to_string c)];
      await (OnFetch k) (AuthorizeToken self)
  | AuthorizeToken self =>
      d ← payload a;
      lift (hanleAccessTokenResponse d);;
      finish self (Returned RUndefined)
  | AuthenticateReply self =>
      d ← payload a;
      app ← field d "application";
      u ← field d "user";
      update (set_application app);;
      lift (modify (set_user u));;
      lift (emit (Some "ready") []);;
      finish self (Returned RUndefined)
  | SubscribeReply self event args => finish self (Returned (RSubscription event args))
  end.

(** Resuming a suspended call: a rejected [await] rejects the call, as
    does whatever the rest of the method throws. *)
Definition resume (k : continuation) (a : arrival) : SM unit :=
  match a with
  | Failure e => finish (self_of k) (Threw e)
  | _ => attempt (self_of k) (rest k a)
  end.

(** What the [await] of a settled promise yields; [None] while the
    promise is pending.  The answer to an HTTP request comes from outside. *)
Definition settled_as (s : session) (h : awaited) : option arrival :=
  match h with
  | OnPromise p =>
      match promises (cl s) !! p with
      | Some (Resolved v) => Some (Value v)
      | Some (Rejected e) => Some (Failure e)
      | _ => None
      end
  | OnCall q =>
      match calls s !! q with
      | Some (Returned r) => Some (Return r)
      | Some (Threw e) => Some (Failure e)
      | _ => None
      end
  | OnFetch _ => None
  end.

(** The first suspended call that can go on, and the others.  Calls that
    become able to go on in the same event are resumed in the order in
    which they were suspended; what is proved below about one call does
    not depend on that order. *)
Fixpoint take_ready (s : session) (ts : list (awaited * continuation))
  : option (continuation * arrival * list (awaited * continuation)) :=
  match ts with
  | [] => None
  | (h, k) :: ts' =>
      match settled_as s h with
      | Some a => Some (k, a, ts')
      | None =>
          match take_ready s ts' with
          | Some (k', a, r) => Some (k', a, (h, k) :: r)
          | None => None
          end
      end
  end.

(** The suspended call that awaits the HTTP request [n], and the others. *)
Fixpoint take_fetch (n : nat) (ts : list (awaited * continuation))
  : option (continuation * list (awaited * continuation)) :=
  match ts with
  | [] => None
  | (h, k) :: ts' =>
      match h with
      | OnFetch n' =>
          if decide (n' = n) then Some (k, ts')
          else match take_fetch n ts' with
               | Some (k', r) => Some (k', (h, k) :: r)
               | None => None
               end
      | _ => match take_fetch n ts' with
             | Some (k', r) => Some (k', (h, k) :: r)
             | None => None
             end
      end
  end.

(** The number of [await]s a suspended call can still reach without
    anything arriving from outside bounds the work of [drain]. *)
Definition weight (k : continuation) : nat :=
  match k with
  | LoginConnected _ _ => 7
  | LoginAuthorized _ => 3
  | LoginAuthenticated _ => 1
  | AuthorizeRpcToken _ _ => 3
  | AuthorizeCode _ _ => 2
  | AuthorizeToken _ => 1
  | AuthenticateReply _ => 1
  | SubscribeReply _ _ _ => 1
  end.

Definition budget (ts : list (awaited * continuation)) : nat :=
  foldr (λ t n, weight t.2 + n) 0 ts.

(** Resuming the suspended calls whose promise is settled, until none is
    left (the microtasks that follow one event). *)
Fixpoint drain (fuel : nat) (s : session) : session :=
  match fuel with
  | 0 => s
  | S n =>
      match take_ready s (tasks s) with
      | Some (k, a, r) => drain n (resume k a (set_tasks r s)).2
      | None => s
      end
  end.

(** What happens to a session: an event of its client, a call of one of
    the public [async] methods, or the answer to an HTTP request made by
    [authorize]. *)
Inductive s_event : Type :=
| OfClient (e : event)
| CallLogin (options : option AuthorizeOptions)
| CallSubscribe (event : string) (args : json)
| CallUnsubscribe (q : nat)
| FetchReturns (n : nat) (data : json)
| FetchFails (n : nat) (e : js_error).

Definition s_handle (e : s_event) (s : session) : session :=
  match e with
  | OfClient e => set_cl (step e (cl s)) s
  | CallLogin options => (login options s).2
  | CallSubscribe event args => (subscribe event args s).2
  | CallUnsubscribe q => (unsubscribe q s).2
  | FetchReturns n d =>
      match take_fetch n (tasks s) with
      | Some (k, r) => (resume k (Response d) (set_tasks r s)).2
      | None => s
      end
  | FetchFails n e =>
      match take_fetch n (tasks s) with
      | Some (k, r) => (resume k (Failure e) (set_tasks r s)).2
      | None => s
      end
  end.

Definition s_step (e : s_event) (s : session) : session :=
  let s' := s_handle e s in
  drain (budget (tasks s')) s'.

Fixpoint s_run (es : list s_event) (s : session) : session :=
  match es with
  | [] => s
  | e :: es' => s_run es' (s_step e s)
  end.
(** * Properties *)

(** ** Socket transport: probing *)

Module WebsocketTransportFacts.
Import WebsocketTransport.


(** The events emitted to the listeners of the transport. *)
Definition is_emission (e : effect) : bool :=
  match e with
  | EmitMessage _ | EmitClose => true
  | _ => false
  end.

Definition emissions (l : list effect) : list effect := filter is_emission l.

Definition candidates (client_id : string) (n : nat) : list string :=
  url client_id <$> seq 0 n.

Lemma probe_loop_clientId net r i pr tr :
  clientId (probe_loop net r i pr tr).2 = clientId tr.
Proof.
  revert i tr. induction r as [|r IH]; intros i tr; simpl; [done|].
  destruct (net _); simpl; [done| |done]. by rewrite IH.
Qed.

(** Candidates [i], [i+1], ... all fail: the loop runs to its end, one
    socket per round, and touches nothing else. *)
Lemma probe_loop_all_fail net r i pr tr :
  (∀ j, j < r → net (url (clientId tr) (i + j)) = Errors) →
  ∃ tr', probe_loop net r i pr tr = (true, pr, tr')
         ∧ clientId tr' = clientId tr ∧ ws tr' = ws tr
         ∧ listening tr' = listening tr ∧ closing tr' = closing tr
         ∧ log tr' = log tr ++ (NewWebSocket <$> (url (clientId tr) <$> seq i r)).
Proof.
  revert i tr. induction r as [|r IH]; intros i tr Hall; simpl.
  - exists tr. by rewrite app_nil_r.
  - pose proof (Hall 0 ltac:(lia)) as H0. rewrite Nat.add_0_r in H0. rewrite H0.
    destruct (IH (S i) (perform (NewWebSocket (url (clientId tr) i)) tr))
      as (tr' & -> & ? & ? & ? & ? & Hlog).
    { intros j Hj. cbn [perform clientId]. replace (S i + j) with (i + S j) by lia.
      apply Hall. lia. }
    exists tr'. split_and!; try done. rewrite Hlog. simpl. by rewrite <- app_assoc.
Qed.




(** A transport whose socket handlers were never installed stays silent. *)
Lemma deaf_transport_stays tr evs :
  listening tr = false → foldl (flip on_socket) tr evs = tr.
Proof.
  intros Hdeaf. induction evs as [|ev evs IH]; simpl; [done|].
  unfold on_socket at 2. by rewrite Hdeaf.
Qed.


(** Ports 6463 and 6464 refuse, port 6465 accepts. *)
Definition third_port_open : network :=
  λ u, if bool_decide (u = url "123" 2) then Opens else Errors.


(** C9 (the code at the failing input). When every candidate errors,
    [connect()] rejects and the transport never emits [message] or
    [close]; but after [reject] the executor goes on to line 38 and
    assigns [onmessage] on the absent socket, which ends it with a
    [TypeError]. *)
Theorem connect_without_endpoint_writes_to_absent_socket
  (client_id : string) (evs : list socket_event) :
  let tr := (connect (λ _, Errors) (new client_id)).2 in
  (connect (λ _, Errors) (new client_id)).1
    = Rejected (Error "Failed to connect to websocket")
  ∧ ws tr = None
  ∧ emissions (log (foldl (flip on_socket) tr evs)) = []
  ∧ last (log tr) = Some (Unhandled (TypeError (WriteOfUndefined "onmessage"))).
Proof.
  cbv zeta. split_and!; try reflexivity.
  rewrite deaf_transport_stays by reflexivity. reflexivity.
Qed.

End WebsocketTransportFacts.

(** ** The client: single operations *)

(** Unfolds the monad so that a method body applied to a state computes. *)
Ltac run_M :=
  repeat progress
    (unfold mbind, M_bind, mret, M_ret, gets, modify, throw, perform,
       setTimeout, clearTimeout, new_Promise, resolve, reject in *;
     cbn in *).

Fixpoint count_effect (P : effect → bool) (l : list effect) : nat :=
  match l with
  | [] => 0
  | e :: r => (if P e then 1 else 0) + count_effect P r
  end.

Lemma count_effect_app P l1 l2 :
  count_effect P (l1 ++ l2) = count_effect P l1 + count_effect P l2.
Proof. induction l1 as [|e l1 IH]; simpl; [done|]. rewrite IH. lia. Qed.



(** ** Reachable states and what holds in all of them *)

Definition reachable (st : client) : Prop :=
  ∃ id secret es, st = run es (new_Client id secret).

Definition listener_promise (l : connected_listener) : nat :=
  let 'OnConnected p _ := l in p.

Definition listener_timer (l : connected_listener) : nat :=
  let 'OnConnected _ t := l in t.

(** Promises and timers are numbered below the next free number, and a
    promise waiting in [_nonceMap] is not the promise of a [close()]. *)
Record wf (st : client) : Prop :=
  { wf_nonceMap : ∀ kv, kv ∈ _nonceMap st →
      p_promise kv.2 < length (promises st)
      ∧ ResolveClose (p_promise kv.2) ∉ onClose st;
    wf_onConnected : ∀ l, l ∈ onConnected st →
      listener_promise l < length (promises st) ∧ listener_timer l < nextTimer st;
    wf_onClose : ∀ p, ResolveClose p ∈ onClose st → p < length (promises st);
    wf_timers : ∀ x, x ∈ timers st →
      t_id x < nextTimer st
      ∧ ∀ p e, t_action x = ConnectTimeout p e → p < length (promises st);
    wf_connecting : ∀ p, p ∈ connecting st → p < length (promises st);
    wf_refreshTimeout : ∀ t, refreshTimeout st = Some t → t < nextTimer st }.

Lemma run_app es1 es2 st : run (es1 ++ es2) st = run es2 (run es1 st).
Proof. revert st. induction es1 as [|e es1 IH]; intros st; simpl; [done|]. apply IH. Qed.

Lemma run_snoc es e st : run (es ++ [e]) st = step e (run es st).
Proof. by rewrite run_app. Qed.

Lemma reachable_ind (P : client → Prop) :
  (∀ id secret, P (new_Client id secret)) →
  (∀ e st, reachable st → P st → P (step e st)) →
  ∀ st, reachable st → P st.
Proof.
  intros Hinit Hstep st (id & secret & es & ->).
  induction es as [|e es IH] using rev_ind; simpl; [apply Hinit|].
  rewrite run_snoc. apply Hstep; [|done]. by exists id, secret, es.
Qed.

Lemma reachable_step e st : reachable st → reachable (step e st).
Proof.
  intros (id & secret & es & ->). exists id, secret, (es ++ [e]). by rewrite run_snoc.
Qed.

Lemma reachable_run es st : reachable st → reachable (run es st).
Proof.
  revert st. induction es as [|e es IH]; intros st H; simpl; [done|].
  by apply IH, reachable_step.
Qed.

(** *** Membership in the lists above *)

#[global] Instance set_unfold_list_omap {A B : Type} (f : A → option B)
    (l : list A) (P : A → Prop) (y : B) :
  (∀ x, SetUnfoldElemOf x l (P x)) →
  SetUnfoldElemOf y (omap f l) (∃ x, P x ∧ f x = Some y).
Proof.
  intros HP. constructor. rewrite list_elem_of_omap.
  split; intros (x & Hx & ?); exists x; (split; [|done]); by apply HP.
Qed.

#[global] Instance set_unfold_list_filter {A : Type} (P : A → Prop)
    `{!∀ x, Decision (P x)} (l : list A) (Q : Prop) (x : A) :
  SetUnfoldElemOf x l Q → SetUnfoldElemOf x (filter P l) (P x ∧ Q).
Proof. intros HQ. constructor. rewrite list_elem_of_filter. by rewrite (set_unfold_elem_of x l Q). Qed.

#[global] Instance set_unfold_Map_alter {V : Type} (f : V → V) (k : string)
    (m : list (string * V)) (P : string * V → Prop) (kv : string * V) :
  (∀ x, SetUnfoldElemOf x m (P x)) →
  SetUnfoldElemOf kv (Map_alter f k m)
    (∃ x, kv = (if bool_decide (k = x.1) then (x.1, f x.2) else x) ∧ P x).
Proof. intros HP. unfold Map_alter. apply _. Qed.

#[global] Instance set_unfold_Map_delete {V : Type} (k : string) (m : list (string * V))
    (P : Prop) (kv : string * V) :
  SetUnfoldElemOf kv m P → SetUnfoldElemOf kv (Map_delete k m) (k ≠ kv.1 ∧ P).
Proof.
  intros HP. constructor. rewrite <- (set_unfold_elem_of kv m P). clear HP.
  induction m as [|[k' v'] m IH]; simpl; [set_solver|].
  case_bool_decide; set_solver.
Qed.

Lemma elem_of_Map_set {V : Type} (k : string) (v : V) (m : list (string * V)) kv :
  kv ∈ Map_set k v m → kv = (k, v) ∨ kv ∈ m.
Proof.
  induction m as [|[k' v'] m IH]; simpl; [set_solver|].
  case_bool_decide; set_solver.
Qed.

(** *** Invariants of computations *)

Definition keeps (I : client → Prop) {A : Type} (m : M A) : Prop :=
  ∀ st, I st → I (m st).2.

Lemma keeps_ret I {A : Type} (a : A) : keeps I (mret a).
Proof. by intros st. Qed.

Lemma keeps_gets I {A : Type} (f : client → A) : keeps I (gets f).
Proof. by intros st. Qed.

Lemma keeps_throw I {A : Type} (e : js_error) : keeps I (throw (A:=A) e).
Proof. by intros st. Qed.

Lemma keeps_read I v k : keeps I (read v k).
Proof. intros st. unfold read. by destruct (get v k). Qed.

Lemma keeps_missing I k v : keeps I (missing k v).
Proof. intros st. unfold missing. by destruct (has_property k v). Qed.

Lemma keeps_bind I {A B : Type} (m : M A) (k : A → M B) :
  keeps I m → (∀ a, keeps I (k a)) → keeps I (m ≫= k).
Proof.
  intros Hm Hk st HI. specialize (Hm st HI). unfold mbind, M_bind.
  destruct (m st) as [[a|e] st']; simpl in *; [by apply Hk|done].
Qed.

Lemma keeps_modify I (f : client → client) :
  (∀ st, I st → I (f st)) → keeps I (modify f).
Proof. intros Hf st HI. by apply Hf. Qed.

Lemma keeps_forEach I {A : Type} (l : list A) (f : A → M unit) :
  (∀ x, keeps I (f x)) → keeps I (forEach l f).
Proof.
  intros Hf. induction l as [|x l IH]; simpl; [apply keeps_ret|].
  apply keeps_bind; [apply Hf|]. by intros _.
Qed.

Lemma keeps_or_else I b m : keeps I m → keeps I (or_else b m).
Proof. intros Hm. destruct b; [apply keeps_ret|done]. Qed.

(** Splits a computation along its structure, leaving the primitive
    steps. *)
Ltac keeps_step :=
  lazymatch goal with
  | |- keeps _ (mret _) => apply keeps_ret
  | |- keeps _ (gets _) => apply keeps_gets
  | |- keeps _ (throw _) => apply keeps_throw
  | |- keeps _ (read _ _) => apply keeps_read
  | |- keeps _ (missing _ _) => apply keeps_missing
  | |- keeps _ (or_else _ _) => apply keeps_or_else
  | |- keeps _ (forEach _ _) => apply keeps_forEach; intros ?
  | |- keeps _ (_ ≫= _) => apply keeps_bind; [|intros ?]
  | |- keeps _ (match ?x with _ => _ end) => destruct x
  end.

Ltac keeps_split := repeat keeps_step.

(** *** Numbering is an invariant *)

Ltac split_hyps :=
  repeat match goal with
    | H : _ ∨ _ |- _ => destruct H as [H|H]
    | H : ∃ _, _ |- _ => destruct H as [? H]
    | H : _ ∧ _ |- _ => destruct H as [? H]
    | H : False |- _ => destruct H
    end.

(** A hypothesis that has been used. *)
Definition used (P : Prop) : Prop := P.

(** Learns, from [H : wf st], the bounds of everything known to be in one
    of the lists of [st]. *)
Ltac use_wf H :=
  lazymatch type of H with
  | wf ?st =>
      repeat match goal with
        | Hm : ?x ∈ _nonceMap st |- _ => pose proof (wf_nonceMap st H x Hm); clear Hm
        | Hm : ?x ∈ onConnected st |- _ => pose proof (wf_onConnected st H x Hm); clear Hm
        | Hm : ResolveClose ?p ∈ onClose st |- _ =>
            pose proof (wf_onClose st H p Hm); change (used (ResolveClose p ∈ onClose st)) in Hm
        | Hm : ?x ∈ timers st |- _ => pose proof (wf_timers st H x Hm); clear Hm
        | Hm : ?p ∈ connecting st |- _ => pose proof (wf_connecting st H p Hm); clear Hm
        | Hm : refreshTimeout st = Some ?t |- _ =>
            pose proof (wf_refreshTimeout st H t Hm); clear Hm
        end
  end.

(** Closes [wf] of a state written out in terms of a state [st] with
    [H : wf st]. *)
Ltac wf_solve H :=
  constructor; cbn; intros;
  repeat match goal with Hm : _ ∈ _ |- _ => progress (set_unfold in Hm) end;
  split_hyps; simplify_eq/=;
  use_wf H;
  rewrite ?length_app, ?length_insert; cbn [length];
  repeat case_bool_decide; cbn [fst snd p_promise set_error];
  unfold used in *; set_unfold;
  naive_solver lia.

Lemma wf_new id secret : wf (new_Client id secret).
Proof. constructor; cbn; set_solver. Qed.

Lemma keeps_wf_perform e : keeps wf (perform e).
Proof. intros st H. by destruct H. Qed.

Lemma settle_length p s st : length (promises (settle p s st).2) = length (promises st).
Proof.
  unfold settle, modify. cbn. destruct (promises st !! p) as [[]|]; cbn; try done.
  by rewrite length_insert.
Qed.

Lemma keeps_wf_settle p s : keeps wf (settle p s).
Proof.
  intros st H. unfold settle, modify. cbn.
  destruct (promises st !! p) as [[]|]; cbn; try done. wf_solve H.
Qed.

Lemma keeps_wf_resolve p v : keeps wf (resolve p v).
Proof. apply keeps_bind; [apply keeps_wf_perform|intros _; apply keeps_wf_settle]. Qed.

Lemma keeps_wf_reject p e : keeps wf (reject p e).
Proof. apply keeps_bind; [apply keeps_wf_perform|intros _; apply keeps_wf_settle]. Qed.

Lemma keeps_wf_clearTimeout t : keeps wf (clearTimeout t).
Proof.
  apply keeps_bind; [apply keeps_wf_perform|intros _].
  apply keeps_modify. intros st H. wf_solve H.
Qed.

Lemma keeps_wf_run_connected l : keeps wf (run_connected l).
Proof.
  destruct l as [p t]. unfold run_connected. keeps_split;
    try apply keeps_wf_clearTimeout; try apply keeps_wf_resolve;
    apply keeps_modify; intros st H; wf_solve H.
Qed.

Lemma keeps_wf_emit name args : keeps wf (emit name args).
Proof.
  unfold emit, notify. keeps_split; try apply keeps_wf_perform; try apply keeps_wf_run_connected.
  apply keeps_modify; intros st H; wf_solve H.
Qed.

Lemma keeps_wf_run_close reason l : keeps wf (run_close reason l).
Proof.
  unfold run_close, disconnect, reject_entry. keeps_split;
    try apply keeps_wf_emit; try apply keeps_wf_reject; try apply keeps_wf_resolve.
  apply keeps_modify; intros st H. wf_solve H.
Qed.

Lemma keeps_wf_transport_emit_close reason : keeps wf (transport_emit_close reason).
Proof.
  unfold transport_emit_close. keeps_split; try apply keeps_wf_run_close.
  apply keeps_modify; intros st H; wf_solve H.
Qed.

Lemma keeps_wf_handshake m : keeps wf (handshake m).
Proof.
  unfold handshake. keeps_split; try apply keeps_wf_emit;
    apply keeps_modify; intros st H; wf_solve H.
Qed.

Lemma keeps_wf_settle_reply m : keeps wf (settle_reply m).
Proof.
  unfold settle_reply. keeps_split;
    try apply keeps_wf_reject; try apply keeps_wf_resolve;
    apply keeps_modify; intros st H; wf_solve H.
Qed.

Lemma keeps_wf_on_message m : keeps wf (on_message m).
Proof.
  unfold on_message. keeps_split;
    [apply keeps_wf_handshake|apply keeps_wf_settle_reply|apply keeps_wf_emit].
Qed.

Lemma keeps_wf_request c a e u : keeps wf (request c a e u).
Proof.
  intros st H. unfold request. run_M.
  constructor; cbn; intros; rewrite ?length_app; cbn [length];
    try match goal with
      | Hm : _ ∈ Map_set _ _ _ |- _ => apply elem_of_Map_set in Hm as [->|Hm]; cbn
      end;
    use_wf H; unfold used in *; try naive_solver lia.
  split; [lia|]. intros Hc. use_wf H. lia.
Qed.

Lemma keeps_wf_connect : keeps wf connect.
Proof.
  intros st H. unfold connect. run_M. destruct (connectionPromise st); [done|].
  run_M. wf_solve H.
Qed.

Lemma keeps_wf_destroy : keeps wf destroy.
Proof.
  intros st H. unfold destroy, transport_close. run_M.
  destruct (refreshTimeout st) eqn:Ht; run_M; wf_solve H.
Qed.

Lemma keeps_wf_fetch path form : keeps wf (fetch path form).
Proof. unfold fetch. keeps_split. apply keeps_wf_perform. Qed.

Lemma keeps_wf_refreshAccessToken : keeps wf refreshAccessToken.
Proof.
  unfold refreshAccessToken. keeps_split; [apply keeps_wf_emit|apply keeps_wf_fetch].
Qed.

Lemma keeps_wf_fire a : keeps wf (fire a).
Proof.
  destruct a; unfold fire; [|apply keeps_wf_refreshAccessToken].
  keeps_split; [|apply keeps_wf_reject].
  apply keeps_modify; intros st H; wf_solve H.
Qed.

Lemma keeps_wf_hanleAccessTokenResponse data : keeps wf (hanleAccessTokenResponse data).
Proof.
  unfold hanleAccessTokenResponse. keeps_split;
    try (apply keeps_modify; intros st H; wf_solve H).
Qed.

Lemma keeps_wf_handle e : keeps wf (handle e).
Proof.
  destruct e; unfold handle; keeps_split;
    try apply keeps_wf_connect; try apply keeps_wf_request; try apply keeps_wf_destroy;
    try apply keeps_wf_on_message; try apply keeps_wf_transport_emit_close;
    try apply keeps_wf_reject; try apply keeps_wf_perform; try apply keeps_wf_fire;
    try apply keeps_wf_hanleAccessTokenResponse;
    apply keeps_modify; intros st H; wf_solve H.
Qed.

Lemma wf_step e st : wf st → wf (step e st).
Proof.
  intros H. pose proof (keeps_wf_handle e st H) as H'. unfold step.
  destruct (handle e st) as [[] st']; [done|]. by destruct H'.
Qed.

Lemma reachable_wf st : reachable st → wf st.
Proof.
  revert st. apply reachable_ind; [apply wf_new|]. intros e st _. apply wf_step.
Qed.


(** ** Token lifecycle *)

Definition token_fields : list string :=
  ["access_token"; "refresh_token"; "expires_in"; "token_type"].

(** All four fields are present in the response. *)
Definition complete (data : json) : bool :=
  forallb (λ k, bool_decide (has_property k data = Some true)) token_fields.

Lemma find_timer_fresh (ts : list timer) (x : timer) :
  (∀ y, y ∈ ts → t_id y ≠ t_id x) →
  find (λ y, bool_decide (t_id y = t_id x)) (ts ++ [x]) = Some x
  ∧ filter (λ y, t_id y ≠ t_id x) (ts ++ [x]) = ts.
Proof.
  induction ts as [|y ts IH]; intros Hfresh; simpl.
  - rewrite bool_decide_eq_true_2 by done. split; [done|].
    rewrite filter_cons_False by naive_solver. done.
  - destruct IH as [IH1 IH2]; [set_solver|].
    assert (t_id y ≠ t_id x) by set_solver.
    rewrite bool_decide_eq_false_2 by done. split; [done|].
    rewrite filter_cons_True by done. by rewrite IH2.
Qed.

Lemma emit_other name args st :
  name ≠ Some "connected" →
  emit name args st = (Ok (), set_log (log st ++ [Emit name args]) st).
Proof.
  intros Hne. unfold emit, notify, mbind, M_bind, perform, modify.
  by rewrite bool_decide_eq_false_2.
Qed.

(** C6. A token response in which one of [access_token], [refresh_token],
    [token_type], [expires_in] is missing makes [hanleAccessTokenResponse]
    throw a [TypeError] ("Invalid access token response!" when the response
    is an object) and leaves the client as it was: no token is stored and
    no timer is armed.  A response with all four stores the access token,
    the refresh token and the token type, arms one timer with delay
    [expires_in] and stores it in [refreshTimeout]; when that timer fires it
    is gone, and the client posts the refresh exchange to [/oauth2/token]
    with [grant_type=refresh_token] and the stored refresh token. *)
Theorem token_response_handling (data : json) (st : client) :
  reachable st →
  (complete data = false →
     ∃ e, hanleAccessTokenResponse data st = (Throw (TypeError e), st)
          ∧ (∀ fs, data = JObj fs → e = InvalidAccessTokenResponse data))
  ∧ (complete data = true →
     ∃ a r tt e st',
       get data "access_token" = Some a ∧ get data "refresh_token" = Some r
       ∧ get data "token_type" = Some tt ∧ get data "expires_in" = Some e
       ∧ hanleAccessTokenResponse data st = (Ok (), st')
       ∧ accessToken st' = a ∧ refreshToken st' = r ∧ tokenType st' = tt
       ∧ refreshTimeout st' = Some (nextTimer st)
       ∧ timers st' = timers st ++ [{| t_id := nextTimer st; t_delay := e;
                                       t_action := RefreshAccessToken |}]
       ∧ timers (step (TimerFires (nextTimer st)) st') = timers st
       ∧ log (step (TimerFires (nextTimer st)) st')
         = log st' ++
           [Fired (nextTimer st);
            Emit (Some "debug") [JStr "CLIENT | Refreshing access token!"];
            Fetch {| h_path := "/oauth2/token";
                     h_form := [("client_id", clientId st);
                                ("client_secret", default "" (clientSecret st));
                                ("grant_type", "refresh_token");
                                ("refresh_token", js_to_string (coalesce r (JStr "")))];
                     h_authorization :=
                       if truthy a
                       then Some (js_to_string tt +:+ " " +:+ js_to_string a)
                       else None |}]).
Proof.
  intros Hreach. apply reachable_wf in Hreach as Hwf. split.
  - intros Hc. unfold complete, token_fields in Hc. cbn in Hc.
    unfold hanleAccessTokenResponse, missing, or_else.
    destruct data as [| |b|n|s|items|fs]; cbn in *; try (by eexists).
    repeat match goal with
      | |- context [own_property ?k fs] => destruct (own_property k fs) eqn:?; cbn in *
      end; try discriminate; run_M; (eexists; split; [reflexivity|done]).
  - intros Hc. unfold complete, token_fields in Hc. cbn in Hc.
    destruct data as [| |b|n|s|items|fs]; cbn in Hc; try discriminate.
    destruct (own_property "access_token" fs) as [a|] eqn:Ha; [|done].
    destruct (own_property "refresh_token" fs) as [r|] eqn:Hr; [|done].
    destruct (own_property "expires_in" fs) as [e|] eqn:He; [|done].
    destruct (own_property "token_type" fs) as [tt|] eqn:Ht; [|done].
    clear Hc.
    set (x := {| t_id := nextTimer st; t_delay := e; t_action := RefreshAccessToken |}).
    exists a, r, tt, e.
    exists (set_refreshTimeout (Some (nextTimer st))
              (set_log (log st ++ [SetTimeout (nextTimer st) e])
                 (set_nextTimer (S (nextTimer st))
                    (set_timers (timers st ++ [x])
                       (set_tokenType tt (set_refreshToken r (set_accessToken a st))))))).
    assert (find (λ y, bool_decide (t_id y = nextTimer st)) (timers st ++ [x]) = Some x
            ∧ filter (λ y, t_id y ≠ nextTimer st) (timers st ++ [x]) = timers st)
      as [Hfind Hfilter].
    { apply (find_timer_fresh (timers st) x). intros y Hy.
      pose proof (wf_timers st Hwf y Hy) as [Hlt _]. cbn. lia. }
    split_and!; cbn [get default]; rewrite ?Ha, ?Hr, ?He, ?Ht; try reflexivity.
    + unfold hanleAccessTokenResponse, missing, or_else, read, schedule_refresh.
      cbn [has_property get]. rewrite Ha, Hr, He, Ht. reflexivity.
    + unfold step, handle, mbind, M_bind, gets, modify, perform. cbn.
      cbn in Hfind, Hfilter. rewrite Hfind. cbn. rewrite Hfilter.
      unfold refreshAccessToken, mbind, M_bind. rewrite emit_other by done.
      unfold fetch. run_M. reflexivity.
    + unfold step, handle, mbind, M_bind, gets, modify, perform. cbn.
      cbn in Hfind, Hfilter. rewrite Hfind. cbn. rewrite Hfilter.
      unfold refreshAccessToken, mbind, M_bind. rewrite emit_other by done.
      unfold fetch. run_M. rewrite <- !app_assoc. reflexivity.
Qed.

Definition reply_without_refresh_token : json :=
  JObj [("access_token", JStr "a"); ("token_type", JStr "Bearer"); ("expires_in", JNum 3600)].

Lemma token_response_handling_witness :
  ∃ e, hanleAccessTokenResponse reply_without_refresh_token (new_Client "123" None)
       = (Throw (TypeError e), new_Client "123" None)
       ∧ (∀ fs, reply_without_refresh_token = JObj fs →
          e = InvalidAccessTokenResponse reply_without_refresh_token).
Proof.
  apply (proj1 (token_response_handling reply_without_refresh_token
                  (new_Client "123" None)
                  (ex_intro _ "123" (ex_intro _ None (ex_intro _ [] eq_refl))))).
  reflexivity.
Defined.

(** ** The message handler *)


(** What a step adds to the effect log. *)
Definition produced (e : event) (st : client) : list effect :=
  drop (length (log st)) (log (step e st)).


(** The log has grown from [l] by effects that satisfy [P]. *)
Definition extends (l : list effect) (P : effect → Prop) (st : client) : Prop :=
  ∃ rest, log st = l ++ rest ∧ Forall P rest.

Lemma extends_refl (P : effect → Prop) st : extends (log st) P st.
Proof. exists []. by rewrite app_nil_r. Qed.

Lemma keeps_extends_perform l (P : effect → Prop) e :
  P e → keeps (extends l P) (perform e).
Proof.
  intros He st (rest & Hlog & HP). exists (rest ++ [e]). cbn. rewrite Hlog.
  split; [by rewrite app_assoc|]. apply Forall_app. by split; [|constructor].
Qed.

Lemma keeps_extends_modify l (P : effect → Prop) f :
  (∀ st, log (f st) = log st) → keeps (extends l P) (modify f).
Proof. intros Hf st (rest & Hlog & HP). exists rest. cbn. by rewrite Hf. Qed.

Lemma keeps_extends_settle l (P : effect → Prop) p s : keeps (extends l P) (settle p s).
Proof. apply keeps_extends_modify. intros st. by destruct (promises st !! p) as [[]|]. Qed.

Lemma keeps_extends_run_connected l (P : effect → Prop) c :
  (∀ t, P (ClearTimeout t)) → (∀ p, P (Resolve p VUndefined)) →
  keeps (extends l P) (run_connected c).
Proof.
  intros Hc Hr. destruct c as [p t]. unfold run_connected, clearTimeout, resolve.
  keeps_split; try (by apply keeps_extends_perform); try apply keeps_extends_settle;
    by apply keeps_extends_modify.
Qed.

(** Computations that cannot throw. *)
Definition total {A : Type} (m : M A) : Prop := ∀ st, ∃ a, (m st).1 = Ok a.

Lemma total_bind {A B : Type} (m : M A) (k : A → M B) :
  total m → (∀ a, total (k a)) → total (m ≫= k).
Proof.
  intros Hm Hk st. destruct (Hm st) as [a Ha]. unfold mbind, M_bind.
  destruct (m st) as [[a'|e] st']; simpl in *; [|done]. apply Hk.
Qed.

Lemma total_modify f : total (modify f).
Proof. intros st. by exists (). Qed.

Lemma total_forEach {A : Type} (l : list A) (f : A → M unit) :
  (∀ x, total (f x)) → total (forEach l f).
Proof.
  intros Hf. induction l as [|x l IH]; simpl; [by exists ()|].
  apply total_bind; [apply Hf|]. by intros _.
Qed.

Lemma total_settle p s : total (settle p s).
Proof. apply total_modify. Qed.

Lemma total_resolve p v : total (resolve p v).
Proof. apply total_bind; [apply total_modify|intros _; apply total_settle]. Qed.

Lemma total_reject p e : total (reject p e).
Proof. apply total_bind; [apply total_modify|intros _; apply total_settle]. Qed.

Lemma total_run_connected c : total (run_connected c).
Proof.
  destruct c as [p t]. unfold run_connected, clearTimeout.
  repeat (apply total_bind; [|intros _]);
    try apply total_modify; apply total_resolve.
Qed.

Lemma total_notify name : total (notify name).
Proof.
  unfold notify. case_bool_decide; [|by exists ()].
  apply total_bind; [by eexists|intros ls].
  apply total_bind; [apply total_modify|intros _].
  apply total_forEach, total_run_connected.
Qed.

Lemma total_emit name args : total (emit name args).
Proof. apply total_bind; [apply total_modify|intros _; apply total_notify]. Qed.

Lemma keeps_extends_notify l (P : effect → Prop) name :
  (∀ t, P (ClearTimeout t)) → (∀ p, P (Resolve p VUndefined)) →
  keeps (extends l P) (notify name).
Proof.
  intros. unfold notify. keeps_split.
  - by apply keeps_extends_modify.
  - by apply keeps_extends_run_connected.
Qed.

Lemma keeps_nonceMap_notify m0 name : keeps (λ st, _nonceMap st = m0) (notify name).
Proof.
  unfold notify. keeps_split; try (by apply keeps_modify).
  destruct x as [p t]. unfold run_connected, clearTimeout, resolve, perform.
  keeps_split; try (by apply keeps_modify).
  apply keeps_modify. intros st. by destruct (promises st !! p) as [[]|].
Qed.

Definition is_Emit (e : effect) : Prop :=
  match e with Emit _ _ => True | _ => False end.

(** [emit] logs the emission and then only runs [connected] listeners. *)
Lemma emit_spec name args st :
  ∃ st' rest, emit name args st = (Ok (), st')
              ∧ log st' = log st ++ Emit name args :: rest
              ∧ Forall (λ e, ¬ is_Emit e) rest
              ∧ _nonceMap st' = _nonceMap st.
Proof.
  unfold emit, mbind, M_bind, perform, modify.
  set (st1 := set_log (log st ++ [Emit name args]) st).
  destruct (total_notify name st1) as [[] Hok].
  pose proof (keeps_extends_notify (log st1) (λ e, ¬ is_Emit e) name
                ltac:(by intros ? []) ltac:(by intros ? []) st1 (extends_refl _ st1))
    as (rest & Hlog & Hrest).
  pose proof (keeps_nonceMap_notify (_nonceMap st) name st1 eq_refl) as Hmap.
  destruct (notify name st1) as [r st']. simpl in *. subst r.
  exists st', rest. split_and!; try done.
  rewrite Hlog. subst st1. cbn. by rewrite <- app_assoc.
Qed.

(** What a reply settles the request with; [None] when reading the error
    payload throws. *)
Definition reply_outcome (m : envelope) : option promise :=
  if bool_decide (evt m = Some "ERROR") then
    match get (data m) "code", get (data m) "message" with
    | Some c, Some msg => Some (Rejected (ErrRPC {| code := CodeOf c; message := msg |}))
    | _, _ => None
    end
  else Some (Resolved (VEnvelope m)).

(** The call of [resolve] or [reject] that settles promise [p] with [s]. *)
Definition settle_effect (p : nat) (s : promise) : list effect :=
  match s with
  | Pending => []
  | Resolved v => [Resolve p v]
  | Rejected e => [Reject p e]
  end.

(** The client after the entry [n] of [_nonceMap] was served with [s]. *)
Definition after_reply (n : string) (p : nat) (s : promise) (st : client) : client :=
  set_nonceMap (Map_delete n (_nonceMap st))
    (settle p s (set_log (log st ++ settle_effect p s) st)).2.

Lemma Map_delete_alter {V : Type} (f : V → V) (k : string) (m : list (string * V)) :
  Map_delete k (Map_alter f k m) = Map_delete k m.
Proof.
  induction m as [|[k' v] m IH]; [done|].
  change (Map_alter f k ((k', v) :: m))
    with ((if bool_decide (k = k') then (k', f v) else (k', v)) :: Map_alter f k m).
  case_bool_decide; simpl; rewrite ?bool_decide_eq_true_2, ?bool_decide_eq_false_2 by done;
    by rewrite IH.
Qed.

Lemma Map_get_delete {V : Type} (k : string) (m : list (string * V)) :
  Map_get k (Map_delete k m) = None.
Proof.
  induction m as [|[k' v] m IH]; simpl; [done|].
  case_bool_decide; simpl; [done|]. by rewrite bool_decide_eq_false_2.
Qed.




Lemma settle_reply_matched m st n o s :
  nonce m = Some n → n ≠ "" → Map_get n (_nonceMap st) = Some o →
  reply_outcome m = Some s →
  settle_reply m st = (Ok (), after_reply n (p_promise o) s st).
Proof.
  intros Hn Hne Hget Hs. unfold settle_reply, after_reply. rewrite Hn.
  rewrite bool_decide_eq_false_2 by done. cbn [negb].
  unfold mbind at 1, M_bind at 1, gets. rewrite Hget.
  unfold reply_outcome in Hs. case_bool_decide.
  - unfold read. destruct (get (data m) "code") as [c|]; [|done].
    destruct (get (data m) "message") as [msg|]; [|done]. simplify_eq.
    unfold reject. run_M. unfold settle, modify. cbn.
    destruct (promises st !! p_promise o) as [[]|]; cbn; by rewrite Map_delete_alter.
  - simplify_eq. unfold resolve. run_M. unfold settle, modify. cbn.
    by destruct (promises st !! p_promise o) as [[]|].
Qed.


Lemma produced_eq e st rest : log (step e st) = log st ++ rest → produced e st = rest.
Proof. intros H. unfold produced. rewrite H. apply drop_app_length. Qed.








(** ** Settled promises stay settled *)

Definition settled (p : nat) (s : promise) (st : client) : Prop :=
  promises st !! p = Some s.

Lemma keeps_forEach_in I {A : Type} (l : list A) (f : A → M unit) :
  (∀ x, x ∈ l → keeps I (f x)) → keeps I (forEach l f).
Proof.
  induction l as [|x l IH]; intros Hf; simpl; [apply keeps_ret|].
  apply keeps_bind; [apply Hf; set_solver|]. intros _. apply IH. set_solver.
Qed.

Lemma forEach_app {A : Type} (l1 l2 : list A) (f : A → M unit) st :
  forEach (l1 ++ l2) f st = (forEach l1 f;; forEach l2 f) st.
Proof.
  revert st. induction l1 as [|x l1 IH]; intros st; simpl.
  - unfold mbind, M_bind, mret, M_ret. done.
  - unfold mbind, M_bind in *. destruct (f x st) as [[[]|e] st1]; [|done]. apply IH.
Qed.

Section settled.
Context (p : nat) (s : promise) (Hs : s ≠ Pending).

Lemma keeps_settled_settle q s' : keeps (settled p s) (settle q s').
Proof using Hs.
intros st H. unfold settled, settle, modify in *. cbn.
destruct (promises st !! q) as [[]|] eqn:Hq; cbn; try done.
destruct (decide (q = p)) as [->|Hne]; [congruence|].
by rewrite list_lookup_insert_ne.
Qed.

Lemma keeps_settled_new_Promise : keeps (settled p s) new_Promise.
Proof.
intros st H. unfold settled, new_Promise in *. cbn.
rewrite lookup_app_l; [done|]. by eapply lookup_lt_Some.
Qed.

Lemma keeps_settled_modify f :
(∀ st, promises (f st) = promises st) → keeps (settled p s) (modify f).
Proof. intros Hf st H. unfold settled, modify in *. cbn. by rewrite Hf. Qed.

Lemma keeps_settled_setTimeout a d : keeps (settled p s) (setTimeout a d).
Proof. by intros st H. Qed.

(** Leaves of a computation, for [settled]. *)
Ltac settled_leaf :=
first
  [ apply keeps_settled_settle
  | apply keeps_settled_new_Promise
  | apply keeps_settled_setTimeout
  | by apply keeps_settled_modify ].

Lemma keeps_settled_resolve q v : keeps (settled p s) (resolve q v).
Proof using Hs. unfold resolve, perform. keeps_split; settled_leaf. Qed.

Lemma keeps_settled_reject q e : keeps (settled p s) (reject q e).
Proof using Hs. unfold reject, perform. keeps_split; settled_leaf. Qed.

Lemma keeps_settled_notify name : keeps (settled p s) (notify name).
Proof using Hs.
unfold notify. keeps_split; try settled_leaf.
destruct x. unfold run_connected, clearTimeout, perform.
keeps_split; try settled_leaf. apply keeps_settled_resolve.
Qed.

Lemma keeps_settled_emit name args : keeps (settled p s) (emit name args).
Proof using Hs.
unfold emit, perform. keeps_split; [settled_leaf|apply keeps_settled_notify].
Qed.

Lemma keeps_settled_run_close reason l : keeps (settled p s) (run_close reason l).
Proof using Hs.
unfold run_close, disconnect, reject_entry. keeps_split;
  try apply keeps_settled_reject; try apply keeps_settled_resolve;
  try apply keeps_settled_emit; settled_leaf.
Qed.

Lemma keeps_settled_handle e : keeps (settled p s) (handle e).
Proof using Hs.
destruct e; unfold handle, connect, request, destroy, transport_close, on_message,
  handshake, settle_reply, transport_emit_close, fire, refreshAccessToken, fetch,
  hanleAccessTokenResponse, schedule_refresh, clearTimeout, perform;
  keeps_split;
  try apply keeps_settled_reject; try apply keeps_settled_resolve;
  try apply keeps_settled_emit; try apply keeps_settled_run_close;
  settled_leaf.
Qed.

Lemma settled_step e st : settled p s st → settled p s (step e st).
Proof using Hs.
intros H. pose proof (keeps_settled_handle e st H) as H'. unfold step.
by destruct (handle e st) as [[] st'].
Qed.

End settled.

(** ** The log only grows *)

Definition about_log (Q : list effect → Prop) (st : client) : Prop := Q (log st).

Section about_log.
Context (Q : list effect → Prop) (HQ : ∀ l e, Q l → Q (l ++ [e])).

Lemma keeps_log_perform e : keeps (about_log Q) (perform e).
Proof using HQ. intros st H. by apply HQ. Qed.

Lemma keeps_log_modify f :
(∀ st, log (f st) = log st) → keeps (about_log Q) (modify f).
Proof. intros Hf st H. unfold about_log, modify in *. cbn. by rewrite Hf. Qed.

Lemma keeps_log_settle q s : keeps (about_log Q) (settle q s).
Proof. apply keeps_log_modify. intros st. by destruct (promises st !! q) as [[]|]. Qed.

Lemma keeps_log_new_Promise : keeps (about_log Q) new_Promise.
Proof. by intros st H. Qed.

Lemma keeps_log_setTimeout a d : keeps (about_log Q) (setTimeout a d).
Proof using HQ. intros st H. by apply HQ. Qed.

Ltac log_leaf :=
first
  [ apply keeps_log_perform
  | apply keeps_log_settle
  | apply keeps_log_new_Promise
  | apply keeps_log_setTimeout
  | by apply keeps_log_modify ].

Lemma keeps_log_resolve q v : keeps (about_log Q) (resolve q v).
Proof using HQ. unfold resolve. keeps_split; log_leaf. Qed.

Lemma keeps_log_reject q e : keeps (about_log Q) (reject q e).
Proof using HQ. unfold reject. keeps_split; log_leaf. Qed.

Lemma keeps_log_notify name : keeps (about_log Q) (notify name).
Proof using HQ.
unfold notify. keeps_split; try log_leaf.
destruct x. unfold run_connected, clearTimeout.
keeps_split; try log_leaf. apply keeps_log_resolve.
Qed.

Lemma keeps_log_emit name args : keeps (about_log Q) (emit name args).
Proof using HQ. unfold emit. keeps_split; [log_leaf|apply keeps_log_notify]. Qed.

Lemma keeps_log_reject_entry reason kv : keeps (about_log Q) (reject_entry reason kv).
Proof using HQ. unfold reject_entry. keeps_split; [log_leaf|apply keeps_log_reject]. Qed.

Lemma keeps_log_run_close reason l : keeps (about_log Q) (run_close reason l).
Proof using HQ.
unfold run_close, disconnect. keeps_split;
  try apply keeps_log_reject_entry; try apply keeps_log_resolve;
  try apply keeps_log_emit; log_leaf.
Qed.

Lemma keeps_log_handle e : keeps (about_log Q) (handle e).
Proof using HQ.
destruct e; unfold handle, connect, request, destroy, transport_close, on_message,
  handshake, settle_reply, transport_emit_close, fire, refreshAccessToken, fetch,
  hanleAccessTokenResponse, schedule_refresh, clearTimeout;
  keeps_split;
  try apply keeps_log_reject; try apply keeps_log_resolve;
  try apply keeps_log_emit; try apply keeps_log_run_close;
  log_leaf.
Qed.

Lemma about_log_step e st : about_log Q st → about_log Q (step e st).
Proof using HQ.
intros H. pose proof (keeps_log_handle e st H) as H'. unfold step.
destruct (handle e st) as [[] st']; [done|]. by apply HQ.
Qed.

Lemma about_log_run es st : about_log Q st → about_log Q (run es st).
Proof using HQ.
revert st. induction es as [|e es IH]; intros st H; simpl; [done|].
by apply IH, about_log_step.
Qed.
End about_log.

(** The log extends [l]. *)
Definition grown (l : list effect) : list effect → Prop := λ lg, ∃ rest, lg = l ++ rest.

(** The log extends [l] by effects among which is [x]. *)
Definition logged (l : list effect) (x : effect) : list effect → Prop :=
  λ lg, ∃ rest, lg = l ++ rest ∧ x ∈ rest.

Lemma grown_snoc l lg e : grown l lg → grown l (lg ++ [e]).
Proof. intros [rest ->]. exists (rest ++ [e]). by rewrite app_assoc. Qed.

Lemma logged_snoc l x lg e : logged l x lg → logged l x (lg ++ [e]).
Proof.
  intros (rest & -> & Hx). exists (rest ++ [e]).
  split; [by rewrite app_assoc|set_solver].
Qed.

Lemma grown_logged l x lg : grown l lg → logged l x (lg ++ [x]).
Proof.
  intros [rest ->]. exists (rest ++ [x]). split; [by rewrite app_assoc|set_solver].
Qed.

Lemma logged_produced e st x : logged (log st) x (log (step e st)) → x ∈ produced e st.
Proof. intros (rest & Hlog & Hx). by rewrite (produced_eq e st rest). Qed.

(** ** Disconnection *)

(** A loop whose bodies keep [I] until the body at [x] establishes [J],
    which the bodies keep from then on. *)
Lemma forEach_phases {A : Type} (I J : client → Prop) (l : list A) (f : A → M unit) (x : A) :
  x ∈ l →
  (∀ y, total (f y)) →
  (∀ y, y ∈ l → keeps I (f y)) →
  (∀ st, I st → J (f x st).2) →
  (∀ y, keeps J (f y)) →
  ∀ st, I st → J (forEach l f st).2.
Proof.
  intros Hx Htot HI HIJ HJ st Hst.
  apply list_elem_of_split in Hx as (l1 & l2 & ->).
  rewrite forEach_app. unfold mbind, M_bind.
  pose proof (keeps_forEach_in I l1 f ltac:(intros; apply HI; set_solver) st Hst) as H1.
  destruct (total_forEach l1 f Htot st) as [[] Hok1].
  destruct (forEach l1 f st) as [r1 st1]. simpl in *. subst r1.
  simpl. unfold mbind, M_bind.
  pose proof (HIJ st1 H1) as H2. destruct (Htot x st1) as [[] Hokx].
  destruct (f x st1) as [rx st2]. simpl in *. subst rx.
  by apply (keeps_forEach J l2 f HJ).
Qed.

Lemma total_reject_entry reason kv : total (reject_entry reason kv).
Proof.
  unfold reject_entry. apply total_bind; [apply total_modify|intros _; apply total_reject].
Qed.

Lemma total_run_close reason l : total (run_close reason l).
Proof.
  destruct l; simpl; [|apply total_resolve].
  unfold disconnect. apply total_bind; [by eexists|intros entries].
  apply total_bind; [|intros _; apply total_emit].
  apply total_forEach, total_reject_entry.
Qed.

Section close.
Context (reason : close_reason) (p : nat).

Let err : js_error := ErrRPC (close_error reason).

(** Promise [p] is pending or already rejected by this disconnection. *)
Definition awaiting (st : client) : Prop :=
promises st !! p = Some Pending ∨ promises st !! p = Some (Rejected err).

(** Promise [p] belongs to an entry of [_nonceMap]. *)
Definition tabled (st : client) : Prop :=
∃ kv, kv ∈ _nonceMap st ∧ p_promise kv.2 = p.

Lemma keeps_tabled_alter e k :
keeps tabled (modify (λ st, set_nonceMap (Map_alter (set_error e) k (_nonceMap st)) st)).
Proof.
intros st ([k' o] & Hkv & Hp). cbn in *.
exists (if bool_decide (k = k') then (k', set_error e o) else (k', o)).
split; [|by case_bool_decide].
unfold Map_alter. apply list_elem_of_fmap. by exists (k', o).
Qed.

Lemma keeps_tabled_settle q s : keeps tabled (settle q s).
Proof.
intros st H. unfold tabled, settle, modify in *. cbn.
by destruct (promises st !! q) as [[]|].
Qed.

Lemma keeps_tabled_reject_entry kv : keeps tabled (reject_entry reason kv).
Proof.
unfold reject_entry, reject, perform. keeps_split;
  [apply keeps_tabled_alter|by apply keeps_modify|apply keeps_tabled_settle].
Qed.

Lemma keeps_awaiting_reject q : keeps awaiting (reject q err).
Proof.
unfold reject, perform. keeps_split; [by apply keeps_modify|].
intros st H. unfold awaiting, settle, modify in *. cbn.
destruct (promises st !! q) as [[]|] eqn:Hq; cbn; try done.
destruct (decide (q = p)) as [->|Hne].
- right. apply list_lookup_insert_eq. by eapply lookup_lt_Some.
- by rewrite list_lookup_insert_ne.
Qed.

Lemma keeps_awaiting_reject_entry kv : keeps awaiting (reject_entry reason kv).
Proof.
unfold reject_entry. keeps_split; [by apply keeps_modify|apply keeps_awaiting_reject].
Qed.

Lemma awaiting_rejected kv st :
p_promise kv.2 = p → awaiting st → settled p (Rejected err) (reject_entry reason kv st).2.
Proof.
intros Hp H. unfold reject_entry, reject, perform, settled, settle. run_M. rewrite Hp.
destruct H as [H|H]; rewrite H; cbn; [|done].
apply list_lookup_insert_eq. by eapply lookup_lt_Some.
Qed.

Lemma keeps_settled_reject_entry s kv :
s ≠ Pending → keeps (settled p s) (reject_entry reason kv).
Proof.
intros Hs. unfold reject_entry. keeps_split;
  [by apply keeps_settled_modify|by apply keeps_settled_reject].
Qed.

(** The listener installed once connected rejects [p] if it is in the
  table and still pending. *)
Lemma disconnect_rejects st :
tabled st → awaiting st → settled p (Rejected err) (disconnect reason st).2.
Proof.
intros (kv & Hkv & Hp) Haw. unfold disconnect, mbind, M_bind, gets.
pose proof (forEach_phases awaiting (settled p (Rejected err)) (_nonceMap st)
              (reject_entry reason) kv Hkv (total_reject_entry reason)
              (λ y _, keeps_awaiting_reject_entry y)
              (λ st', awaiting_rejected kv st' Hp)
              (λ y, keeps_settled_reject_entry (Rejected err) y ltac:(done)) st Haw)
  as H.
destruct (total_forEach (_nonceMap st) (reject_entry reason)
            (total_reject_entry reason) st) as [[] Hok].
destruct (forEach (_nonceMap st) (reject_entry reason) st) as [r st1].
simpl in *. subst r. by apply keeps_settled_emit.
Qed.

Lemma keeps_awaiting_disconnect : keeps awaiting (disconnect reason).
Proof.
unfold disconnect. keeps_split; [apply keeps_awaiting_reject_entry|].
intros st H. by rewrite emit_other.
Qed.

Lemma keeps_tabled_disconnect : keeps tabled (disconnect reason).
Proof.
unfold disconnect. keeps_split; [apply keeps_tabled_reject_entry|].
intros st H. by rewrite emit_other.
Qed.

(** Listeners other than [resolve] of [p] itself leave [p] awaiting and in
  the table. *)
Lemma keeps_awaiting_run_close l :
l ≠ ResolveClose p → keeps (λ st, tabled st ∧ awaiting st) (run_close reason l).
Proof.
intros Hl. destruct l as [|q]; simpl.
- intros st [Ht Ha]. split; [by apply keeps_tabled_disconnect|].
  by apply keeps_awaiting_disconnect.
- assert (q ≠ p) by congruence. unfold resolve, perform.
  keeps_split; [by apply keeps_modify|].
  intros st [Ht Ha]. split; [by apply keeps_tabled_settle|].
  unfold awaiting, settle, modify in *. cbn.
  destruct (promises st !! q) as [[]|] eqn:Hq; cbn; try done.
  by rewrite list_lookup_insert_ne.
Qed.

(** When the transport emits [close] and the listener of the connected
  client is among the listeners, a pending promise of the table ends
  rejected. *)
Lemma transport_emit_close_rejects st :
RejectPending ∈ onClose st → ResolveClose p ∉ onClose st →
tabled st → promises st !! p = Some Pending →
settled p (Rejected err) (transport_emit_close reason st).2.
Proof.
intros Hin Hnot Ht Hp. unfold transport_emit_close, mbind, M_bind, gets, modify. cbn.
apply (forEach_phases (λ st, tabled st ∧ awaiting st) (settled p (Rejected err))
         (onClose st) (run_close reason) RejectPending Hin
         (total_run_close reason)).
- intros y Hy. apply keeps_awaiting_run_close. congruence.
- intros st' [Ht' Ha']. by apply disconnect_rejects.
- intros y. by apply keeps_settled_run_close.
- split; [done|by left].
Qed.
End close.

Section close_log.
Context (reason : close_reason) (l0 : list effect).

Lemma keeps_tabled_run_close p l : keeps (tabled p) (run_close reason l).
Proof.
destruct l as [|q]; simpl; [apply keeps_tabled_disconnect|].
unfold resolve, perform. keeps_split; [by apply keeps_modify|apply keeps_tabled_settle].
Qed.

Lemma reject_entry_logged kv st :
about_log (grown l0) st →
about_log (logged l0 (Reject (p_promise kv.2) (ErrRPC (close_error reason))))
  (reject_entry reason kv st).2.
Proof.
intros H. unfold reject_entry, reject, mbind, M_bind, modify, perform, settle.
unfold about_log in *. cbn.
destruct (promises st !! p_promise kv.2) as [[]|]; cbn; by apply grown_logged.
Qed.

Lemma disconnect_logs_reject kv st :
kv ∈ _nonceMap st → about_log (grown l0) st →
about_log (logged l0 (Reject (p_promise kv.2) (ErrRPC (close_error reason))))
  (disconnect reason st).2.
Proof.
intros Hkv Hg. unfold disconnect, mbind, M_bind, gets.
set (X := Reject (p_promise kv.2) (ErrRPC (close_error reason))).
pose proof (forEach_phases (about_log (grown l0)) (about_log (logged l0 X))
              (_nonceMap st) (reject_entry reason) kv Hkv
              (total_reject_entry reason)
              (λ y _, keeps_log_reject_entry _ (grown_snoc l0) reason y)
              (reject_entry_logged kv)
              (λ y, keeps_log_reject_entry _ (logged_snoc l0 X) reason y) st Hg)
  as H.
destruct (total_forEach (_nonceMap st) (reject_entry reason)
            (total_reject_entry reason) st) as [[] Hok].
destruct (forEach (_nonceMap st) (reject_entry reason) st) as [r st1].
simpl in *. subst r. by apply keeps_log_emit; [apply logged_snoc|].
Qed.

Lemma disconnect_logs_disconnected st :
about_log (grown l0) st →
about_log (logged l0 (Emit (Some "disconnected") [])) (disconnect reason st).2.
Proof.
intros Hg. unfold disconnect, mbind, M_bind, gets.
pose proof (keeps_forEach (about_log (grown l0)) (_nonceMap st) (reject_entry reason)
              (keeps_log_reject_entry _ (grown_snoc l0) reason) st Hg) as H.
destruct (total_forEach (_nonceMap st) (reject_entry reason)
            (total_reject_entry reason) st) as [[] Hok].
destruct (forEach (_nonceMap st) (reject_entry reason) st) as [r st1].
simpl in *. subst r. rewrite emit_other by done. cbn. by apply grown_logged.
Qed.
End close_log.

Lemma total_transport_emit_close reason : total (transport_emit_close reason).
Proof.
  unfold transport_emit_close. apply total_bind; [by eexists|intros ls].
  apply total_bind; [apply total_modify|intros _].
  apply total_forEach, total_run_close.
Qed.

Lemma step_Close reason st : step (Close reason) st = (transport_emit_close reason st).2.
Proof.
  unfold step, handle. destruct (total_transport_emit_close reason st) as [[] Hok].
  destruct (transport_emit_close reason st) as [r st']. simpl in *. by subst r.
Qed.

(** X1. When the transport emits [close] while the
    listener installed on connection is registered, [reject] is called for
    every request in the table, with an error whose code is the code of
    the reason when the reason is an object and [RPC_CONNECTION_ENDED]
    otherwise, and whose message is the message of an object reason, the
    reason itself when it is a string, and "Connection ended" when there is
    none; every such request that was pending is rejected with that error;
    and [disconnected] is emitted. *)
Theorem close_rejects_every_pending_request (st : client) (reason : close_reason) :
  reachable st →
  RejectPending ∈ onClose st →
  close_error reason
    = match reason with
      | ReasonObject c msg => {| code := CodeOf c; message := msg |}
      | ReasonString s => {| code := RPC_CONNECTION_ENDED; message := JStr s |}
      | ReasonUndefined =>
          {| code := RPC_CONNECTION_ENDED; message := JStr "Connection ended" |}
      end
  ∧ (∀ n o, (n, o) ∈ _nonceMap st →
       Reject (p_promise o) (ErrRPC (close_error reason)) ∈ produced (Close reason) st
       ∧ (promises st !! p_promise o = Some Pending →
          promises (step (Close reason) st) !! p_promise o
          = Some (Rejected (ErrRPC (close_error reason)))))
  ∧ Emit (Some "disconnected") [] ∈ produced (Close reason) st.
Proof.
  intros Hreach Hin. apply reachable_wf in Hreach as Hwf. split_and!.
  - by destruct reason.
  - intros n o Hkv. split.
    + apply logged_produced. rewrite step_Close.
      unfold transport_emit_close, mbind, M_bind, gets, modify. cbn.
      set (X := Reject (p_promise o) (ErrRPC (close_error reason))).
      apply (forEach_phases
               (λ s, about_log (grown (log st)) s ∧ tabled (p_promise o) s)
               (about_log (logged (log st) X))
               (onClose st) (run_close reason) RejectPending Hin
               (total_run_close reason)).
      * intros y _ s [Hg Ht]. split; [|by apply keeps_tabled_run_close].
        by apply keeps_log_run_close; [apply grown_snoc|].
      * intros s [Hg ([k' o'] & Hkv' & Hp)]. simpl in Hp.
        pose proof (disconnect_logs_reject reason (log st) (k', o') s Hkv' Hg) as H.
        simpl in H. by rewrite Hp in H.
      * intros y. apply keeps_log_run_close, logged_snoc.
      * split; [by exists []; rewrite app_nil_r|]. by exists (n, o).
    + intros Hp. rewrite step_Close.
      apply transport_emit_close_rejects; try done.
      * by destruct (wf_nonceMap st Hwf (n, o) Hkv) as [_ ?].
      * by exists (n, o).
  - apply logged_produced. rewrite step_Close.
    unfold transport_emit_close, mbind, M_bind, gets, modify. cbn.
    apply (forEach_phases
             (about_log (grown (log st)))
             (about_log (logged (log st) (Emit (Some "disconnected") [])))
             (onClose st) (run_close reason) RejectPending Hin
             (total_run_close reason)).
    + intros y _. apply keeps_log_run_close, grown_snoc.
    + intros s Hg. by apply disconnect_logs_disconnected.
    + intros y. apply keeps_log_run_close, logged_snoc.
    + by exists []; rewrite app_nil_r.
Qed.

(** The handshake the endpoint sends after the transport opens. *)
Definition handshake_message : envelope :=
  {| cmd := "DISPATCH"; evt := Some "READY"; nonce := None;
     data := JObj [("v", JNum 1);
                   ("config", JObj [("cdn_host", JStr "cdn.discordapp.com")]);
                   ("user", JObj [("id", JStr "1045800378228281345")])] |}.

(** A connected client with one request pending. *)
Definition connected_with_pending : client :=
  run [CallConnect; Message handshake_message;
       CallRequest "SET_ACTIVITY" (JObj [("pid", JNum 42)]) None "nonce-1"]
    (new_Client "123" None).

Lemma close_rejects_every_pending_request_witness :
  promises (step (Close (ReasonString "bye")) connected_with_pending) !! 1
  = Some (Rejected (ErrRPC {| code := RPC_CONNECTION_ENDED; message := JStr "bye" |}))
  ∧ Emit (Some "disconnected") [] ∈ produced (Close (ReasonString "bye")) connected_with_pending.
Proof.
  assert (reachable connected_with_pending) as Hreach.
  { eexists _, _, _. reflexivity. }
  assert (RejectPending ∈ onClose connected_with_pending) as Hin.
  { vm_compute. apply list_elem_of_here. }
  destruct (close_rejects_every_pending_request connected_with_pending
              (ReasonString "bye") Hreach Hin) as (_ & Hall & Hdis).
  split; [|exact Hdis].
  apply (Hall "nonce-1" {| p_promise := 1; p_error := new_RPCError RPC_UNKNOWN_ERROR |}).
  - vm_compute. apply list_elem_of_here.
  - reflexivity.
Defined.

(** In that example a reason that is a string becomes the message of the
    error, and the entries stay in the table. *)
Lemma close_keeps_table_and_passes_string_reason :
  _nonceMap (step (Close (ReasonString "bye")) connected_with_pending) ≠ []
  ∧ promises (step (Close (ReasonString "bye")) connected_with_pending) !! 1
    ≠ Some (Rejected (ErrRPC {| code := RPC_CONNECTION_ENDED;
                                message := JStr "Connection ended" |})).
Proof. split; vm_compute; discriminate. Qed.

(** ** Socket transport: after [connect] *)

Module WebsocketTransportUse.
Import WebsocketTransport WebsocketTransportFacts.

(** Candidates [i .. i+k-1] fail and candidate [i + k] neither opens nor
    errors: the executor stays at its [await]. *)
Lemma probe_loop_stalls net r i k pr tr :
  k < r →
  (∀ j, j < k → net (url (clientId tr) (i + j)) = Errors) →
  net (url (clientId tr) (i + k)) = Stalls →
  ∃ tr', probe_loop net r i pr tr = (false, pr, tr')
         ∧ ws tr' = ws tr ∧ listening tr' = listening tr ∧ closing tr' = closing tr
         ∧ log tr' = log tr ++ (NewWebSocket <$> (url (clientId tr) <$> seq i (S k))).
Proof.
  revert r i tr. induction k as [|k IH]; intros r i tr Hk Hfail Hstall;
    (destruct r as [|r]; [lia|]).
  - rewrite Nat.add_0_r in Hstall. cbn [probe_loop]. rewrite Hstall.
    eexists. split_and!; done.
  - pose proof (Hfail 0 ltac:(lia)) as H0. rewrite Nat.add_0_r in H0.
    cbn [probe_loop]. rewrite H0.
    destruct (IH r (S i) (perform (NewWebSocket (url (clientId tr) i)) tr))
      as (tr' & -> & ? & ? & ? & Hlog); [lia| | |].
    { intros j Hj. cbn [perform clientId]. replace (S i + j) with (i + S j) by lia.
      apply Hfail. lia. }
    { cbn [perform clientId]. by replace (S i + k) with (i + S k) by lia. }
    exists tr'. split_and!; try done.
    rewrite Hlog. cbn [perform log clientId]. rewrite <- !app_assoc. done.
Qed.






Lemma close_times tr n u :
  ws tr = Some u →
  Nat.iter n close tr
  = {| clientId := clientId tr; ws := ws tr; listening := listening tr;
       closing := n + closing tr; log := log tr ++ replicate n SocketClose |}.
Proof.
  intros Hws. induction n as [|n IH]; simpl.
  - rewrite app_nil_r. by destruct tr.
  - rewrite IH. unfold close. cbn [ws set_closing closing]. rewrite Hws.
    cbn [perform clientId ws listening closing log]. f_equal.
    change (SocketClose :: replicate n SocketClose) with (replicate (S n) SocketClose).
    by rewrite replicate_S_end, app_assoc.
Qed.

(** X4. On a connected transport every call of [close()] closes the
    socket, and the one [close] event of the socket is emitted once and
    completes all the calls that are waiting. *)
Theorem close_event_completes_every_close_call (tr : transport) (u : string) (n : nat) :
  ws tr = Some u → listening tr = true →
  let tr' := on_socket Closed (Nat.iter n close tr) in
  closing tr' = 0 ∧ log tr' = log tr ++ replicate n SocketClose ++ [EmitClose].
Proof.
  intros Hws Hl. cbv zeta. rewrite (close_times tr n u Hws).
  unfold on_socket. cbn [listening]. rewrite Hl.
  cbn [set_closing perform closing log]. by rewrite <- app_assoc.
Qed.

Lemma close_event_completes_every_close_call_witness :
  let tr := (connect third_port_open (new "123")).2 in
  let tr' := on_socket Closed (Nat.iter 2 close tr) in
  closing tr' = 0 ∧ log tr' = log tr ++ replicate 2 SocketClose ++ [EmitClose].
Proof.
  apply (close_event_completes_every_close_call _ (url "123" 2)); reflexivity.
Defined.

(** X5. [connect()] has no bound on a probe: when a candidate neither
    opens nor errors, the promise stays pending, the later candidates are
    not tried and the handlers of lines 38-52 are not installed. *)
Theorem connect_waits_on_silent_candidate (net : network) (tr : transport) (k : nat) :
  k < 10 →
  (∀ j, j < k → net (url (clientId tr) j) = Errors) →
  net (url (clientId tr) k) = Stalls →
  ∃ tr', connect net tr = (Pending, tr')
         ∧ log tr' = log tr ++ (NewWebSocket <$> candidates (clientId tr) (S k))
         ∧ ws tr' = ws tr ∧ listening tr' = listening tr.
Proof.
  intros Hk Hfail Hstall.
  destruct (probe_loop_stalls net 10 0 k Pending tr Hk Hfail Hstall)
    as (tr' & Hloop & Hws & Hl & Hc & Hlog).
  unfold connect. rewrite Hloop. by exists tr'.
Qed.

(** Port 6463 refuses, port 6464 accepts the connection and stays silent. *)
Definition second_port_silent : network :=
  λ u, if bool_decide (u = url "123" 1) then Stalls else Errors.

Lemma connect_waits_on_silent_candidate_witness :
  ∃ tr', connect second_port_silent (new "123") = (Pending, tr')
         ∧ log tr' = log (new "123") ++ (NewWebSocket <$> candidates "123" 2)
         ∧ ws tr' = ws (new "123") ∧ listening tr' = listening (new "123").
Proof.
  apply (connect_waits_on_silent_candidate second_port_silent (new "123") 1).
  - repeat constructor.
  - intros j Hj. destruct j as [|j]; [reflexivity|].
    exfalso. inversion Hj as [|? H1]. inversion H1.
  - reflexivity.
Defined.

(** X6. [connect()] called again on a transport that still holds the
    socket of an earlier connection, while every candidate errors, tries
    the ten candidates and then neither resolves nor rejects: the test of
    line 36 sees the old socket. *)
Theorem reconnect_without_endpoint_stays_pending (net : network) (tr : transport)
  (u : string) :
  ws tr = Some u →
  (∀ j, j < 10 → net (url (clientId tr) j) = Errors) →
  ∃ tr', connect net tr = (Pending, tr')
         ∧ ws tr' = Some u
         ∧ log tr' = log tr ++ (NewWebSocket <$> candidates (clientId tr) 10).
Proof.
  intros Hws Hfail.
  destruct (probe_loop_all_fail net 10 0 Pending tr Hfail)
    as (tr' & Hloop & Hid & Hws' & Hl & Hc & Hlog).
  unfold connect. rewrite Hloop, Hws', Hws. cbv beta iota zeta.
  cbn [ws set_listening]. rewrite Hws', Hws.
  eexists. split_and!; [done|by cbn; rewrite Hws', Hws|done].
Qed.

Lemma reconnect_without_endpoint_stays_pending_witness :
  ∃ tr', connect (λ _, Errors) (connect third_port_open (new "123")).2 = (Pending, tr')
         ∧ ws tr' = Some (url "123" 2)
         ∧ log tr' = log (connect third_port_open (new "123")).2
                       ++ (NewWebSocket <$> candidates "123" 10).
Proof.
  apply (reconnect_without_endpoint_stays_pending (λ _, Errors)
           (connect third_port_open (new "123")).2 (url "123" 2)).
  - reflexivity.
  - intros j _. reflexivity.
Defined.

End WebsocketTransportUse.

(** The client after a complete token response. *)
Definition with_tokens (a r tt e : json) (st : client) : client :=
  set_refreshTimeout (Some (nextTimer st))
    (set_log (log st ++ [SetTimeout (nextTimer st) e])
       (set_nextTimer (S (nextTimer st))
          (set_timers (timers st ++ [{| t_id := nextTimer st; t_delay := e;
                                        t_action := RefreshAccessToken |}])
             (set_tokenType tt (set_refreshToken r (set_accessToken a st)))))).




Lemma Map_get_set {V : Type} (k : string) (v : V) (m : list (string * V)) :
  Map_get k (Map_set k v m) = Some v.
Proof.
  induction m as [|[k' v'] m IH]; simpl.
  - by rewrite bool_decide_eq_true_2.
  - case_bool_decide; simpl.
    + by rewrite bool_decide_eq_true_2.
    + by rewrite bool_decide_eq_false_2.
Qed.

Lemma lookup_snoc {A : Type} (l : list A) (x : A) : (l ++ [x]) !! length l = Some x.
Proof. by rewrite list_lookup_middle. Qed.

Lemma insert_snoc {A : Type} (l : list A) (x y : A) : <[length l := y]> (l ++ [x]) = l ++ [y].
Proof. rewrite insert_app_r_alt by lia. by rewrite Nat.sub_diag. Qed.

(** ** Running the asynchronous methods *)

(** What the client does to the outside: events emitted, commands and
    HTTP requests sent, the transport asked to connect or close, timers
    armed, exceptions left uncaught. *)
Definition outward (e : effect) : bool :=
  match e with
  | Resolve _ _ | Reject _ _ | ClearTimeout _ | Fired _ => false
  | _ => true
  end.

Definition quiet (e : effect) : Prop := outward e = false.

Definition outgoing (l : list effect) : list effect := List.filter outward l.

Lemma outgoing_app l1 l2 : outgoing (l1 ++ l2) = outgoing l1 ++ outgoing l2.
Proof. apply List.filter_app. Qed.

Lemma outgoing_quiet l : Forall quiet l → outgoing l = [].
Proof.
  induction 1 as [|e l He _ IH]; [done|]. unfold outgoing in *. simpl.
  unfold quiet in He. by rewrite He.
Qed.

(** The values of a complete token response. *)
Definition token_values (data : json) : option (json * json * json * json) :=
  if complete data then
    match get data "access_token", get data "refresh_token",
          get data "token_type", get data "expires_in" with
    | Some a, Some r, Some ty, Some e => Some (a, r, ty, e)
    | _, _, _, _ => None
    end
  else None.

Lemma hanleAccessTokenResponse_complete data a r tt e st :
  token_values data = Some (a, r, tt, e) →
  hanleAccessTokenResponse data st = (Ok (), with_tokens a r tt e st).
Proof.
  unfold token_values, complete, token_fields. cbn.
  unfold hanleAccessTokenResponse, missing, or_else, read, schedule_refresh.
  destruct data as [| |b|n|s|items|fs]; cbn; try done.
  destruct (own_property "access_token" fs) as [a'|] eqn:Ha; cbn; [|done].
  destruct (own_property "refresh_token" fs) as [r'|] eqn:Hr; cbn; [|done].
  destruct (own_property "expires_in" fs) as [e'|] eqn:He; cbn; [|done].
  destruct (own_property "token_type" fs) as [tt'|] eqn:Ht; cbn; [|done].
  intros [= -> -> -> ->]. reflexivity.
Qed.

Lemma hanleAccessTokenResponse_incomplete data st :
  token_values data = None →
  ∃ e, hanleAccessTokenResponse data st = (Throw (TypeError e), st).
Proof.
  unfold token_values, complete, token_fields. cbn.
  unfold hanleAccessTokenResponse, missing, or_else, read, schedule_refresh.
  destruct data as [| |b|n|s|items|fs]; cbn; try (by eexists).
  destruct (own_property "access_token" fs) as [a'|] eqn:Ha; cbn; [|by eexists].
  destruct (own_property "refresh_token" fs) as [r'|] eqn:Hr; cbn; [|by eexists].
  destruct (own_property "expires_in" fs) as [e'|] eqn:He; cbn; [|by eexists].
  destruct (own_property "token_type" fs) as [tt'|] eqn:Ht; cbn; [|by eexists].
  done.
Qed.

(** *** One step of the scheduler *)

Lemma drain_done n s : take_ready s (tasks s) = None → drain n s = s.
Proof. intros H. destruct n; simpl; [done|]. by rewrite H. Qed.

Lemma drain_step n s k a r s' :
  take_ready s (tasks s) = Some (k, a, r) →
  resume k a (set_tasks r s) = (Ok (), s') →
  drain (S n) s = drain n s'.
Proof. intros H1 H2. simpl. by rewrite H1, H2. Qed.

Lemma take_ready_head s h k ts a :
  settled_as s h = Some a → take_ready s ((h, k) :: ts) = Some (k, a, ts).
Proof. intros H. simpl. by rewrite H. Qed.

Lemma take_ready_skip s h k ts :
  settled_as s h = None →
  take_ready s ((h, k) :: ts)
  = match take_ready s ts with
    | Some (k', a, r) => Some (k', a, (h, k) :: r)
    | None => None
    end.
Proof. intros H. simpl. by rewrite H. Qed.

(** *** The calls, up to their first [await] *)

Definition authorize_args (o : AuthorizeOptions) (id : string) (rpcToken : json) : json :=
  JObj [("scopes", scopes o);
        ("client_id", JStr id);
        ("rpc_token", if useRPCToken o then rpcToken else JUndefined);
        ("redirect_uri", string_or_undefined (redirect_uri o));
        ("prompt", JStr (default "consent" (prompt o)))].

Definition token_form (o : AuthorizeOptions) (c : client) (code : json)
  : list (string * string) :=
  [("client_id", clientId c);
   ("client_secret", default "" (clientSecret c));
   ("redirect_uri", default "" (redirect_uri o));
   ("grant_type", "authorization_code");
   ("code", js_to_string code)].

Definition rpc_token_form (c : client) : list (string * string) :=
  [("client_id", clientId c); ("client_secret", default "" (clientSecret c))].

Section equations.
Context (c : client) (app : json) (ts : list (awaited * continuation))
  (cs : list call) (nf : nat) (rng : nat → string) (dr : nat).

Let s : session :=
  {| cl := c; application := app; tasks := ts; calls := cs; nextFetch := nf;
     uuid := rng; drawn := dr |}.

Lemma login_eq o p c1 :
  connect c = (Ok p, c1) →
  login o s
  = (Ok (length cs),
     {| cl := c1; application := app;
        tasks := ts ++ [(OnPromise p, LoginConnected (length cs) o)];
        calls := cs ++ [Running]; nextFetch := nf; uuid := rng; drawn := dr |}).
Proof.
  intros H. unfold login, async, attempt, lift, await, update, mbind, SM_bind, mret, SM_ret.
  cbn. rewrite H. reflexivity.
Qed.


Lemma authenticate_eq :
  authenticate s
  = (Ok (length cs),
     {| cl := (request "AUTHENTICATE"
                 (JObj [("access_token", coalesce (accessToken c) (JStr ""))])
                 None (rng dr) c).2;
        application := app;
        tasks := ts ++ [(OnPromise (length (promises c)), AuthenticateReply (length cs))];
        calls := cs ++ [Running]; nextFetch := nf; uuid := rng; drawn := S dr |}).
Proof. reflexivity. Qed.

Lemma authorize_eq o :
  useRPCToken o = false →
  authorize o s
  = (Ok (length cs),
     {| cl := (request "AUTHORIZE" (authorize_args o (clientId c) JUndefined)
                 None (rng dr) c).2;
        application := app;
        tasks := ts ++ [(OnPromise (length (promises c)), AuthorizeCode (length cs) o)];
        calls := cs ++ [Running]; nextFetch := nf; uuid := rng; drawn := S dr |}).
Proof.
  intros H. unfold authorize, authorize_request, authorize_args. rewrite !H. reflexivity.
Qed.

Lemma authorize_rpc_eq o :
  useRPCToken o = true →
  authorize o s
  = (Ok (length cs),
     {| cl := (fetch "/oauth2/token/rpc" (rpc_token_form c) c).2;
        application := app;
        tasks := ts ++ [(OnFetch nf, AuthorizeRpcToken (length cs) o)];
        calls := cs ++ [Running]; nextFetch := S nf; uuid := rng; drawn := dr |}).
Proof.
  intros H. unfold authorize. rewrite H. reflexivity.
Qed.

(** *** The calls, resumed *)

Definition emitted (name : string) (c : client) : client :=
  set_log (log c ++ [Emit (Some name) []]) c.

Definition settled_call (q : nat) (x : call) : list call := <[q := x]> cs.

Definition wants_scopes (options : option AuthorizeOptions) : bool :=
  match options with
  | Some o => truthy (scopes o)
  | None => false
  end.

Lemma resume_failure k e :
  cs !! self_of k = Some Running →
  resume k (Failure e) s
  = (Ok (), {| cl := c; application := app; tasks := ts;
               calls := settled_call (self_of k) (Threw e);
               nextFetch := nf; uuid := rng; drawn := dr |}).
Proof. intros H. unfold resume, finish, update. cbn. by rewrite H. Qed.

Lemma resume_LoginConnected_plain self options v :
  wants_scopes options = false →
  cs !! self = Some Running →
  resume (LoginConnected self options) (Value v) s
  = (Ok (), {| cl := emitted "ready" c; application := app; tasks := ts;
               calls := settled_call self (Returned RUndefined);
               nextFetch := nf; uuid := rng; drawn := dr |}).
Proof.
  intros Hw H. unfold resume, attempt, rest, lift, finish, update, mbind, SM_bind.
  destruct options as [o|]; cbn in Hw; rewrite ?Hw;
    rewrite emit_other by done; cbn; by rewrite H.
Qed.

Lemma resume_LoginConnected_scopes self o v :
  truthy (scopes o) = true → useRPCToken o = false →
  resume (LoginConnected self (Some o)) (Value v) s
  = (Ok (), {| cl := (request "AUTHORIZE" (authorize_args o (clientId c) JUndefined)
                        None (rng dr) c).2;
               application := app;
               tasks := ts ++ [(OnPromise (length (promises c)), AuthorizeCode (length cs) o);
                               (OnCall (length cs), LoginAuthorized self)];
               calls := cs ++ [Running]; nextFetch := nf; uuid := rng; drawn := S dr |}).
Proof.
  intros Hsc Hrpc. unfold resume, attempt, rest. rewrite Hsc.
  unfold mbind, SM_bind. fold s. rewrite (authorize_eq o Hrpc).
  unfold await, update. cbn. by rewrite <- app_assoc.
Qed.

Lemma resume_LoginConnected_scopes_rpc self o v :
  truthy (scopes o) = true → useRPCToken o = true →
  resume (LoginConnected self (Some o)) (Value v) s
  = (Ok (), {| cl := (fetch "/oauth2/token/rpc" (rpc_token_form c) c).2;
               application := app;
               tasks := ts ++ [(OnFetch nf, AuthorizeRpcToken (length cs) o);
                               (OnCall (length cs), LoginAuthorized self)];
               calls := cs ++ [Running]; nextFetch := S nf; uuid := rng; drawn := dr |}).
Proof.
  intros Hsc Hrpc. unfold resume, attempt, rest. rewrite Hsc.
  unfold mbind, SM_bind. fold s. rewrite (authorize_rpc_eq o Hrpc).
  unfold await, update. cbn. by rewrite <- app_assoc.
Qed.

Lemma resume_LoginAuthorized self r :
  resume (LoginAuthorized self) (Return r) s
  = (Ok (), {| cl := (request "AUTHENTICATE"
                        (JObj [("access_token", coalesce (accessToken c) (JStr ""))])
                        None (rng dr) c).2;
               application := app;
               tasks := ts ++ [(OnPromise (length (promises c)), AuthenticateReply (length cs));
                               (OnCall (length cs), LoginAuthenticated self)];
               calls := cs ++ [Running]; nextFetch := nf; uuid := rng; drawn := S dr |}).
Proof.
  unfold resume, attempt, rest, mbind, SM_bind. fold s. rewrite authenticate_eq.
  unfold await, update. cbn. by rewrite <- app_assoc.
Qed.

Lemma resume_LoginAuthenticated self r :
  cs !! self = Some Running →
  resume (LoginAuthenticated self) (Return r) s
  = (Ok (), {| cl := c; application := app; tasks := ts;
               calls := settled_call self (Returned RUndefined);
               nextFetch := nf; uuid := rng; drawn := dr |}).
Proof. intros H. unfold resume, attempt, rest, finish, update. cbn. by rewrite H. Qed.

Lemma resume_AuthorizeRpcToken self o d t :
  get d "rpc_token" = Some t →
  resume (AuthorizeRpcToken self o) (Response d) s
  = (Ok (), {| cl := (request "AUTHORIZE" (authorize_args o (clientId c) t)
                        None (rng dr) c).2;
               application := app;
               tasks := ts ++ [(OnPromise (length (promises c)), AuthorizeCode self o)];
               calls := cs; nextFetch := nf; uuid := rng; drawn := S dr |}).
Proof.
  intros H. unfold resume, attempt, rest, payload, field, lift, read, mbind, SM_bind,
    mret, SM_ret. cbn. rewrite H. reflexivity.
Qed.

Lemma resume_AuthorizeCode self o m code :
  get (data m) "code" = Some code →
  resume (AuthorizeCode self o) (Value (VEnvelope m)) s
  = (Ok (), {| cl := (fetch "/oauth2/token" (token_form o c code) c).2;
               application := app;
               tasks := ts ++ [(OnFetch nf, AuthorizeToken self)];
               calls := cs; nextFetch := S nf; uuid := rng; drawn := dr |}).
Proof.
  intros H. unfold resume, attempt, rest, payload, field, lift, read, mbind, SM_bind,
    mret, SM_ret. cbn. rewrite H. reflexivity.
Qed.


Lemma resume_AuthorizeToken self d a r ty e :
  token_values d = Some (a, r, ty, e) →
  cs !! self = Some Running →
  resume (AuthorizeToken self) (Response d) s
  = (Ok (), {| cl := with_tokens a r ty e c; application := app; tasks := ts;
               calls := settled_call self (Returned RUndefined);
               nextFetch := nf; uuid := rng; drawn := dr |}).
Proof.
  intros H Hc. unfold resume, attempt, rest, payload, lift, mbind, SM_bind,
    mret, SM_ret, finish, update. cbn.
  rewrite (hanleAccessTokenResponse_complete d a r ty e c H). cbn. by rewrite Hc.
Qed.

Lemma resume_AuthorizeToken_incomplete self d :
  token_values d = None →
  cs !! self = Some Running →
  ∃ e, resume (AuthorizeToken self) (Response d) s
       = (Ok (), {| cl := c; application := app; tasks := ts;
                    calls := settled_call self (Threw (TypeError e));
                    nextFetch := nf; uuid := rng; drawn := dr |}).
Proof.
  intros H Hc. destruct (hanleAccessTokenResponse_incomplete d c H) as [e He].
  exists e. unfold resume, attempt, rest, payload, lift, mbind, SM_bind,
    mret, SM_ret, finish, update. cbn. rewrite He. cbn. by rewrite Hc.
Qed.

Lemma resume_AuthenticateReply self m ap u :
  get (data m) "application" = Some ap → get (data m) "user" = Some u →
  cs !! self = Some Running →
  resume (AuthenticateReply self) (Value (VEnvelope m)) s
  = (Ok (), {| cl := emitted "ready" (set_user u c); application := ap; tasks := ts;
               calls := settled_call self (Returned RUndefined);
               nextFetch := nf; uuid := rng; drawn := dr |}).
Proof.
  intros Ha Hu Hc. unfold resume, attempt, rest, payload, field, lift, read, mbind,
    SM_bind, mret, SM_ret, finish, update, modify. cbn. rewrite Ha, Hu. cbn.
  rewrite emit_other by done. cbn. by rewrite Hc.
Qed.

Lemma resume_AuthenticateReply_unreadable self m :
  get (data m) "application" = None →
  cs !! self = Some Running →
  resume (AuthenticateReply self) (Value (VEnvelope m)) s
  = (Ok (), {| cl := c; application := app; tasks := ts;
               calls := settled_call self (Threw (TypeError (ReadOfNullish "application")));
               nextFetch := nf; uuid := rng; drawn := dr |}).
Proof.
  intros Ha Hc. unfold resume, attempt, rest, payload, field, lift, read, mbind,
    SM_bind, mret, SM_ret, finish, update, modify. cbn. rewrite Ha. cbn. by rewrite Hc.
Qed.


End equations.

(** *** What the client keeps while it handles a message *)

(** The fields the authorization requests are made from, and the
    numbering and the handle of the refresh timer. *)
Definition credentials (c : client)
  : string * option string * json * json * json * nat * option nat :=
  (clientId c, clientSecret c, accessToken c, tokenType c, refreshToken c,
   nextTimer c, refreshTimeout c).

Ltac frame_leaf :=
  lazymatch goal with
  | |- keeps _ (modify _) =>
      let st := fresh "st" in let H := fresh "H" in
      apply keeps_modify; intros st H; cbn;
      try (match goal with |- context [promises st !! ?p] =>
             destruct (promises st !! p) as [[]|] end);
      exact H
  | |- keeps _ (run_connected ?x) =>
      destruct x; unfold run_connected, clearTimeout, resolve, perform
  | |- keeps _ (emit _ _) => unfold emit, notify, perform
  | |- keeps _ (resolve _ _) => unfold resolve, perform
  | |- keeps _ (reject _ _) => unfold reject, perform
  | |- keeps _ (settle _ _) => unfold settle
  end.

Ltac frame := repeat first [keeps_step | frame_leaf].

Lemma keeps_credentials_on_message x m :
  keeps (λ st, credentials st = x) (on_message m).
Proof. unfold on_message, handshake, settle_reply. frame. Qed.

Lemma credentials_step_Message m c : credentials (step (Message m) c) = credentials c.
Proof.
  pose proof (keeps_credentials_on_message (credentials c) m c eq_refl) as H.
  unfold step, handle. by destruct (on_message m c) as [[] c'].
Qed.


(** *** A connection attempt and the handshake *)

(** The client after [connect()] started an attempt. *)
Definition attempting (c : client) : client :=
  (let p := length (promises c) in
   let t := nextTimer c in
   set_connectionPromise (Some p)
     (set_connecting (connecting c ++ [p])
        (set_log (log c ++ [SetTimeout t (JNum 10000); TransportConnect])
           (set_onConnected (onConnected c ++ [OnConnected p t])
              (set_nextTimer (S t)
                 (set_timers
                    (timers c ++ [{| t_id := t; t_delay := JNum 10000;
                                     t_action := ConnectTimeout p
                                                   (new_RPCError RPC_UNKNOWN_ERROR) |}])
                    (set_promises (promises c ++ [Pending]) c))))))).

Lemma connect_fresh c :
  connectionPromise c = None → connect c = (Ok (length (promises c)), attempting c).
Proof.
  intros H. unfold connect, attempting. run_M. rewrite H. destruct c. cbn in *.
  by rewrite <- app_assoc.
Qed.

Lemma emit_quiet name args st :
  ∃ rest, log (emit name args st).2 = log st ++ Emit name args :: rest
          ∧ Forall quiet rest.
Proof.
  unfold emit, mbind, M_bind, perform, modify.
  set (st1 := set_log (log st ++ [Emit name args]) st).
  pose proof (keeps_extends_notify (log st1) quiet name
                ltac:(done) ltac:(done) st1 (extends_refl _ st1))
    as (rest & Hlog & Hrest).
  exists rest. split; [|done]. rewrite Hlog. subst st1. cbn. by rewrite <- app_assoc.
Qed.

Lemma get_not_nullish v k : nullish v = false → ∃ x, get v k = Some x.
Proof. destruct v; simpl; try done; by eexists. Qed.

Lemma truthy_not_nullish v : truthy v = true → nullish v = false.
Proof. by destruct v. Qed.

Lemma emit_eq name args c : emit name args c = (Ok (), (emit name args c).2).
Proof.
  destruct (emit_spec name args c) as (c' & rest & -> & _). reflexivity.
Qed.

(** The handshake with a payload stores what it finds and emits
    [connected]. *)
Lemma step_handshake m st :
  is_ready m = true → nullish (data m) = false →
  ∃ u h, step (Message m) st
         = (emit (Some "connected") [] (set_cdnHost h (set_user u st))).2.
Proof.
  intros Hr Hd. unfold step, handle, on_message. rewrite Hr.
  unfold handshake, read.
  destruct (get_not_nullish (data m) "user" Hd) as [u ->].
  destruct (get_not_nullish (data m) "config" Hd) as [cfg ->].
  destruct st as [cid csec at0 rt0 ty0 usr cdn rto cp nm ps tms nt oc ocl cng lg].
  unfold mbind, M_bind, mret, M_ret, modify.
  exists (if truthy u then u else usr).
  exists (if truthy cfg
          then match get cfg "cdn_host" with
               | Some x => if truthy x then "https://" +:+ js_to_string x else cdn
               | None => cdn
               end
          else cdn).
  destruct (truthy u); (destruct (truthy cfg) eqn:Ht;
    [destruct (get_not_nullish cfg "cdn_host" (truthy_not_nullish _ Ht)) as [x ->];
     destruct (truthy x)|]);
    rewrite emit_eq; reflexivity.
Qed.

Lemma keeps_pending_run_connected p l :
  listener_promise l ≠ p → keeps (settled p Pending) (run_connected l).
Proof.
  intros Hne. destruct l as [q t]. simpl in Hne.
  unfold run_connected, clearTimeout, resolve, perform, settle. 
  repeat keeps_step; apply keeps_modify; intros st H; unfold settled in *; cbn; try done.
  destruct (promises st !! q) as [[]|]; cbn; try done.
  by rewrite list_lookup_insert_ne.
Qed.

Lemma handshake_after_connect c m :
  wf c → is_ready m = true → nullish (data m) = false →
  let c2 := step (Message m) (attempting c) in
  promises c2 !! length (promises c) = Some (Resolved VUndefined)
  ∧ (∃ rest, log c2 = log c ++ [SetTimeout (nextTimer c) (JNum 10000); TransportConnect;
                                Emit (Some "connected") []] ++ rest
             ∧ Forall quiet rest)
  ∧ credentials c2 = credentials (attempting c).
Proof.
  intros Hwf Hr Hd. cbv zeta. split_and!.
  - destruct (step_handshake m (attempting c) Hr Hd) as (u & h & ->).
    set (p := length (promises c)).
    unfold emit, perform, notify, mbind, M_bind, modify, gets.
    rewrite bool_decide_eq_true_2 by done. cbn.
    rewrite forEach_app. unfold mbind, M_bind.
    match goal with |- context [forEach (onConnected c) run_connected ?st] =>
      set (st0 := st) end.
    assert (settled p Pending st0) as H0.
    { unfold settled, st0, p. cbn. apply lookup_snoc. }
    pose proof (keeps_forEach_in (settled p Pending) (onConnected c) run_connected
                  ltac:(intros l Hl; apply keeps_pending_run_connected;
                        pose proof (wf_onConnected c Hwf l Hl); unfold p; lia)
                  st0 H0) as H1.
    destruct (total_forEach (onConnected c) run_connected total_run_connected st0)
      as [[] Hok].
    destruct (forEach (onConnected c) run_connected st0) as [r st1].
    simpl in Hok, H1. subst r. cbn.
    unfold settled in H1. subst p. run_M.
    rewrite H1. cbn. apply list_lookup_insert_eq. by eapply lookup_lt_Some.
  - destruct (step_handshake m (attempting c) Hr Hd) as (u & h & ->).
    destruct (emit_quiet (Some "connected") [] (set_cdnHost h (set_user u (attempting c))))
      as (rest & Hlog & Hq).
    exists rest. split; [|done]. rewrite Hlog. cbn. by rewrite <- app_assoc.
  - by rewrite credentials_step_Message.
Qed.

(** *** A request and the reply to it *)

Lemma reply_outcome_settles m r : reply_outcome m = Some r → r ≠ Pending.
Proof.
  unfold reply_outcome. case_bool_decide; [|by intros [= <-]].
  destruct (get (data m) "code"); [|done]. destruct (get (data m) "message"); [|done].
  by intros [= <-].
Qed.

Lemma quiet_settle_effect p r : Forall quiet (settle_effect p r).
Proof. destruct r; repeat constructor. Qed.

Lemma reply_after_request c cmd args ev u m r :
  u ≠ "" → nonce m = Some u → is_ready m = false → reply_outcome m = Some r →
  let c2 := step (Message m) (request cmd args ev u c).2 in
  promises c2 !! length (promises c) = Some r
  ∧ (∃ rest, log c2 = log c
                       ++ [TransportSend {| c_cmd := cmd; c_args := args; c_evt := ev;
                                            c_nonce := u |}]
                       ++ settle_effect (length (promises c)) r
                       ++ Emit (evt m) [data m] :: rest
             ∧ Forall quiet rest)
  ∧ credentials c2 = credentials c
  ∧ Map_get u (_nonceMap c2) = None.
Proof.
  intros Hu Hn Hr Ho. cbv zeta.
  set (c1 := (request cmd args ev u c).2).
  set (o := {| p_promise := length (promises c); p_error := new_RPCError RPC_UNKNOWN_ERROR |}).
  assert (Map_get u (_nonceMap c1) = Some o) as Hget by apply Map_get_set.
  assert (step (Message m) c1 = (emit (evt m) [data m] (after_reply u (p_promise o) r c1)).2)
    as ->.
  { unfold step, handle, on_message. rewrite Hr. unfold mbind, M_bind.
    rewrite (settle_reply_matched m c1 u o r) by done. by rewrite emit_eq. }
  set (c3 := after_reply u (p_promise o) r c1).
  assert (promises c3 !! length (promises c) = Some r) as Hp.
  { unfold c3, after_reply, settle, modify, c1, request. run_M.
    rewrite lookup_snoc. cbn. rewrite insert_snoc. apply lookup_snoc. }
  assert (log c3 = log c ++ [TransportSend {| c_cmd := cmd; c_args := args; c_evt := ev;
                                              c_nonce := u |}]
                         ++ settle_effect (length (promises c)) r) as Hlog.
  { unfold c3, after_reply, settle, modify, c1, request. run_M.
    rewrite lookup_snoc. cbn. by rewrite <- app_assoc. }
  split_and!.
  - by apply (keeps_settled_emit _ r (reply_outcome_settles m r Ho)).
  - destruct (emit_quiet (evt m) [data m] c3) as (rest & Hl & Hq).
    exists rest. split; [|done]. rewrite Hl, Hlog. by rewrite <- !app_assoc.
  - assert (keeps (λ st, credentials st = credentials c) (emit (evt m) [data m])) as Hk
      by frame.
    apply Hk. unfold c3, after_reply, settle, modify, c1, request. run_M.
    by rewrite lookup_snoc.
  - destruct (emit_spec (evt m) [data m] c3) as (c4 & rest & He & _ & _ & Hmap).
    rewrite He. cbn. rewrite Hmap. unfold c3, after_reply. cbn. apply Map_get_delete.
Qed.

Lemma promises_request cmd args ev u c :
  promises (request cmd args ev u c).2 = promises c ++ [Pending].
Proof. reflexivity. Qed.

Lemma pending_request cmd args ev u c :
  promises (request cmd args ev u c).2 !! length (promises c) = Some Pending.
Proof. rewrite promises_request. apply lookup_snoc. Qed.

(** Normal form of a session that is written out. *)
Ltac s_norm :=
  cbv beta iota zeta delta
    [s_step s_handle set_cl set_tasks set_calls set_nextFetch set_drawn set_application
     cl application tasks calls nextFetch uuid drawn budget foldr weight self_of];
  cbn [app snd fst Nat.add].

(** *** [subscribe] *)



(** *** [login] *)

Lemma pending_attempting c :
  promises (attempting c) !! length (promises c) = Some Pending.
Proof. unfold attempting. cbn. apply lookup_snoc. Qed.

Lemma login_started c ap cs nf rng dr options :
  connectionPromise c = None →
  s_step (CallLogin options)
    {| cl := c; application := ap; tasks := []; calls := cs; nextFetch := nf;
       uuid := rng; drawn := dr |}
  = {| cl := attempting c; application := ap;
       tasks := [(OnPromise (length (promises c)), LoginConnected (length cs) options)];
       calls := cs ++ [Running]; nextFetch := nf; uuid := rng; drawn := dr |}.
Proof.
  intros H. unfold s_step, s_handle. rewrite (login_eq _ _ _ _ _ _ _ _ _ _ (connect_fresh c H)).
  s_norm. apply drain_done. s_norm. rewrite take_ready_skip; [done|].
  unfold settled_as. s_norm. by rewrite pending_attempting.
Qed.

(** The effects logged from the state [s] on. *)
Definition since (s : session) (s' : session) : list effect :=
  drop (length (log (cl s))) (log (cl s')).

Lemma since_eq s s' l : log (cl s') = log (cl s) ++ l → since s s' = l.
Proof. intros H. unfold since. rewrite H. apply drop_app_length. Qed.

(** X7. [login()] without options, or with options whose [scopes] is
    missing, is [connect()] followed by [ready]: the call stays pending
    until the handshake arrives, and then [ready] is emitted right after
    [connected] and the call returns; no command and no HTTP request is
    sent. *)
Theorem login_without_scopes_connects_and_is_ready
  (s : session) (options : option AuthorizeOptions) (m : envelope) :
  tasks s = [] → connectionPromise (cl s) = None → wf (cl s) →
  wants_scopes options = false →
  is_ready m = true → nullish (data m) = false →
  let q := length (calls s) in
  let s1 := s_step (CallLogin options) s in
  let s2 := s_step (OfClient (Message m)) s1 in
  calls s1 !! q = Some Running
  ∧ calls s2 !! q = Some (Returned RUndefined)
  ∧ outgoing (since s s2)
    = [SetTimeout (nextTimer (cl s)) (JNum 10000); TransportConnect;
       Emit (Some "connected") []; Emit (Some "ready") []].
Proof.
  intros Ht Hcp Hwf Hw Hr Hd. destruct s as [c ap ts cs nf rng dr].
  cbn in Ht, Hcp, Hwf. subst ts. cbv zeta. cbn [calls cl].
  rewrite (login_started c ap cs nf rng dr options Hcp).
  destruct (handshake_after_connect c m Hwf Hr Hd) as (Hp & (rest & Hlog & Hq) & _).
  set (c2 := step (Message m) (attempting c)) in *.
  assert (s_step (OfClient (Message m))
            {| cl := attempting c; application := ap;
               tasks := [(OnPromise (length (promises c)), LoginConnected (length cs) options)];
               calls := cs ++ [Running]; nextFetch := nf; uuid := rng; drawn := dr |}
          = {| cl := emitted "ready" c2; application := ap; tasks := [];
               calls := cs ++ [Returned RUndefined]; nextFetch := nf; uuid := rng;
               drawn := dr |}) as ->.
  { s_norm. fold c2. erewrite drain_step; [apply drain_done; by s_norm| |].
    - apply take_ready_head. unfold settled_as. s_norm. by rewrite Hp.
    - s_norm. rewrite resume_LoginConnected_plain by (done || apply lookup_snoc).
      unfold settled_call. by rewrite insert_snoc. }
  split_and!.
  - apply lookup_snoc.
  - apply lookup_snoc.
  - erewrite since_eq.
    2:{ cbn [cl emitted log set_log]. rewrite Hlog. rewrite <- !app_assoc. reflexivity. }
    rewrite !outgoing_app, (outgoing_quiet rest Hq). reflexivity.
Qed.

Definition timed_out : js_error :=
  ErrRPC {| code := RPC_CONNECTION_TIMEOUT; message := JStr "Connection timed out" |}.

Lemma timeout_after_connect c :
  wf c →
  let c2 := step (TimerFires (nextTimer c)) (attempting c) in
  promises c2 !! length (promises c) = Some (Rejected timed_out)
  ∧ log c2 = log c ++ [SetTimeout (nextTimer c) (JNum 10000); TransportConnect;
                       Fired (nextTimer c); Reject (length (promises c)) timed_out].
Proof.
  intros Hwf. cbv zeta.
  set (x := {| t_id := nextTimer c; t_delay := JNum 10000;
               t_action := ConnectTimeout (length (promises c))
                             (new_RPCError RPC_UNKNOWN_ERROR) |}).
  assert (find (λ y, bool_decide (t_id y = nextTimer c)) (timers c ++ [x]) = Some x
          ∧ filter (λ y, t_id y ≠ nextTimer c) (timers c ++ [x]) = timers c)
    as [Hfind Hfilter].
  { apply (find_timer_fresh (timers c) x). intros y Hy.
    pose proof (wf_timers c Hwf y Hy) as [Hlt _]. cbn. lia. }
  unfold step, handle, attempting, mbind, M_bind, gets, modify, perform. cbn.
  fold x. rewrite Hfind. cbn. unfold reject, settle, mbind, M_bind, modify, perform. cbn.
  rewrite lookup_snoc. cbn. rewrite insert_snoc, lookup_snoc.
  split; [done|]. by rewrite <- !app_assoc.
Qed.

Lemma rejection_after_connect c e :
  let c2 := step (ConnectRejected (length (promises c)) e) (attempting c) in
  promises c2 !! length (promises c) = Some (Rejected e)
  ∧ log c2 = log c ++ [SetTimeout (nextTimer c) (JNum 10000); TransportConnect;
                       Reject (length (promises c)) e].
Proof.
  cbv zeta. unfold step, handle, attempting, mbind, M_bind, gets, modify, perform. cbn.
  rewrite bool_decide_eq_true_2 by set_solver.
  unfold reject, settle, mbind, M_bind, modify, perform. cbn.
  rewrite lookup_snoc. cbn. rewrite insert_snoc, lookup_snoc.
  split; [done|]. by rewrite <- !app_assoc.
Qed.

(** X8. A [login()] whose connection attempt fails ends with the error
    of the attempt, whatever its options: with the time-out error when the
    ten seconds pass without a handshake, and with the error of the
    transport when [transport.connect()] rejects.  Nothing is sent and
    [ready] is not emitted. *)
Theorem login_fails_with_the_connection
  (s : session) (options : option AuthorizeOptions) (e : js_error) :
  tasks s = [] → connectionPromise (cl s) = None → wf (cl s) →
  let q := length (calls s) in
  let s1 := s_step (CallLogin options) s in
  let late := s_step (OfClient (TimerFires (nextTimer (cl s)))) s1 in
  let refused := s_step (OfClient (ConnectRejected (length (promises (cl s))) e)) s1 in
  calls late !! q = Some (Threw timed_out)
  ∧ outgoing (since s late) = [SetTimeout (nextTimer (cl s)) (JNum 10000); TransportConnect]
  ∧ calls refused !! q = Some (Threw e)
  ∧ outgoing (since s refused)
    = [SetTimeout (nextTimer (cl s)) (JNum 10000); TransportConnect].
Proof.
  intros Ht Hcp Hwf. destruct s as [c ap ts cs nf rng dr].
  cbn in Ht, Hcp, Hwf. subst ts. cbv zeta. cbn [calls cl].
  rewrite (login_started c ap cs nf rng dr options Hcp).
  destruct (timeout_after_connect c Hwf) as [Hp1 Hlog1].
  destruct (rejection_after_connect c e) as [Hp2 Hlog2].
  set (c1 := step (TimerFires (nextTimer c)) (attempting c)) in *.
  set (c2 := step (ConnectRejected (length (promises c)) e) (attempting c)) in *.
  assert (∀ c' err, promises c' !! length (promises c) = Some (Rejected err) →
            drain 7 {| cl := c'; application := ap;
                       tasks := [(OnPromise (length (promises c)),
                                  LoginConnected (length cs) options)];
                       calls := cs ++ [Running]; nextFetch := nf; uuid := rng; drawn := dr |}
            = {| cl := c'; application := ap; tasks := [];
                 calls := cs ++ [Threw err]; nextFetch := nf; uuid := rng;
                 drawn := dr |}) as Hdrain.
  { intros c' err Hp. erewrite drain_step; [apply drain_done; by s_norm| |].
    - apply take_ready_head. unfold settled_as. s_norm. by rewrite Hp.
    - s_norm. rewrite resume_failure by apply lookup_snoc.
      unfold settled_call. s_norm. by rewrite insert_snoc. }
  s_norm. fold c1 c2. rewrite (Hdrain c1 _ Hp1), (Hdrain c2 _ Hp2).
  split_and!; try apply lookup_snoc.
  - erewrite since_eq by (cbn [cl]; apply Hlog1). reflexivity.
  - erewrite since_eq by (cbn [cl]; apply Hlog2). reflexivity.
Qed.

Lemma lookup_snoc2 {A : Type} (l : list A) (x y : A) :
  ((l ++ [x]) ++ [y]) !! length l = Some x.
Proof. rewrite lookup_app_l by (rewrite length_app; simpl; lia). apply lookup_snoc. Qed.

Lemma lookup_snoc3 {A : Type} (l : list A) (x y z : A) :
  (((l ++ [x]) ++ [y]) ++ [z]) !! length l = Some x.
Proof. rewrite lookup_app_l by (rewrite !length_app; simpl; lia). apply lookup_snoc2. Qed.

Lemma insert_snoc2 {A : Type} (l : list A) (x x' y : A) :
  <[length l := x']> ((l ++ [x]) ++ [y]) = (l ++ [x']) ++ [y].
Proof.
  rewrite insert_app_l by (rewrite length_app; simpl; lia). by rewrite insert_snoc.
Qed.

Lemma insert_snoc3 {A : Type} (l : list A) (x x' y z : A) :
  <[length l := x']> (((l ++ [x]) ++ [y]) ++ [z]) = ((l ++ [x']) ++ [y]) ++ [z].
Proof.
  rewrite insert_app_l by (rewrite !length_app; simpl; lia). by rewrite insert_snoc2.
Qed.

Lemma take_fetch_here n k ts : take_fetch n ((OnFetch n, k) :: ts) = Some (k, ts).
Proof. simpl. by rewrite decide_True. Qed.

Section login_flow.
Context (c : client) (ap : json) (cs : list call) (nf : nat) (rng : nat → string)
  (dr : nat) (o : AuthorizeOptions) (m : envelope).
Context (Hcp : connectionPromise c = None) (Hwf : wf c)
  (Hsc : truthy (scopes o) = true) (Hrpc : useRPCToken o = false)
  (Hr : is_ready m = true) (Hd : nullish (data m) = false).

(** The client after the handshake. *)
Definition greeted : client := step (Message m) (attempting c).

(** The client and the session while [AUTHORIZE] is pending. *)
Definition asked : client :=
  (request "AUTHORIZE" (authorize_args o (clientId greeted) JUndefined)
     None (rng dr) greeted).2.

Definition authorizing : session :=
  {| cl := asked;
     application := ap;
     tasks := [(OnPromise (length (promises greeted)),
                AuthorizeCode (length (cs ++ [Running])) o);
               (OnCall (length (cs ++ [Running])), LoginAuthorized (length cs))];
     calls := (cs ++ [Running]) ++ [Running];
     nextFetch := nf; uuid := rng; drawn := S dr |}.

Lemma flow_authorizing :
  s_step (OfClient (Message m))
    (s_step (CallLogin (Some o))
       {| cl := c; application := ap; tasks := []; calls := cs; nextFetch := nf;
          uuid := rng; drawn := dr |})
  = authorizing.
Proof using Hcp Hwf Hsc Hrpc Hr Hd.
  rewrite (login_started c ap cs nf rng dr (Some o) Hcp).
  destruct (handshake_after_connect c m Hwf Hr Hd) as (Hp & _ & _).
  fold greeted in Hp. s_norm. fold greeted.
  erewrite drain_step; cycle 1.
  - apply take_ready_head. unfold settled_as. s_norm. by rewrite Hp.
  - s_norm. by rewrite resume_LoginConnected_scopes.
  - fold asked. fold authorizing. apply drain_done. unfold authorizing. s_norm.
    rewrite take_ready_skip; [rewrite take_ready_skip; [done|]|].
    + unfold settled_as. s_norm. by rewrite lookup_snoc.
    + unfold settled_as, asked. s_norm. by rewrite pending_request.
Qed.

Context (r1 : envelope) (Hu0 : rng dr ≠ "") (Hn1 : nonce r1 = Some (rng dr))
  (Hr1 : is_ready r1 = false).

(** The client after the reply to [AUTHORIZE]. *)
Definition answered : client := step (Message r1) asked.

(** The session while the code is exchanged for the tokens. *)
Definition exchanging (code : json) : session :=
  {| cl := (fetch "/oauth2/token" (token_form o answered code) answered).2;
     application := ap;
     tasks := [(OnCall (length (cs ++ [Running])), LoginAuthorized (length cs));
               (OnFetch nf, AuthorizeToken (length (cs ++ [Running])))];
     calls := (cs ++ [Running]) ++ [Running];
     nextFetch := S nf; uuid := rng; drawn := S dr |}.

(** A session in which [authorize] and with it [login] have failed. *)
Definition failed_in_authorize (c' : client) (nf' : nat) (e : js_error) : session :=
  {| cl := c'; application := ap; tasks := [];
     calls := (cs ++ [Threw e]) ++ [Threw e];
     nextFetch := nf'; uuid := rng; drawn := S dr |}.

Lemma answered_settles r :
  reply_outcome r1 = Some r → promises answered !! length (promises greeted) = Some r.
Proof using Hu0 Hn1 Hr1.
  intros Ho. unfold answered, asked.
  by destruct (reply_after_request greeted "AUTHORIZE"
                 (authorize_args o (clientId greeted) JUndefined) None (rng dr) r1 r
                 Hu0 Hn1 Hr1 Ho) as (Hp & _).
Qed.

(** Both calls fail when the first of them does. *)
Lemma drain_failed_in_authorize n c' nf' e :
  drain (S (S n))
    {| cl := c'; application := ap;
       tasks := [(OnCall (length (cs ++ [Running])), LoginAuthorized (length cs))];
       calls := (cs ++ [Running]) ++ [Threw e];
       nextFetch := nf'; uuid := rng; drawn := S dr |}
  = failed_in_authorize c' nf' e.
Proof.
  erewrite drain_step; cycle 1.
  - apply take_ready_head. unfold settled_as. s_norm. by rewrite lookup_snoc.
  - s_norm. rewrite resume_failure by apply lookup_snoc2.
    unfold settled_call. s_norm. by rewrite insert_snoc2.
  - by apply drain_done.
Qed.

Lemma flow_exchanging code :
  reply_outcome r1 = Some (Resolved (VEnvelope r1)) →
  get (data r1) "code" = Some code →
  s_step (OfClient (Message r1)) authorizing = exchanging code.
Proof using Hu0 Hn1 Hr1.
  intros Ho Hc. pose proof (answered_settles _ Ho) as Hp.
  unfold authorizing. s_norm. fold answered.
  erewrite drain_step; cycle 1.
  - apply take_ready_head. unfold settled_as. s_norm. by rewrite Hp.
  - s_norm. by rewrite (resume_AuthorizeCode _ _ _ _ _ _ _ _ _ _ code Hc).
  - s_norm. apply drain_done. unfold exchanging. s_norm.
    rewrite take_ready_skip; [done|]. unfold settled_as. s_norm. by rewrite lookup_snoc.
Qed.



Context (code : json).

(** The client while the code is exchanged. *)
Definition trading : client :=
  (fetch "/oauth2/token" (token_form o answered code) answered).2.

Lemma take_fetch_exchanging :
  take_fetch nf (tasks (exchanging code))
  = Some (AuthorizeToken (length (cs ++ [Running])),
          [(OnCall (length (cs ++ [Running])), LoginAuthorized (length cs))]).
Proof. unfold exchanging. s_norm. cbn [take_fetch]. by rewrite decide_True. Qed.

(** The session while [AUTHENTICATE] is pending. *)
Definition funded (a r ty e : json) : client := with_tokens a r ty e trading.

Definition presenting (a r ty e : json) : client :=
  (request "AUTHENTICATE" (JObj [("access_token", coalesce a (JStr ""))])
     None (rng (S dr)) (funded a r ty e)).2.

Definition authenticating (a r ty e : json) : session :=
  {| cl := presenting a r ty e;
     application := ap;
     tasks := [(OnPromise (length (promises (funded a r ty e))),
                AuthenticateReply (length ((cs ++ [Running]) ++ [Returned RUndefined])));
               (OnCall (length ((cs ++ [Running]) ++ [Returned RUndefined])),
                LoginAuthenticated (length cs))];
     calls := ((cs ++ [Running]) ++ [Returned RUndefined]) ++ [Running];
     nextFetch := S nf; uuid := rng; drawn := S (S dr) |}.

Lemma flow_authenticating tok a r ty e :
  token_values tok = Some (a, r, ty, e) →
  s_step (FetchReturns nf tok) (exchanging code) = authenticating a r ty e.
Proof.
  intros Htok. unfold s_step, s_handle. rewrite take_fetch_exchanging.
  unfold exchanging. s_norm. fold trading.
  rewrite (resume_AuthorizeToken _ _ _ _ _ _ _ _ tok a r ty e Htok) by apply lookup_snoc.
  unfold settled_call. rewrite insert_snoc. s_norm. fold (funded a r ty e).
  erewrite drain_step; cycle 1.
  - apply take_ready_head. unfold settled_as. s_norm. by rewrite lookup_snoc.
  - s_norm. by rewrite resume_LoginAuthorized.
  - s_norm. apply drain_done. unfold authenticating. s_norm.
    rewrite take_ready_skip; [rewrite take_ready_skip; [done|]|].
    + unfold settled_as. s_norm. by rewrite lookup_snoc.
    + unfold settled_as, presenting. s_norm. by rewrite pending_request.
Qed.

Lemma flow_malformed tok :
  token_values tok = None →
  ∃ e, s_step (FetchReturns nf tok) (exchanging code)
       = failed_in_authorize trading (S nf) (TypeError e).
Proof.
  intros Htok. unfold s_step, s_handle. rewrite take_fetch_exchanging.
  unfold exchanging. s_norm. fold trading.
  destruct (resume_AuthorizeToken_incomplete trading ap
              [(OnCall (length (cs ++ [Running])), LoginAuthorized (length cs))]
              ((cs ++ [Running]) ++ [Running]) (S nf) rng (S dr)
              (length (cs ++ [Running])) tok Htok (lookup_snoc _ _)) as [e ->].
  exists e. unfold settled_call. rewrite insert_snoc. s_norm.
  apply drain_failed_in_authorize.
Qed.

Lemma flow_unanswered e :
  s_step (FetchFails nf e) (exchanging code) = failed_in_authorize trading (S nf) e.
Proof.
  unfold s_step, s_handle. rewrite take_fetch_exchanging.
  unfold exchanging. s_norm. fold trading.
  rewrite resume_failure by apply lookup_snoc.
  unfold settled_call. s_norm. rewrite insert_snoc.
  apply drain_failed_in_authorize.
Qed.

Context (a r ty e : json) (r2 : envelope) (Hu1 : rng (S dr) ≠ "")
  (Hn2 : nonce r2 = Some (rng (S dr))) (Hr2 : is_ready r2 = false).

(** The client after the reply to [AUTHENTICATE]. *)
Definition confirmed : client := step (Message r2) (presenting a r ty e).

Definition logged_in (u ap' : json) : session :=
  {| cl := emitted "ready" (set_user u confirmed); application := ap'; tasks := [];
     calls := ((cs ++ [Returned RUndefined]) ++ [Returned RUndefined])
                ++ [Returned RUndefined];
     nextFetch := S nf; uuid := rng; drawn := S (S dr) |}.


Lemma confirmed_settles x :
  reply_outcome r2 = Some x →
  promises confirmed !! length (promises (funded a r ty e)) = Some x.
Proof using Hu1 Hn2 Hr2.
  intros Ho. unfold confirmed, presenting.
  by destruct (reply_after_request (funded a r ty e) "AUTHENTICATE"
                 (JObj [("access_token", coalesce a (JStr ""))]) None (rng (S dr)) r2 x
                 Hu1 Hn2 Hr2 Ho) as (Hp & _).
Qed.

Lemma flow_ready u ap' :
  reply_outcome r2 = Some (Resolved (VEnvelope r2)) →
  get (data r2) "application" = Some ap' → get (data r2) "user" = Some u →
  s_step (OfClient (Message r2)) (authenticating a r ty e) = logged_in u ap'.
Proof using Hu1 Hn2 Hr2.
  intros Ho Ha Hu. pose proof (confirmed_settles _ Ho) as Hp.
  unfold authenticating. s_norm. fold confirmed.
  erewrite drain_step; cycle 1.
  - apply take_ready_head. unfold settled_as. s_norm. by rewrite Hp.
  - s_norm. rewrite (resume_AuthenticateReply _ _ _ _ _ _ _ _ _ ap' u Ha Hu)
      by apply lookup_snoc.
    unfold settled_call. by rewrite insert_snoc.
  - erewrite drain_step; cycle 1.
    + apply take_ready_head. unfold settled_as. s_norm. by rewrite lookup_snoc.
    + s_norm. rewrite resume_LoginAuthenticated by apply lookup_snoc3.
      unfold settled_call. by rewrite insert_snoc3.
    + by apply drain_done.
Qed.


(** *** What the client has done by each stage *)

(** The log of [x] continues the log of [c] with effects of which [out]
    are the outward ones. *)
Definition traced (x : client) (out : list effect) : Prop :=
  ∃ l, log x = log c ++ l ∧ outgoing l = out.

Lemma traced_step x x' out l' :
  traced x out → log x' = log x ++ l' → traced x' (out ++ outgoing l').
Proof.
  intros (l & Hl & Ho) H. exists (l ++ l'). rewrite H, Hl, outgoing_app, Ho.
  by rewrite <- app_assoc.
Qed.

Lemma traced_since x out : traced x out → outgoing (drop (length (log c)) (log x)) = out.
Proof. intros (l & -> & Ho). by rewrite drop_app_length. Qed.

(** The header [fetch] adds when an access token is stored. *)
Definition authorization (x : client) : option string :=
  if truthy (accessToken x)
  then Some (js_to_string (tokenType x) +:+ " " +:+ js_to_string (accessToken x))
  else None.

Definition connect_effects : list effect :=
  [SetTimeout (nextTimer c) (JNum 10000); TransportConnect; Emit (Some "connected") []].

Definition authorize_command : effect :=
  TransportSend {| c_cmd := "AUTHORIZE";
                   c_args := authorize_args o (clientId c) JUndefined;
                   c_evt := None; c_nonce := rng dr |}.

Definition token_request : effect :=
  Fetch {| h_path := "/oauth2/token"; h_form := token_form o c code;
           h_authorization := authorization c |}.

Definition authenticate_command : effect :=
  TransportSend {| c_cmd := "AUTHENTICATE";
                   c_args := JObj [("access_token", coalesce a (JStr ""))];
                   c_evt := None; c_nonce := rng (S dr) |}.

Lemma credentials_greeted : credentials greeted = credentials (attempting c).
Proof using Hwf Hr Hd.
  by destruct (handshake_after_connect c m Hwf Hr Hd) as (_ & _ & H).
Qed.

Lemma traced_greeted : traced greeted connect_effects.
Proof using Hwf Hr Hd.
  destruct (handshake_after_connect c m Hwf Hr Hd) as (_ & (rest & Hlog & Hq) & _).
  eexists. split; [exact Hlog|]. rewrite outgoing_app, (outgoing_quiet rest Hq). done.
Qed.

Lemma traced_asked : traced asked (connect_effects ++ [authorize_command]).
Proof using Hwf Hr Hd.
  apply (traced_step greeted asked connect_effects [authorize_command] traced_greeted).
  pose proof credentials_greeted as [= Hid _ _ _ _ _ _].
  unfold asked, authorize_command. cbn. by rewrite Hid.
Qed.

Lemma traced_answered x :
  reply_outcome r1 = Some x →
  traced answered (connect_effects ++ [authorize_command; Emit (evt r1) [data r1]]).
Proof using Hwf Hr Hd Hu0 Hn1 Hr1.
  intros Ho.
  destruct (reply_after_request greeted "AUTHORIZE"
              (authorize_args o (clientId greeted) JUndefined) None (rng dr) r1 x
              Hu0 Hn1 Hr1 Ho) as (_ & (rest & Hlog & Hq) & _).
  fold asked in Hlog. fold answered in Hlog.
  pose proof credentials_greeted as [= Hid _ _ _ _ _ _].
  pose proof (traced_step greeted answered connect_effects _ traced_greeted Hlog) as H.
  rewrite !outgoing_app, (outgoing_quiet _ (quiet_settle_effect _ _)) in H.
  cbn [outgoing List.filter outward app] in H.
  change (List.filter outward rest) with (outgoing rest) in H.
  rewrite (outgoing_quiet rest Hq), Hid in H. exact H.
Qed.

Lemma credentials_answered : credentials answered = credentials (attempting c).
Proof using Hwf Hr Hd.
  unfold answered. rewrite credentials_step_Message. unfold asked.
  rewrite <- credentials_greeted. reflexivity.
Qed.

Lemma traced_trading x :
  reply_outcome r1 = Some x →
  traced trading (connect_effects
                    ++ [authorize_command; Emit (evt r1) [data r1]; token_request]).
Proof using Hwf Hr Hd Hu0 Hn1 Hr1.
  intros Ho.
  pose proof (traced_step answered trading _ [token_request] (traced_answered x Ho)) as H.
  rewrite <- app_assoc in H. apply H.
  pose proof credentials_answered as [= Hid Hsec Hat Hty _ _ _].
  unfold trading, token_request, token_form, authorization, fetch. run_M.
  by rewrite Hid, Hsec, Hat, Hty.
Qed.

Lemma traced_funded x :
  reply_outcome r1 = Some x →
  traced (funded a r ty e)
    (connect_effects
       ++ [authorize_command; Emit (evt r1) [data r1]; token_request;
           SetTimeout (S (nextTimer c)) e]).
Proof using Hwf Hr Hd Hu0 Hn1 Hr1.
  intros Ho.
  pose proof (traced_step trading (funded a r ty e) _ [SetTimeout (S (nextTimer c)) e]
                (traced_trading x Ho)) as H.
  rewrite <- app_assoc in H. apply H.
  pose proof credentials_answered as [= _ _ _ _ _ Hnt _].
  unfold funded, with_tokens, trading, fetch. run_M. by rewrite Hnt.
Qed.

Lemma traced_confirmed x y :
  reply_outcome r1 = Some x → reply_outcome r2 = Some y →
  traced confirmed
    (connect_effects
       ++ [authorize_command; Emit (evt r1) [data r1]; token_request;
           SetTimeout (S (nextTimer c)) e; authenticate_command;
           Emit (evt r2) [data r2]]).
Proof using Hwf Hr Hd Hu0 Hn1 Hr1 Hu1 Hn2 Hr2.
  intros Ho1 Ho2.
  destruct (reply_after_request (funded a r ty e) "AUTHENTICATE"
              (JObj [("access_token", coalesce a (JStr ""))]) None (rng (S dr)) r2 y
              Hu1 Hn2 Hr2 Ho2) as (_ & (rest & Hlog & Hq) & _).
  fold presenting in Hlog. fold confirmed in Hlog.
  pose proof (traced_step (funded a r ty e) confirmed _ _ (traced_funded x Ho1) Hlog) as H.
  rewrite !outgoing_app, (outgoing_quiet _ (quiet_settle_effect _ _)) in H.
  cbn [outgoing List.filter outward app] in H.
  change (List.filter outward rest) with (outgoing rest) in H.
  rewrite (outgoing_quiet rest Hq), <- app_assoc in H. exact H.
Qed.

End login_flow.

(** No [async] call is suspended, no connection attempt is in flight, and
    the numbering of the client is consistent. *)
Definition idle (s : session) : Prop :=
  tasks s = [] ∧ connectionPromise (cl s) = None ∧ wf (cl s).

(** The handshake, with a payload. *)
Definition greets (m : envelope) : Prop :=
  is_ready m = true ∧ nullish (data m) = false.

(** [m] is a reply that carries the token [u]. *)
Definition answers (u : string) (m : envelope) : Prop :=
  u ≠ "" ∧ nonce m = Some u ∧ is_ready m = false.


Lemma reply_outcome_ok m :
  evt m ≠ Some "ERROR" → reply_outcome m = Some (Resolved (VEnvelope m)).
Proof. intros H. unfold reply_outcome. by rewrite bool_decide_eq_false_2. Qed.


(** X9. [login] with scopes, when every step succeeds: after the
    handshake the client sends [AUTHORIZE] with the scopes, its id, the
    redirect URI and the prompt ("consent" unless given); when the reply
    brings a code it posts the code to [/oauth2/token]; when the response
    has the four token fields it stores them, arms the refresh timer and
    sends [AUTHENTICATE] with the new access token; when that is answered
    it stores the application and the user, emits [ready] and the call
    returns.  These are the only commands, requests, timers and events,
    in this order; each reply is also emitted under its event name. *)
Theorem login_with_scopes_authorizes_then_authenticates
  (s : session) (o : AuthorizeOptions) (m r1 r2 : envelope)
  (tok code a r ty e ap' u : json) :
  idle s →
  truthy (scopes o) = true → useRPCToken o = false →
  greets m →
  answers (uuid s (drawn s)) r1 → evt r1 ≠ Some "ERROR" →
  get (data r1) "code" = Some code →
  token_values tok = Some (a, r, ty, e) →
  answers (uuid s (S (drawn s))) r2 → evt r2 ≠ Some "ERROR" →
  get (data r2) "application" = Some ap' → get (data r2) "user" = Some u →
  let s' := s_run [CallLogin (Some o); OfClient (Message m); OfClient (Message r1);
                   FetchReturns (nextFetch s) tok; OfClient (Message r2)] s in
  calls s' !! length (calls s) = Some (Returned RUndefined)
  ∧ application s' = ap' ∧ user (cl s') = u
  ∧ accessToken (cl s') = a ∧ refreshToken (cl s') = r ∧ tokenType (cl s') = ty
  ∧ refreshTimeout (cl s') = Some (S (nextTimer (cl s)))
  ∧ outgoing (since s s')
    = [SetTimeout (nextTimer (cl s)) (JNum 10000); TransportConnect;
       Emit (Some "connected") [];
       TransportSend
         {| c_cmd := "AUTHORIZE";
            c_args := JObj [("scopes", scopes o);
                            ("client_id", JStr (clientId (cl s)));
                            ("rpc_token", JUndefined);
                            ("redirect_uri", string_or_undefined (redirect_uri o));
                            ("prompt", JStr (default "consent" (prompt o)))];
            c_evt := None; c_nonce := uuid s (drawn s) |};
       Emit (evt r1) [data r1];
       Fetch {| h_path := "/oauth2/token";
                h_form := [("client_id", clientId (cl s));
                           ("client_secret", default "" (clientSecret (cl s)));
                           ("redirect_uri", default "" (redirect_uri o));
                           ("grant_type", "authorization_code");
                           ("code", js_to_string code)];
                h_authorization := authorization (cl s) |};
       SetTimeout (S (nextTimer (cl s))) e;
       TransportSend
         {| c_cmd := "AUTHENTICATE";
            c_args := JObj [("access_token", coalesce a (JStr ""))];
            c_evt := None; c_nonce := uuid s (S (drawn s)) |};
       Emit (evt r2) [data r2];
       Emit (Some "ready") []].
Proof.
  intros (Ht & Hcp & Hwf) Hsc Hrpc (Hr & Hd) (Hu0 & Hn1 & Hr1) He1 Hc Htok
    (Hu1 & Hn2 & Hr2) He2 Ha Hu.
  destruct s as [c ap ts cs nf rng dr]. cbn in Ht, Hcp, Hwf, Hu0, Hn1, Hu1, Hn2. subst ts.
  pose proof (reply_outcome_ok r1 He1) as Ho1.
  pose proof (reply_outcome_ok r2 He2) as Ho2.
  cbv zeta. cbn [s_run nextFetch calls uuid drawn cl].
  rewrite (flow_authorizing c ap cs nf rng dr o m) by done.
  rewrite (flow_exchanging c ap cs nf rng dr o m r1 Hu0 Hn1 Hr1 code Ho1 Hc).
  rewrite (flow_authenticating c ap cs nf rng dr o m r1 code tok a r ty e Htok).
  rewrite (flow_ready c ap cs nf rng dr o m r1 code a r ty e r2 Hu1 Hn2 Hr2 u ap' Ho2 Ha Hu).
  pose proof (traced_confirmed c rng dr o m Hwf Hr Hd r1 Hu0 Hn1 Hr1 code a r ty e r2
                Hu1 Hn2 Hr2 _ _ Ho1 Ho2) as Htr.
  set (c8 := confirmed c rng dr o m r1 code a r ty e r2) in *.
  assert (credentials c8 = credentials (presenting c rng dr o m r1 code a r ty e)) as Hcr
    by apply credentials_step_Message.
  injection Hcr as _ _ Hat Hty Hrt Hnt Hrto.
  unfold logged_in. cbn [calls application cl].
  split_and!.
  - apply lookup_snoc3.
  - reflexivity.
  - reflexivity.
  - exact Hat.
  - exact Hrt.
  - exact Hty.
  - change (refreshTimeout c8 = Some (S (nextTimer c))).
    rewrite Hrto. unfold presenting, funded, with_tokens, trading, fetch. run_M.
    f_equal. by pose proof (credentials_answered c rng dr o m Hwf Hr Hd r1)
      as [= _ _ _ _ _ ? _].
  - apply (traced_step c c8 (emitted "ready" (set_user u c8)) _ [Emit (Some "ready") []])
      in Htr; [|reflexivity].
    apply traced_since in Htr. unfold since. cbn [cl].
    etrans; [exact Htr|]. unfold authorize_command, authorize_args. by rewrite Hrpc.
Qed.


(** X11. When the exchange of the code fails, [login] fails with it:
    with the [TypeError] of [hanleAccessTokenResponse] when the response
    lacks one of the four token fields, and with the error of the HTTP
    request when that request fails.  No token is stored, no refresh timer
    is armed, [AUTHENTICATE] is not sent and [ready] is not emitted. *)
Theorem login_fails_when_the_token_exchange_fails
  (s : session) (o : AuthorizeOptions) (m r1 : envelope) (tok code : json)
  (e : js_error) :
  idle s →
  truthy (scopes o) = true → useRPCToken o = false →
  greets m →
  answers (uuid s (drawn s)) r1 → evt r1 ≠ Some "ERROR" →
  get (data r1) "code" = Some code →
  token_values tok = None →
  let before := [CallLogin (Some o); OfClient (Message m); OfClient (Message r1)] in
  let failed (s' : session) (err : js_error) : Prop :=
    calls s' !! length (calls s) = Some (Threw err)
    ∧ tasks s' = []
    ∧ accessToken (cl s') = accessToken (cl s)
    ∧ refreshTimeout (cl s') = refreshTimeout (cl s)
    ∧ outgoing (since s s')
      = [SetTimeout (nextTimer (cl s)) (JNum 10000); TransportConnect;
         Emit (Some "connected") [];
         TransportSend
           {| c_cmd := "AUTHORIZE";
              c_args := JObj [("scopes", scopes o);
                              ("client_id", JStr (clientId (cl s)));
                              ("rpc_token", JUndefined);
                              ("redirect_uri", string_or_undefined (redirect_uri o));
                              ("prompt", JStr (default "consent" (prompt o)))];
              c_evt := None; c_nonce := uuid s (drawn s) |};
         Emit (evt r1) [data r1];
         Fetch {| h_path := "/oauth2/token";
                  h_form := [("client_id", clientId (cl s));
                             ("client_secret", default "" (clientSecret (cl s)));
                             ("redirect_uri", default "" (redirect_uri o));
                             ("grant_type", "authorization_code");
                             ("code", js_to_string code)];
                  h_authorization := authorization (cl s) |}] in
  (∃ err, failed (s_run (before ++ [FetchReturns (nextFetch s) tok]) s) (TypeError err))
  ∧ failed (s_run (before ++ [FetchFails (nextFetch s) e]) s) e.
Proof.
  intros (Ht & Hcp & Hwf) Hsc Hrpc (Hr & Hd) (Hu0 & Hn1 & Hr1) He1 Hc Htok.
  destruct s as [c ap ts cs nf rng dr]. cbn in Ht, Hcp, Hwf, Hu0, Hn1. subst ts.
  pose proof (reply_outcome_ok r1 He1) as Ho1.
  cbv zeta. cbn [s_run nextFetch calls uuid drawn cl app].
  rewrite (flow_authorizing c ap cs nf rng dr o m) by done.
  rewrite (flow_exchanging c ap cs nf rng dr o m r1 Hu0 Hn1 Hr1 code Ho1 Hc).
  destruct (flow_malformed c ap cs nf rng dr o m r1 code tok Htok) as [err ->].
  rewrite (flow_unanswered c ap cs nf rng dr o m r1 code e).
  pose proof (traced_trading c rng dr o m Hwf Hr Hd r1 Hu0 Hn1 Hr1 code _ Ho1) as Htr.
  pose proof (credentials_answered c rng dr o m Hwf Hr Hd r1) as [= _ _ Hat _ _ _ Hrto].
  apply traced_since in Htr.
  assert (∀ x, outgoing (since {| cl := c; application := ap; tasks := []; calls := cs;
                                  nextFetch := nf; uuid := rng; drawn := dr |}
                           (failed_in_authorize ap cs rng dr
                              (trading c rng dr o m r1 code) (S nf) x))
               = connect_effects c
                 ++ [TransportSend
                       {| c_cmd := "AUTHORIZE";
                          c_args := JObj [("scopes", scopes o);
                                          ("client_id", JStr (clientId c));
                                          ("rpc_token", JUndefined);
                                          ("redirect_uri",
                                           string_or_undefined (redirect_uri o));
                                          ("prompt", JStr (default "consent" (prompt o)))];
                          c_evt := None; c_nonce := rng dr |};
                     Emit (evt r1) [data r1]; token_request c o code]) as Hout.
  { intros x. unfold since, failed_in_authorize. cbn [cl].
    etrans; [exact Htr|]. unfold authorize_command, authorize_args. by rewrite Hrpc. }
  split; [exists err|]; unfold failed_in_authorize at 1 2 3 4; cbn [calls tasks cl];
    (split_and!; [apply lookup_snoc2|done|exact Hat|exact Hrto|apply Hout]).
Qed.



(** X13. With [useRPCToken], [login] first posts the client id and
    secret to [/oauth2/token/rpc], and only when that is answered sends
    [AUTHORIZE], with the [rpc_token] of the response. *)
Theorem login_with_rpc_token_fetches_it_first
  (s : session) (o : AuthorizeOptions) (m : envelope) (d t : json) :
  idle s →
  truthy (scopes o) = true → useRPCToken o = true →
  greets m →
  get d "rpc_token" = Some t →
  let s1 := s_run [CallLogin (Some o); OfClient (Message m)] s in
  let s2 := s_step (FetchReturns (nextFetch s) d) s1 in
  let rpc_request :=
    Fetch {| h_path := "/oauth2/token/rpc";
             h_form := [("client_id", clientId (cl s));
                        ("client_secret", default "" (clientSecret (cl s)))];
             h_authorization := authorization (cl s) |} in
  outgoing (since s s1)
  = [SetTimeout (nextTimer (cl s)) (JNum 10000); TransportConnect;
     Emit (Some "connected") []; rpc_request]
  ∧ outgoing (since s s2)
    = [SetTimeout (nextTimer (cl s)) (JNum 10000); TransportConnect;
       Emit (Some "connected") []; rpc_request;
       TransportSend
         {| c_cmd := "AUTHORIZE";
            c_args := JObj [("scopes", scopes o);
                            ("client_id", JStr (clientId (cl s)));
                            ("rpc_token", t);
                            ("redirect_uri", string_or_undefined (redirect_uri o));
                            ("prompt", JStr (default "consent" (prompt o)))];
            c_evt := None; c_nonce := uuid s (drawn s) |}]
  ∧ calls s2 !! length (calls s) = Some Running.
Proof.
  intros (Ht & Hcp & Hwf) Hsc Hrpc (Hr & Hd) Hget.
  destruct s as [c ap ts cs nf rng dr]. cbn in Ht, Hcp, Hwf. subst ts.
  cbv zeta. cbn [s_run nextFetch calls uuid drawn cl].
  rewrite (login_started c ap cs nf rng dr (Some o) Hcp).
  destruct (handshake_after_connect c m Hwf Hr Hd) as (Hp & (rest & Hlog & Hq) & Hcr).
  set (c2 := step (Message m) (attempting c)) in *.
  injection Hcr as Hid Hsec Hat Hty _ _ _. cbn in Hid, Hsec, Hat, Hty.
  set (c3 := (fetch "/oauth2/token/rpc" (rpc_token_form c2) c2).2).
  assert (s_step (OfClient (Message m))
            {| cl := attempting c; application := ap;
               tasks := [(OnPromise (length (promises c)),
                          LoginConnected (length cs) (Some o))];
               calls := cs ++ [Running]; nextFetch := nf; uuid := rng; drawn := dr |}
          = {| cl := c3; application := ap;
               tasks := [(OnFetch nf, AuthorizeRpcToken (length (cs ++ [Running])) o);
                         (OnCall (length (cs ++ [Running])), LoginAuthorized (length cs))];
               calls := (cs ++ [Running]) ++ [Running];
               nextFetch := S nf; uuid := rng; drawn := dr |}) as ->.
  { s_norm. fold c2. erewrite drain_step; cycle 1.
    - apply take_ready_head. unfold settled_as. s_norm. by rewrite Hp.
    - s_norm. by rewrite resume_LoginConnected_scopes_rpc.
    - s_norm. apply drain_done. s_norm.
      rewrite take_ready_skip; [rewrite take_ready_skip; [done|]|done].
      unfold settled_as. s_norm. by rewrite lookup_snoc. }
  set (c4 := (request "AUTHORIZE" (authorize_args o (clientId c3) t) None (rng dr) c3).2).
  assert (s_step (FetchReturns nf d)
            {| cl := c3; application := ap;
               tasks := [(OnFetch nf, AuthorizeRpcToken (length (cs ++ [Running])) o);
                         (OnCall (length (cs ++ [Running])), LoginAuthorized (length cs))];
               calls := (cs ++ [Running]) ++ [Running];
               nextFetch := S nf; uuid := rng; drawn := dr |}
          = {| cl := c4; application := ap;
               tasks := [(OnCall (length (cs ++ [Running])), LoginAuthorized (length cs));
                         (OnPromise (length (promises c3)),
                          AuthorizeCode (length (cs ++ [Running])) o)];
               calls := (cs ++ [Running]) ++ [Running];
               nextFetch := S nf; uuid := rng; drawn := S dr |}) as ->.
  { unfold s_step, s_handle. s_norm. rewrite take_fetch_here.
    s_norm. rewrite (resume_AuthorizeRpcToken _ _ _ _ _ _ _ _ _ d t Hget).
    s_norm. apply drain_done. s_norm.
    rewrite take_ready_skip; [rewrite take_ready_skip; [done|]|].
    - unfold settled_as, c4. s_norm. by rewrite pending_request.
    - unfold settled_as. s_norm. by rewrite lookup_snoc. }
  assert (log c3 = log c ++ [SetTimeout (nextTimer c) (JNum 10000); TransportConnect;
                             Emit (Some "connected") []] ++ rest
                   ++ [Fetch {| h_path := "/oauth2/token/rpc";
                                h_form := [("client_id", clientId c);
                                           ("client_secret", default "" (clientSecret c))];
                                h_authorization := authorization c |}]) as Hlog3.
  { assert (log c3 = log c2 ++ [Fetch {| h_path := "/oauth2/token/rpc";
                                         h_form := rpc_token_form c2;
                                         h_authorization := authorization c2 |}]) as ->
      by reflexivity.
    unfold rpc_token_form, authorization.
    rewrite Hlog, Hid, Hsec, Hat, Hty. by rewrite <- !app_assoc. }
  split_and!.
  - erewrite since_eq by (cbn [cl]; exact Hlog3).
    rewrite !outgoing_app, (outgoing_quiet rest Hq). reflexivity.
  - assert (log c4 = log c3 ++ [TransportSend
                                    {| c_cmd := "AUTHORIZE";
                                       c_args := authorize_args o (clientId c3) t;
                                       c_evt := None; c_nonce := rng dr |}]) as Hlog4
      by reflexivity.
    erewrite since_eq.
    2:{ cbn [cl]. rewrite Hlog4, Hlog3. rewrite <- !app_assoc. reflexivity. }
    rewrite !outgoing_app, (outgoing_quiet rest Hq).
    unfold authorize_args. rewrite Hrpc.
    replace (clientId c3) with (clientId c) by (rewrite <- Hid; reflexivity).
    reflexivity.
  - cbn [calls]. apply lookup_snoc2.
Qed.

Lemma Map_get_elem {V : Type} (k : string) (v : V) (m : list (string * V)) :
  Map_get k m = Some v → (k, v) ∈ m.
Proof.
  induction m as [|[k' v'] m IH]; simpl; [done|].
  case_bool_decide; [intros [= ->]; subst; set_solver|set_solver].
Qed.

Lemma wf_attempting c : connectionPromise c = None → wf c → wf (attempting c).
Proof.
  intros Hcp Hwf. pose proof (keeps_wf_connect c Hwf) as H.
  by rewrite (connect_fresh c Hcp) in H.
Qed.

Lemma keeps_close_listener_run_connected l :
  keeps (λ st, RejectPending ∈ onClose st) (run_connected l).
Proof.
  destruct l. unfold run_connected, clearTimeout, resolve, perform, settle.
  repeat keeps_step; apply keeps_modify; intros st H; cbn; try done.
  - set_solver.
  - by destruct (promises st !! p) as [[]|].
Qed.

(** The handshake installs the listener of [close]. *)
Lemma handshake_installs_close_listener c m :
  is_ready m = true → nullish (data m) = false →
  RejectPending ∈ onClose (step (Message m) (attempting c)).
Proof.
  intros Hr Hd. destruct (step_handshake m (attempting c) Hr Hd) as (u & h & ->).
  unfold emit, perform, notify, mbind, M_bind, modify, gets.
  rewrite bool_decide_eq_true_2 by done. cbn.
  rewrite forEach_app. unfold mbind, M_bind.
  match goal with |- context [forEach (onConnected c) run_connected ?st] =>
    set (st0 := st) end.
  destruct (total_forEach (onConnected c) run_connected total_run_connected st0)
    as [[] Hok].
  destruct (forEach (onConnected c) run_connected st0) as [r st1].
  simpl in Hok. subst r. cbn. run_M.
  destruct (promises st1 !! length (promises c)) as [[]|]; cbn; set_solver.
Qed.

(** Both calls fail when the request of [authorize] is rejected. *)
Lemma drain_authorize_rejected c ap cs nf rng dr o m c' e n :
  promises c' !! length (promises (greeted c m)) = Some (Rejected e) →
  drain (S (S (S n)))
    {| cl := c'; application := ap;
       tasks := [(OnPromise (length (promises (greeted c m))),
                  AuthorizeCode (length (cs ++ [Running])) o);
                 (OnCall (length (cs ++ [Running])), LoginAuthorized (length cs))];
       calls := (cs ++ [Running]) ++ [Running];
       nextFetch := nf; uuid := rng; drawn := S dr |}
  = failed_in_authorize ap cs rng dr c' nf e.
Proof.
  intros Hp. s_norm.
  erewrite drain_step; cycle 1.
  - apply take_ready_head. unfold settled_as. s_norm. by rewrite Hp.
  - s_norm. rewrite resume_failure by apply lookup_snoc.
    unfold settled_call. s_norm. by rewrite insert_snoc.
  - apply drain_failed_in_authorize.
Qed.

(** X14. When the transport closes while [AUTHORIZE] is pending,
    [login] ends with the error of the disconnection: the code of the
    reason when it is an object and [RPC_CONNECTION_ENDED] otherwise, with
    the message of the reason, or "Connection ended" when there is
    none. *)
Theorem login_fails_when_the_connection_closes
  (s : session) (o : AuthorizeOptions) (m : envelope) (reason : close_reason) :
  idle s →
  truthy (scopes o) = true → useRPCToken o = false →
  greets m →
  let s' := s_run [CallLogin (Some o); OfClient (Message m); OfClient (Close reason)] s in
  calls s' !! length (calls s) = Some (Threw (ErrRPC (close_error reason)))
  ∧ tasks s' = [].
Proof.
  intros (Ht & Hcp & Hwf) Hsc Hrpc (Hr & Hd).
  destruct s as [c ap ts cs nf rng dr]. cbn in Ht, Hcp, Hwf. subst ts.
  cbv zeta. cbn [s_run nextFetch calls uuid drawn cl].
  rewrite (flow_authorizing c ap cs nf rng dr o m) by done.
  set (c3 := asked c rng dr o m).
  assert (wf (greeted c m)) as Hwf2 by (apply wf_step, wf_attempting; done).
  assert (promises (step (Close reason) c3) !! length (promises (greeted c m))
          = Some (Rejected (ErrRPC (close_error reason)))) as Hp.
  { rewrite step_Close. apply transport_emit_close_rejects.
    - by apply handshake_installs_close_listener.
    - intros Hin. apply (wf_onClose _ Hwf2) in Hin. lia.
    - exists (rng dr, {| p_promise := length (promises (greeted c m));
                         p_error := new_RPCError RPC_UNKNOWN_ERROR |}).
      split; [|reflexivity].
      apply Map_get_elem. unfold c3, asked. apply Map_get_set.
    - unfold c3, asked. apply pending_request. }
  unfold authorizing. s_norm. fold c3.
  rewrite (drain_authorize_rejected c ap cs nf rng dr o m _ _ 2 Hp).
  
  unfold failed_in_authorize. cbn [calls tasks]. split; [apply lookup_snoc2|done].
Qed.

(** *** The fuel of [drain] suffices *)

(** [m] adds suspended calls of total weight at most [n]. *)
Definition grows (n : nat) {A : Type} (m : SM A) : Prop :=
  ∀ s, budget (tasks (m s).2) ≤ budget (tasks s) + n.

Lemma grows_le n n' {A : Type} (m : SM A) : n ≤ n' → grows n m → grows n' m.
Proof. intros Hle H s. specialize (H s). lia. Qed.

Ltac same_tasks :=
  let s := fresh "s" in
  intros s; change (budget (tasks s) ≤ budget (tasks s) + 0); lia.

Lemma grows_ret {A : Type} (a : A) : grows 0 (mret a : SM A).
Proof. same_tasks. Qed.

Lemma grows_bind n1 n2 {A B : Type} (m : SM A) (k : A → SM B) :
  grows n1 m → (∀ a, grows n2 (k a)) → grows (n1 + n2) (m ≫= k).
Proof.
  intros Hm Hk s. specialize (Hm s). unfold mbind, SM_bind.
  destruct (m s) as [[a|e] s']; simpl in *; [|lia].
  specialize (Hk a s'). lia.
Qed.

Lemma grows_lift {A : Type} (m : M A) : grows 0 (lift m).
Proof.
  intros s. unfold lift. destruct (m (cl s)) as [r c'].
  change (budget (tasks s) ≤ budget (tasks s) + 0). lia.
Qed.

Lemma grows_update f : (∀ s, tasks (f s) = tasks s) → grows 0 (update f).
Proof. intros Hf s. unfold update. cbn. rewrite Hf. lia. Qed.

Lemma budget_app ts1 ts2 : budget (ts1 ++ ts2) = budget ts1 + budget ts2.
Proof. induction ts1 as [|t ts1 IH]; simpl; [done|]. rewrite IH. lia. Qed.

Lemma grows_await h k : grows (weight k) (await h k).
Proof. intros s. unfold await, update. cbn. rewrite budget_app. cbn. lia. Qed.

Lemma grows_finish q c : grows 0 (finish q c).
Proof.
  apply grows_update. intros s. by destruct (calls s !! q) as [[]|].
Qed.

Lemma grows_attempt n self body : grows n body → grows n (attempt self body).
Proof.
  intros Hb s. specialize (Hb s). unfold attempt.
  destruct (body s) as [[a|e] s']; cbn [snd] in *; [done|].
  pose proof (grows_finish self (Threw e) s'). lia.
Qed.

Lemma grows_async n body : (∀ self, grows n (body self)) → grows n (async body).
Proof.
  intros Hb. unfold async.
  replace n with (0 + (n + 0)) by lia. apply grows_bind.
  - same_tasks.
  - intros self. apply grows_bind; [by apply grows_attempt|].
    intros _. apply grows_ret.
Qed.

Lemma grows_s_request cmd args ev : grows 0 (s_request cmd args ev).
Proof.
  unfold s_request, randomUUID. change 0 with (0 + 0). apply grows_bind.
  - same_tasks.
  - intros u. apply grows_lift.
Qed.

Lemma grows_s_fetch path form : grows 0 (s_fetch path form).
Proof.
  unfold s_fetch. change 0 with (0 + (0 + (0 + 0))).
  apply grows_bind; [apply grows_lift|intros _].
  apply grows_bind; [same_tasks|intros k].
  apply grows_bind; [by apply grows_update|intros _]. apply grows_ret.
Qed.

Lemma grows_authenticate : grows 1 authenticate.
Proof.
  apply grows_async. intros self. change 1 with (0 + (0 + 1)).
  apply grows_bind; [apply grows_lift|intros at_].
  apply grows_bind; [apply grows_s_request|intros p]. apply grows_await.
Qed.

Lemma grows_authorize_request self o t : grows 2 (authorize_request self o t).
Proof.
  unfold authorize_request. change 2 with (0 + (0 + 2)).
  apply grows_bind; [apply grows_lift|intros id].
  apply grows_bind; [apply grows_s_request|intros p]. apply grows_await.
Qed.

Lemma grows_authorize o : grows 3 (authorize o).
Proof.
  apply grows_async. intros self. destruct (useRPCToken o).
  - change 3 with (0 + (0 + (0 + 3))).
    apply grows_bind; [apply grows_lift|intros id].
    apply grows_bind; [apply grows_lift|intros secret].
    apply grows_bind; [apply grows_s_fetch|intros k]. apply grows_await.
  - apply (grows_le 2); [lia|]. apply grows_authorize_request.
Qed.

Lemma grows_payload a : grows 0 (payload a).
Proof. destruct a as [[]| | |]; same_tasks. Qed.

Lemma grows_field v k : grows 0 (field v k).
Proof. apply grows_lift. Qed.

Lemma grows_rest k a : grows (weight k - 1) (rest k a).
Proof.
  destruct k as [self [o|]|self|self|self o|self o|self|self|self ev args]; cbn [weight rest].
  - destruct (truthy (scopes o)).
    + change (7 - 1) with (3 + 3). apply grows_bind; [apply grows_authorize|intros q].
      apply grows_await.
    + apply (grows_le (0 + 0)); [lia|].
      apply grows_bind; [apply grows_lift|intros _]. apply grows_finish.
  - apply (grows_le (0 + 0)); [lia|].
    apply grows_bind; [apply grows_lift|intros _]. apply grows_finish.
  - change (3 - 1) with (1 + 1). apply grows_bind; [apply grows_authenticate|intros q].
    apply grows_await.
  - apply grows_finish.
  - change (3 - 1) with (0 + (0 + 2)).
    apply grows_bind; [apply grows_payload|intros d].
    apply grows_bind; [apply grows_field|intros t]. apply grows_authorize_request.
  - change (2 - 1) with (0 + (0 + (0 + (0 + (0 + 1))))).
    apply grows_bind; [apply grows_payload|intros d].
    apply grows_bind; [apply grows_field|intros c].
    apply grows_bind; [apply grows_lift|intros id].
    apply grows_bind; [apply grows_lift|intros secret].
    apply grows_bind; [apply grows_s_fetch|intros k]. apply grows_await.
  - change (1 - 1) with (0 + (0 + 0)).
    apply grows_bind; [apply grows_payload|intros d].
    apply grows_bind; [apply grows_lift|intros _]. apply grows_finish.
  - change (1 - 1) with (0 + (0 + (0 + (0 + (0 + (0 + 0)))))).
    apply grows_bind; [apply grows_payload|intros d].
    apply grows_bind; [apply grows_field|intros ap].
    apply grows_bind; [apply grows_field|intros u].
    apply grows_bind; [by apply grows_update|intros _].
    apply grows_bind; [apply grows_lift|intros _].
    apply grows_bind; [apply grows_lift|intros _]. apply grows_finish.
  - apply grows_finish.
Qed.

Lemma grows_resume k a : grows (weight k - 1) (resume k a).
Proof.
  unfold resume. destruct a; try (apply grows_attempt, grows_rest).
  apply (grows_le 0); [lia|]. apply grows_finish.
Qed.

Lemma weight_positive k : 0 < weight k.
Proof. destruct k; cbn; lia. Qed.

Lemma take_ready_budget s ts k a r :
  take_ready s ts = Some (k, a, r) → budget ts = weight k + budget r.
Proof.
  revert r. induction ts as [|[h k'] ts IH]; intros r; simpl; [done|].
  destruct (settled_as s h).
  - by intros [= -> -> ->].
  - destruct (take_ready s ts) as [[[k'' a''] r'']|]; [|done].
    intros [= -> -> <-]. simpl. rewrite (IH r'' eq_refl). lia.
Qed.

Lemma drain_quiescent n s :
  budget (tasks s) ≤ n → take_ready (drain n s) (tasks (drain n s)) = None.
Proof.
  revert s. induction n as [|n IH]; intros s Hle.
  - simpl. destruct (tasks s) as [|[h k] ts]; [done|].
    simpl in Hle. pose proof (weight_positive k). lia.
  - simpl. destruct (take_ready s (tasks s)) as [[[k a] r]|] eqn:Hready; [|done].
    apply IH. pose proof (take_ready_budget _ _ _ _ _ Hready) as Hb.
    pose proof (grows_resume k a (set_tasks r s)) as Hg. cbn [tasks set_tasks] in Hg.
    pose proof (weight_positive k). lia.
Qed.

(** After every event, no suspended call whose promise is settled is
    left waiting. *)
Lemma s_step_quiescent e s :
  take_ready (s_step e s) (tasks (s_step e s)) = None.
Proof. unfold s_step. by apply drain_quiescent. Qed.

(** *** Examples *)

(** A new client for the application "123", with the tokens
    ["nonce-1"], ["nonce-2"], ["nonce-2"], ... to be drawn. *)
Definition fresh_session : session :=
  new_session "123" (Some "secret") (λ n, if decide (n = 0) then "nonce-1" else "nonce-2").

Definition consent_options : AuthorizeOptions :=
  {| scopes := JArr [JStr "rpc"]; redirect_uri := None; prompt := None;
     useRPCToken := false |}.

Definition rpc_token_options : AuthorizeOptions :=
  {| scopes := JArr [JStr "rpc"]; redirect_uri := None; prompt := None;
     useRPCToken := true |}.

Definition authorize_reply : envelope :=
  {| cmd := "AUTHORIZE"; evt := None; nonce := Some "nonce-1";
     data := JObj [("code", JStr "xyz")] |}.


Definition token_response : json :=
  JObj [("access_token", JStr "A"); ("refresh_token", JStr "R");
        ("expires_in", JNum 604800); ("token_type", JStr "Bearer")].

Definition authenticate_reply : envelope :=
  {| cmd := "AUTHENTICATE"; evt := None; nonce := Some "nonce-2";
     data := JObj [("application", JObj [("id", JStr "123")]);
                   ("user", JObj [("id", JStr "1045800378228281345")])] |}.



Lemma idle_fresh_session : idle fresh_session.
Proof. split_and!; [reflexivity|reflexivity|apply wf_new]. Defined.

Lemma greets_handshake_message : greets handshake_message.
Proof. split; reflexivity. Defined.

Lemma answers_authorize_reply : answers "nonce-1" authorize_reply.
Proof. split_and!; [discriminate|reflexivity|reflexivity]. Defined.

Lemma answers_authenticate_reply : answers "nonce-2" authenticate_reply.
Proof. split_and!; [discriminate|reflexivity|reflexivity]. Defined.





Lemma not_an_error m : evt m = None → evt m ≠ Some "ERROR".
Proof. intros ->. discriminate. Defined.


Lemma login_without_scopes_connects_and_is_ready_witness :
  calls (s_step (OfClient (Message handshake_message))
           (s_step (CallLogin None) fresh_session)) !! length (calls fresh_session)
  = Some (Returned RUndefined).
Proof.
  pose proof (login_without_scopes_connects_and_is_ready fresh_session None
                handshake_message eq_refl eq_refl (wf_new _ _) eq_refl eq_refl eq_refl)
    as H.
  cbv zeta in H. destruct H as (_ & H & _). exact H.
Defined.

Lemma login_fails_with_the_connection_witness :
  calls (s_step (OfClient (TimerFires (nextTimer (cl fresh_session))))
           (s_step (CallLogin None) fresh_session)) !! length (calls fresh_session)
  = Some (Threw timed_out).
Proof.
  pose proof (login_fails_with_the_connection fresh_session None
                (Error "Failed to connect to websocket") eq_refl eq_refl (wf_new _ _))
    as H.
  cbv zeta in H. destruct H as (H & _). exact H.
Defined.

Lemma login_with_scopes_authorizes_then_authenticates_witness :
  calls (s_run [CallLogin (Some consent_options); OfClient (Message handshake_message);
                OfClient (Message authorize_reply);
                FetchReturns (nextFetch fresh_session) token_response;
                OfClient (Message authenticate_reply)] fresh_session)
    !! length (calls fresh_session)
  = Some (Returned RUndefined).
Proof.
  pose proof (login_with_scopes_authorizes_then_authenticates fresh_session
                consent_options handshake_message authorize_reply authenticate_reply
                token_response
                (JStr "xyz") (JStr "A") (JStr "R") (JStr "Bearer") (JNum 604800)
                (JObj [("id", JStr "123")]) (JObj [("id", JStr "1045800378228281345")])
                idle_fresh_session eq_refl eq_refl greets_handshake_message
                answers_authorize_reply (not_an_error authorize_reply eq_refl) eq_refl eq_refl
                answers_authenticate_reply (not_an_error authenticate_reply eq_refl) eq_refl eq_refl)
    as H.
  cbv zeta in H. destruct H as (H & _). exact H.
Defined.


Lemma login_fails_when_the_token_exchange_fails_witness :
  calls (s_run ([CallLogin (Some consent_options); OfClient (Message handshake_message);
                 OfClient (Message authorize_reply)]
                ++ [FetchFails (nextFetch fresh_session)
                      (Error "Request failed with status code 400")])
           fresh_session) !! length (calls fresh_session)
  = Some (Threw (Error "Request failed with status code 400")).
Proof.
  pose proof (login_fails_when_the_token_exchange_fails fresh_session consent_options
                handshake_message authorize_reply reply_without_refresh_token (JStr "xyz")
                (Error "Request failed with status code 400")
                idle_fresh_session eq_refl eq_refl greets_handshake_message
                answers_authorize_reply (not_an_error authorize_reply eq_refl) eq_refl eq_refl) as H.
  cbv zeta in H. destruct H as (_ & H & _). exact H.
Defined.


Lemma login_with_rpc_token_fetches_it_first_witness :
  calls (s_step (FetchReturns (nextFetch fresh_session) (JObj [("rpc_token", JStr "T")]))
           (s_run [CallLogin (Some rpc_token_options);
                   OfClient (Message handshake_message)] fresh_session))
    !! length (calls fresh_session)
  = Some Running.
Proof.
  pose proof (login_with_rpc_token_fetches_it_first fresh_session rpc_token_options
                handshake_message (JObj [("rpc_token", JStr "T")]) (JStr "T")
                idle_fresh_session eq_refl eq_refl greets_handshake_message eq_refl) as H.
  cbv zeta in H. destruct H as (_ & _ & H). exact H.
Defined.

Lemma login_fails_when_the_connection_closes_witness :
  calls (s_run [CallLogin (Some consent_options); OfClient (Message handshake_message);
                OfClient (Close ReasonUndefined)] fresh_session)
    !! length (calls fresh_session)
  = Some (Threw (ErrRPC (close_error ReasonUndefined))).
Proof.
  pose proof (login_fails_when_the_connection_closes fresh_session consent_options
                handshake_message ReasonUndefined
                idle_fresh_session eq_refl eq_refl greets_handshake_message) as H.
  cbv zeta in H. destruct H as (H & _). exact H.
Defined.

(** ** A request and the reply that carries its token *)


Lemma connect_stored st q : connectionPromise st = Some q → connect st = (Ok q, st).
Proof. intros H. unfold connect. run_M. by rewrite H. Qed.


Section owned.
Context (u : string) (p : nat).
























End owned.





(** ** [connect]: the handshake, the time-out and a transport that fails *)

Lemma step_CallConnect c :
  connectionPromise c = None → step CallConnect c = attempting c.
Proof. intros H. unfold step, handle, mbind, M_bind. by rewrite (connect_fresh c H). Qed.

(** The state in which the listener of the attempt runs, after the
    listeners of earlier attempts. *)
Lemma handshake_runs_listener c m :
  wf c → is_ready m = true → nullish (data m) = false →
  ∃ st1, step (Message m) (attempting c)
         = (run_connected (OnConnected (length (promises c)) (nextTimer c)) st1).2
         ∧ promises st1 !! length (promises c) = Some Pending.
Proof.
  intros Hwf Hr Hd.
  destruct (step_handshake m (attempting c) Hr Hd) as (u & h & ->).
  set (p := length (promises c)).
  unfold emit, perform, notify, mbind, M_bind, modify, gets.
  rewrite bool_decide_eq_true_2 by done. cbn.
  rewrite forEach_app. unfold mbind, M_bind.
  match goal with |- context [forEach (onConnected c) run_connected ?st] =>
    set (st0 := st) end.
  assert (settled p Pending st0) as H0.
  { unfold settled, st0, p. cbn. apply lookup_snoc. }
  pose proof (keeps_forEach_in (settled p Pending) (onConnected c) run_connected
                ltac:(intros l Hl; apply keeps_pending_run_connected;
                      pose proof (wf_onConnected c Hwf l Hl); unfold p; lia)
                st0 H0) as H1.
  destruct (total_forEach (onConnected c) run_connected total_run_connected st0)
    as [[] Hok].
  destruct (forEach (onConnected c) run_connected st0) as [r st1].
  simpl in Hok, H1. subst r. exists st1. split; [|exact H1].
  cbn [forEach]. unfold mbind, M_bind.
  destruct (total_run_connected (OnConnected p (nextTimer c)) st1) as [[] Hok].
  destruct (run_connected (OnConnected p (nextTimer c)) st1) as [r st2].
  simpl in Hok. by subst r.
Qed.

(** X16. A connection attempt ends in one of two ways.  When the
    handshake arrives, the promise of [connect()] is resolved, the stored
    promise is cleared and the timer of the attempt is cancelled.  When
    the ten seconds pass first, the promise is rejected with the time-out
    error and the stored promise is cleared; a handshake that arrives
    later does not change that. *)
Theorem connect_ends_with_the_handshake_or_the_timeout (c : client) (m : envelope) :
  reachable c → connectionPromise c = None → greets m →
  let p := length (promises c) in
  let t := nextTimer c in
  let c1 := step CallConnect c in
  let connected := step (Message m) c1 in
  let late := step (TimerFires t) c1 in
  (connectionPromise c1 = Some p ∧ promises c1 !! p = Some Pending
   ∧ produced CallConnect c = [SetTimeout t (JNum 10000); TransportConnect])
  ∧ (promises connected !! p = Some (Resolved VUndefined)
     ∧ connectionPromise connected = None
     ∧ (∀ x, x ∈ timers connected → t_id x ≠ t)
     ∧ step (TimerFires t) connected = connected)
  ∧ (promises late !! p = Some (Rejected timed_out)
     ∧ connectionPromise late = None
     ∧ promises (step (Message m) late) !! p = Some (Rejected timed_out)).
Proof.
  intros Hreach Hcp (Hr & Hd). apply reachable_wf in Hreach as Hwf. cbv zeta.
  rewrite (step_CallConnect c Hcp). split_and!.
  - reflexivity.
  - apply pending_attempting.
  - apply produced_eq. rewrite (step_CallConnect c Hcp). reflexivity.
  - by destruct (handshake_after_connect c m Hwf Hr Hd) as (Hp & _).
  - destruct (handshake_runs_listener c m Hwf Hr Hd) as (st1 & -> & Hp).
    unfold run_connected. run_M. by destruct (promises st1 !! _) as [[]|].
  - destruct (handshake_runs_listener c m Hwf Hr Hd) as (st1 & -> & Hp).
    unfold run_connected. run_M. rewrite Hp. cbn.
    intros x Hx. apply list_elem_of_filter in Hx as [Hx _]. done.
  - destruct (handshake_runs_listener c m Hwf Hr Hd) as (st1 & -> & Hp).
    unfold run_connected. run_M. rewrite Hp. cbn.
    unfold step, handle, mbind, M_bind, gets. cbn.
    destruct (find _ _) as [x|] eqn:Hfind; [|done].
    apply find_some in Hfind as [Hx Hid]. apply list_elem_of_In in Hx.
    apply list_elem_of_filter in Hx as [Hx _]. by apply bool_decide_eq_true in Hid.
  - by destruct (timeout_after_connect c Hwf) as [Hp _].
  - set (x := {| t_id := nextTimer c; t_delay := JNum 10000;
                 t_action := ConnectTimeout (length (promises c))
                               (new_RPCError RPC_UNKNOWN_ERROR) |}).
    assert (find (λ y, bool_decide (t_id y = nextTimer c)) (timers c ++ [x]) = Some x
            ∧ filter (λ y, t_id y ≠ nextTimer c) (timers c ++ [x]) = timers c)
      as [Hfind Hfilter].
    { apply (find_timer_fresh (timers c) x). intros y Hy.
      pose proof (wf_timers c Hwf y Hy) as [Hlt _]. cbn. lia. }
    unfold step, handle, attempting, mbind, M_bind, gets, modify, perform. cbn.
    fold x. rewrite Hfind. cbn. unfold reject, settle, mbind, M_bind, modify, perform. cbn.
    by rewrite lookup_snoc.
  - apply settled_step; [done|]. by destruct (timeout_after_connect c Hwf) as [Hp _].
Qed.

Lemma connect_ends_with_the_handshake_or_the_timeout_witness :
  promises (step (Message handshake_message) (step CallConnect (new_Client "123" None)))
    !! length (promises (new_Client "123" None))
  = Some (Resolved VUndefined).
Proof.
  assert (reachable (new_Client "123" None)) as Hreach by (by exists "123", None, []).
  pose proof (connect_ends_with_the_handshake_or_the_timeout
                (new_Client "123" None) handshake_message
                Hreach eq_refl greets_handshake_message) as H.
  cbv zeta in H. destruct H as (_ & (H & _) & _). exact H.
Defined.

(** X17. When [transport.connect()] rejects, the promise of [connect()]
    is rejected with the same error but stays stored: until the timer of
    the attempt fires, every [connect()] returns that rejected promise and
    starts nothing.  The timer then clears the stored promise, without
    changing the error, and the next [connect()] starts a new attempt. *)
Theorem failed_attempt_is_returned_until_its_timeout (c : client) (e : js_error) :
  reachable c → connectionPromise c = None →
  let p := length (promises c) in
  let t := nextTimer c in
  let refused := step (ConnectRejected p e) (step CallConnect c) in
  let expired := step (TimerFires t) refused in
  promises refused !! p = Some (Rejected e)
  ∧ connect refused = (Ok p, refused)
  ∧ promises expired !! p = Some (Rejected e)
  ∧ connectionPromise expired = None
  ∧ connect expired = (Ok (length (promises expired)), attempting expired).
Proof.
  intros Hreach Hcp. apply reachable_wf in Hreach as Hwf. cbv zeta.
  rewrite (step_CallConnect c Hcp).
  destruct (rejection_after_connect c e) as [Hp _]. cbv zeta in Hp.
  set (refused := step (ConnectRejected (length (promises c)) e) (attempting c)) in *.
  assert (connectionPromise refused = Some (length (promises c))
          ∧ timers refused = timers (attempting c)) as [Hcp2 Htm].
  { unfold refused, step, handle, attempting, mbind, M_bind, gets, modify, perform. cbn.
    rewrite bool_decide_eq_true_2 by set_solver.
    unfold reject, settle, mbind, M_bind, modify, perform. cbn.
    by rewrite lookup_snoc. }
  set (x := {| t_id := nextTimer c; t_delay := JNum 10000;
               t_action := ConnectTimeout (length (promises c))
                             (new_RPCError RPC_UNKNOWN_ERROR) |}).
  assert (find (λ y, bool_decide (t_id y = nextTimer c)) (timers c ++ [x]) = Some x)
    as Hfind.
  { apply (find_timer_fresh (timers c) x). intros y Hy.
    pose proof (wf_timers c Hwf y Hy) as [Hlt _]. cbn. lia. }
  assert (connectionPromise (step (TimerFires (nextTimer c)) refused) = None) as Hcp3.
  { unfold step at 1, handle, mbind, M_bind, gets. rewrite Htm. cbn. fold x.
    rewrite Hfind. cbn. unfold modify, perform, reject, settle, mbind, M_bind, modify.
    cbn. rewrite Hp. reflexivity. }
  split_and!.
  - exact Hp.
  - by apply connect_stored.
  - by apply settled_step.
  - exact Hcp3.
  - by apply connect_fresh.
Qed.

Lemma failed_attempt_is_returned_until_its_timeout_witness :
  connect (step (ConnectRejected (length (promises (new_Client "123" None)))
                   (Error "Failed to connect to websocket"))
             (step CallConnect (new_Client "123" None)))
  = (Ok (length (promises (new_Client "123" None))),
     step (ConnectRejected (length (promises (new_Client "123" None)))
             (Error "Failed to connect to websocket"))
       (step CallConnect (new_Client "123" None))).
Proof.
  assert (reachable (new_Client "123" None)) as Hreach by (by exists "123", None, []).
  pose proof (failed_attempt_is_returned_until_its_timeout
                (new_Client "123" None) (Error "Failed to connect to websocket")
                Hreach eq_refl) as H.
  cbv zeta in H. destruct H as (_ & H & _). exact H.
Defined.

(** ** [destroy] *)

Section closing.
Context (reason : close_reason) (p : nat).

(** Promise [p] is pending and is not the promise of a request. *)
Definition waits_for_close (st : client) : Prop :=
  promises st !! p = Some Pending ∧ ∀ kv, kv ∈ _nonceMap st → p_promise kv.2 ≠ p.

Lemma keeps_waits_reject_entry kv :
  p_promise kv.2 ≠ p → keeps waits_for_close (reject_entry reason kv).
Proof.
  intros Hne. unfold reject_entry, reject, perform, settle. keeps_split;
    apply keeps_modify; intros st [Hp Hm]; (split; cbn; [|try done]); try done.
  - intros kv' Hkv'. set_unfold in Hkv'. destruct Hkv' as (x & -> & Hx).
    specialize (Hm x Hx). by case_bool_decide.
  - destruct (promises st !! p_promise kv.2) as [[]|]; cbn; try done.
    by rewrite list_lookup_insert_ne.
  - by destruct (promises st !! p_promise kv.2) as [[]|].
Qed.

Lemma keeps_waits_run_close l :
  l ≠ ResolveClose p → keeps waits_for_close (run_close reason l).
Proof.
  intros Hne st H. destruct l as [|q]; simpl.
  - unfold disconnect, mbind, M_bind, gets.
    pose proof (keeps_forEach_in waits_for_close (_nonceMap st) (reject_entry reason)
                  ltac:(intros kv Hkv; apply keeps_waits_reject_entry;
                        by apply (proj2 H)) st H) as H1.
    destruct (total_forEach (_nonceMap st) (reject_entry reason)
                (total_reject_entry reason) st) as [[] Hok].
    destruct (forEach (_nonceMap st) (reject_entry reason) st) as [r st1].
    simpl in Hok, H1. subst r. rewrite emit_other by done. exact H1.
  - assert (q ≠ p) as Hq by congruence.
    unfold resolve, perform, settle, mbind, M_bind, modify. cbn.
    destruct H as [Hp Hm]. destruct (promises st !! q) as [[]|]; (split; cbn; [|done]);
      try done.
    by rewrite list_lookup_insert_ne.
Qed.

Lemma close_resolves_the_last_listener st :
  waits_for_close st → (∀ l, l ∈ onClose st → l ≠ ResolveClose p) →
  settled p (Resolved (VReason reason))
    (transport_emit_close reason
       (set_onClose (onClose st ++ [ResolveClose p]) st)).2.
Proof.
  intros H Hl. unfold transport_emit_close, mbind, M_bind, gets, modify. cbn.
  rewrite forEach_app. unfold mbind, M_bind.
  set (st0 := set_onClose [] _).
  assert (waits_for_close st0) as H0 by done.
  pose proof (keeps_forEach_in waits_for_close (onClose st) (run_close reason)
                ltac:(intros l Hin; apply keeps_waits_run_close; by apply Hl) st0 H0) as H1.
  destruct (total_forEach (onClose st) (run_close reason) (total_run_close reason) st0)
    as [[] Hok].
  destruct (forEach (onClose st) (run_close reason) st0) as [r st1].
  simpl in Hok, H1. subst r. destruct H1 as [Hp _]. cbn.
  unfold resolve, perform, settle, mbind, M_bind, modify, settled. cbn.
  rewrite Hp. cbn. apply list_lookup_insert_eq. by eapply lookup_lt_Some.
Qed.

End closing.

(** X18. [destroy()] cancels the timer stored in [refreshTimeout] and
    clears the refresh token (when no timer is stored it leaves the
    refresh token as it is); it leaves the access token in either case.
    It asks the transport to close, and the promise it returns stays
    pending until the transport emits [close], which resolves it. *)
Theorem destroy_cancels_the_stored_timer_and_awaits_close
  (st : client) (reason : close_reason) :
  reachable st →
  let p := length (promises st) in
  let st' := step CallDestroy st in
  (destroy st).1 = Ok p
  ∧ promises st' !! p = Some Pending
  ∧ promises (step (Close reason) st') !! p = Some (Resolved (VReason reason))
  ∧ accessToken st' = accessToken st
  ∧ refreshTimeout st' = None
  ∧ match refreshTimeout st with
    | Some t =>
        refreshToken st' = JUndefined
        ∧ timers st' = filter (λ x, t_id x ≠ t) (timers st)
        ∧ produced CallDestroy st = [ClearTimeout t; TransportClose]
    | None =>
        refreshToken st' = refreshToken st
        ∧ timers st' = timers st
        ∧ produced CallDestroy st = [TransportClose]
    end.
Proof.
  intros Hreach. apply reachable_wf in Hreach as Hwf. cbv zeta.
  assert (∃ st1, step CallDestroy st
                 = set_onClose (onClose st1 ++ [ResolveClose (length (promises st))])
                     (set_promises (promises st ++ [Pending]) st1)
                 ∧ (destroy st).1 = Ok (length (promises st))
                 ∧ promises st1 = promises st ∧ _nonceMap st1 = _nonceMap st
                 ∧ onClose st1 = onClose st ∧ accessToken st1 = accessToken st
                 ∧ refreshTimeout st1 = None
                 ∧ match refreshTimeout st with
                   | Some t =>
                       refreshToken st1 = JUndefined
                       ∧ timers st1 = filter (λ x, t_id x ≠ t) (timers st)
                       ∧ log st1 = log st ++ [ClearTimeout t; TransportClose]
                   | None =>
                       refreshToken st1 = refreshToken st
                       ∧ timers st1 = timers st
                       ∧ log st1 = log st ++ [TransportClose]
                   end) as (st1 & Hstep & Hret & Hps & Hnm & Hoc & Hat & Hrt & Hcase).
  { destruct (refreshTimeout st) as [t|] eqn:Hrt.
    - exists (set_log (log st ++ [ClearTimeout t; TransportClose])
                (set_refreshToken JUndefined
                   (set_refreshTimeout None
                      (set_timers (filter (λ x, t_id x ≠ t) (timers st)) st)))).
      unfold step, handle, destroy, transport_close. run_M. rewrite Hrt. run_M.
      rewrite <- app_assoc. split_and!; reflexivity.
    - exists (set_log (log st ++ [TransportClose]) st).
      unfold step, handle, destroy, transport_close. run_M. rewrite Hrt. run_M.
      split_and!; reflexivity. }
  rewrite Hstep. split_and!.
  - exact Hret.
  - cbn. apply lookup_snoc.
  - rewrite step_Close.
    apply (close_resolves_the_last_listener reason (length (promises st))
             (set_promises (promises st ++ [Pending]) st1)).
    + split; cbn.
      * apply lookup_snoc.
      * rewrite Hnm. intros kv Hkv. pose proof (wf_nonceMap st Hwf kv Hkv) as [Hlt _]. lia.
    + cbn. rewrite Hoc. intros l Hl ->. pose proof (wf_onClose st Hwf _ Hl). lia.
  - exact Hat.
  - exact Hrt.
  - destruct (refreshTimeout st) as [t|]; destruct Hcase as (H1 & H2 & H3);
      (split_and!; [exact H1|exact H2|]);
      apply produced_eq; rewrite Hstep; exact H3.
Qed.

Lemma destroy_cancels_the_stored_timer_and_awaits_close_witness :
  promises (step (Close ReasonUndefined)
              (step CallDestroy (run [TokenResponse token_response] (new_Client "123" None))))
    !! length (promises (run [TokenResponse token_response] (new_Client "123" None)))
  = Some (Resolved (VReason ReasonUndefined)).
Proof.
  assert (reachable (run [TokenResponse token_response] (new_Client "123" None)))
    as Hreach by (by eexists "123", None, _).
  pose proof (destroy_cancels_the_stored_timer_and_awaits_close
                (run [TokenResponse token_response] (new_Client "123" None))
                ReasonUndefined Hreach) as H.
  cbv zeta in H. destruct H as (_ & _ & H & _). exact H.
Defined.

Lemma step_TokenResponse d a r ty e st :
  token_values d = Some (a, r, ty, e) →
  step (TokenResponse d) st = with_tokens a r ty e st.
Proof.
  intros H. unfold step, handle. by rewrite (hanleAccessTokenResponse_complete d a r ty e).
Qed.

(** X19. [hanleAccessTokenResponse] does not cancel the refresh timer
    armed by an earlier response, and [destroy()] cancels only the one
    stored last.  After two token responses and [destroy()], the timer of
    the first response is still armed; when it fires, the client posts a
    refresh to [/oauth2/token] with an empty refresh token. *)
Theorem earlier_refresh_timer_survives_destroy
  (st : client) (d1 d2 a1 r1 ty1 e1 a2 r2 ty2 e2 : json) :
  reachable st →
  token_values d1 = Some (a1, r1, ty1, e1) →
  token_values d2 = Some (a2, r2, ty2, e2) →
  let first := {| t_id := nextTimer st; t_delay := e1; t_action := RefreshAccessToken |} in
  let st' := run [TokenResponse d1; TokenResponse d2; CallDestroy] st in
  first ∈ timers st'
  ∧ refreshTimeout st' = None
  ∧ produced (TimerFires (nextTimer st)) st'
    = [Fired (nextTimer st);
       Emit (Some "debug") [JStr "CLIENT | Refreshing access token!"];
       Fetch {| h_path := "/oauth2/token";
                h_form := [("client_id", clientId st);
                           ("client_secret", default "" (clientSecret st));
                           ("grant_type", "refresh_token");
                           ("refresh_token", "")];
                h_authorization :=
                  if truthy a2
                  then Some (js_to_string ty2 +:+ " " +:+ js_to_string a2)
                  else None |}].
Proof.
  intros Hreach H1 H2. apply reachable_wf in Hreach as Hwf. cbv zeta. cbn [run].
  rewrite (step_TokenResponse d1 a1 r1 ty1 e1 st H1).
  rewrite (step_TokenResponse d2 a2 r2 ty2 e2 _ H2).
  set (x1 := {| t_id := nextTimer st; t_delay := e1; t_action := RefreshAccessToken |}).
  set (x2 := {| t_id := S (nextTimer st); t_delay := e2; t_action := RefreshAccessToken |}).
  set (keep := filter (λ x, t_id x ≠ S (nextTimer st)) (timers st)).
  assert (filter (λ x, t_id x ≠ S (nextTimer st)) ((timers st ++ [x1]) ++ [x2])
          = keep ++ [x1]) as Hf.
  { rewrite !filter_app. fold keep.
    rewrite (filter_cons_True _ x1) by (cbn; lia).
    rewrite (filter_cons_False _ x2) by (cbn; lia).
    rewrite !filter_nil. by rewrite app_nil_r. }
  assert (find (λ y, bool_decide (t_id y = nextTimer st)) (keep ++ [x1]) = Some x1
          ∧ filter (λ y, t_id y ≠ nextTimer st) (keep ++ [x1]) = keep) as [Hfind Hfilter].
  { apply (find_timer_fresh keep x1). intros y Hy.
    apply list_elem_of_filter in Hy as [_ Hy].
    pose proof (wf_timers st Hwf y Hy) as [Hlt _]. cbn. lia. }
  set (st2 := with_tokens a2 r2 ty2 e2 (with_tokens a1 r1 ty1 e1 st)).
  assert (∃ st3, step CallDestroy st2 = st3
                 ∧ timers st3 = filter (λ x, t_id x ≠ S (nextTimer st))
                                  ((timers st ++ [x1]) ++ [x2])
                 ∧ refreshTimeout st3 = None
                 ∧ refreshToken st3 = JUndefined ∧ accessToken st3 = a2
                 ∧ tokenType st3 = ty2 ∧ clientId st3 = clientId st
                 ∧ clientSecret st3 = clientSecret st) as (st3 & -> & Ht3 & ? & ? & ? & ? & ? & ?).
  { eexists. split; [reflexivity|]. split_and!; reflexivity. }
  rewrite Hf in Ht3.
  split_and!.
  - rewrite Ht3. set_solver.
  - done.
  - apply produced_eq. unfold step, handle, mbind, M_bind, gets, modify, perform. cbn.
    rewrite Ht3, Hfind. cbn.
    unfold refreshAccessToken, mbind, M_bind. rewrite emit_other by done.
    unfold fetch, mbind, M_bind, gets, perform, modify. cbn.
    repeat match goal with H : _ st3 = _ |- _ => rewrite H end.
    rewrite <- !app_assoc. reflexivity.
Qed.

Lemma earlier_refresh_timer_survives_destroy_witness :
  {| t_id := nextTimer (new_Client "123" None); t_delay := JNum 604800;
     t_action := RefreshAccessToken |}
  ∈ timers (run [TokenResponse token_response; TokenResponse token_response; CallDestroy]
              (new_Client "123" None)).
Proof.
  assert (reachable (new_Client "123" None)) as Hreach by (by exists "123", None, []).
  pose proof (earlier_refresh_timer_survives_destroy (new_Client "123" None)
                token_response token_response
                (JStr "A") (JStr "R") (JStr "Bearer") (JNum 604800)
                (JStr "A") (JStr "R") (JStr "Bearer") (JNum 604800)
                Hreach eq_refl eq_refl) as H.
  cbv zeta in H. destruct H as (H & _). exact H.
Defined.

(** ** The [close] event *)

Lemma Map_alter_keys {V : Type} (f : V → V) (k : string) (m : list (string * V)) :
  (Map_alter f k m).*1 = m.*1.
Proof.
  induction m as [|[k' v] m IH]; [done|].
  change (Map_alter f k ((k', v) :: m))
    with ((if bool_decide (k = k') then (k', f v) else (k', v)) :: Map_alter f k m).
  cbn. rewrite IH. by case_bool_decide.
Qed.

(** X20. The listener of [close] rejects the pending requests but
    removes none of them: the table holds the same tokens after the
    disconnection as before. *)
Theorem close_leaves_the_entries_in_the_table (st : client) (reason : close_reason) :
  (_nonceMap (step (Close reason) st)).*1 = (_nonceMap st).*1.
Proof.
  rewrite step_Close.
  assert (keeps (λ s, (_nonceMap s).*1 = (_nonceMap st).*1) (transport_emit_close reason))
    as Hk; [|by apply Hk].
  unfold transport_emit_close, run_close, disconnect, reject_entry.
  repeat first
    [ keeps_step
    | lazymatch goal with
      | |- keeps _ (modify (λ st, set_nonceMap _ st)) =>
          apply keeps_modify; intros s Hs; cbn; by rewrite Map_alter_keys
      end
    | frame_leaf ].
Qed.

(** Emissions of [disconnected]. *)
Definition is_disconnected (e : effect) : bool :=
  match e with
  | Emit (Some name) _ => bool_decide (name = "disconnected")
  | _ => false
  end.

Definition is_RejectPending (l : close_listener) : bool :=
  match l with
  | RejectPending => true
  | ResolveClose _ => false
  end.

Lemma count_effect_none P l : Forall (λ e, P e = false) l → count_effect P l = 0.
Proof. induction 1 as [|e l He _ IH]; simpl; [done|]. by rewrite He, IH. Qed.

Lemma run_close_log reason l st :
  ∃ rest, log (run_close reason l st).2 = log st ++ rest
          ∧ count_effect is_disconnected rest = if is_RejectPending l then 1 else 0.
Proof.
  destruct l as [|q]; simpl.
  - unfold disconnect, mbind, M_bind, gets.
    set (P := λ e, is_disconnected e = false).
    assert (∀ kv, keeps (extends (log st) P) (reject_entry reason kv)) as Hk.
    { intros kv. unfold reject_entry, reject. keeps_split;
        first [by apply keeps_extends_perform | apply keeps_extends_settle
              | by apply keeps_extends_modify]. }
    pose proof (keeps_forEach (extends (log st) P) (_nonceMap st) (reject_entry reason)
                  Hk st (extends_refl P st)) as (rest & Hlog & Hrest).
    destruct (total_forEach (_nonceMap st) (reject_entry reason)
                (total_reject_entry reason) st) as [[] Hok].
    destruct (forEach (_nonceMap st) (reject_entry reason) st) as [r st1].
    simpl in Hok, Hlog. subst r. rewrite emit_other by done. cbn.
    exists (rest ++ [Emit (Some "disconnected") []]). rewrite Hlog.
    split; [by rewrite app_assoc|].
    rewrite count_effect_app, (count_effect_none _ rest Hrest). reflexivity.
  - exists [Resolve q (VReason reason)]. split; [|done].
    unfold resolve, perform, settle, mbind, M_bind, modify. cbn.
    by destruct (promises st !! q) as [[]|].
Qed.

Lemma forEach_run_close_log reason ls st :
  ∃ rest, log (forEach ls (run_close reason) st).2 = log st ++ rest
          ∧ count_effect is_disconnected rest = length (List.filter is_RejectPending ls).
Proof.
  revert st. induction ls as [|l ls IH]; intros st.
  - exists []. by rewrite app_nil_r.
  - simpl. unfold mbind, M_bind.
    destruct (run_close_log reason l st) as (r1 & Hlog1 & Hc1).
    destruct (total_run_close reason l st) as [[] Hok].
    destruct (run_close reason l st) as [r st1]. simpl in Hok, Hlog1. subst r.
    destruct (IH st1) as (r2 & Hlog2 & Hc2).
    exists (r1 ++ r2). rewrite Hlog2, Hlog1, app_assoc. split; [done|].
    rewrite count_effect_app, Hc1, Hc2. by destruct l.
Qed.

Lemma forEach_run_connected_onClose ls st :
  onClose (forEach ls run_connected st).2
  = onClose st ++ replicate (length ls) RejectPending.
Proof.
  revert st. induction ls as [|[p t] ls IH]; intros st; cbn [forEach length replicate].
  - cbn. by rewrite app_nil_r.
  - unfold mbind, M_bind.
    destruct (total_run_connected (OnConnected p t) st) as [[] Hok].
    assert (onClose (run_connected (OnConnected p t) st).2 = onClose st ++ [RejectPending])
      as Hoc.
    { unfold run_connected. run_M. by destruct (promises st !! p) as [[]|]. }
    destruct (run_connected (OnConnected p t) st) as [r st1]. simpl in Hok, Hoc. subst r.
    cbv beta iota. rewrite IH, Hoc, <- app_assoc. done.
Qed.

(** X21. Each [connected] listener that runs at a handshake installs
    a listener of [close] of its own, and the listener of an attempt that
    timed out is still registered.  So when the transport closes,
    [disconnected] is emitted once for every attempt whose listener ran:
    the number of emissions is the number of such listeners already
    installed plus the number of [connected] listeners waiting at the last
    handshake. *)
Theorem disconnected_is_emitted_once_per_listener
  (st : client) (m : envelope) (reason : close_reason) :
  greets m →
  count_effect is_disconnected (produced (Close reason) (step (Message m) st))
  = length (List.filter is_RejectPending (onClose st)) + length (onConnected st).
Proof.
  intros (Hr & Hd).
  assert (onClose (step (Message m) st)
          = onClose st ++ replicate (length (onConnected st)) RejectPending) as Hoc.
  { destruct (step_handshake m st Hr Hd) as (u & h & ->).
    unfold emit, perform, notify, mbind, M_bind, modify, gets.
    rewrite bool_decide_eq_true_2 by done. cbn.
    by rewrite forEach_run_connected_onClose. }
  set (st1 := step (Message m) st) in *.
  unfold produced. rewrite step_Close.
  unfold transport_emit_close, mbind, M_bind, gets, modify. cbn.
  destruct (forEach_run_close_log reason (onClose st1) (set_onClose [] st1))
    as (rest & Hlog & Hc).
  rewrite Hlog. cbn. rewrite drop_app_length, Hc, Hoc.
  rewrite List.filter_app, length_app. f_equal.
  generalize (length (onConnected st)). intros n.
  induction n as [|n IH]; [reflexivity|].
  cbn [replicate List.filter is_RejectPending length]. by f_equal.
Qed.

(** A connection attempt that times out, followed by one that succeeds. *)
Definition connected_at_second_attempt : client :=
  run [CallConnect; TimerFires 0; CallConnect] (new_Client "123" None).

Lemma disconnected_is_emitted_once_per_listener_witness :
  count_effect is_disconnected
    (produced (Close ReasonUndefined)
       (step (Message handshake_message) connected_at_second_attempt))
  = length (List.filter is_RejectPending (onClose connected_at_second_attempt))
    + length (onConnected connected_at_second_attempt).
Proof.
  apply (disconnected_is_emitted_once_per_listener connected_at_second_attempt
           handshake_message ReasonUndefined greets_handshake_message).
Defined.

(** In that example [disconnected] is emitted twice. *)
Lemma disconnected_twice_after_a_timed_out_attempt :
  length (List.filter is_RejectPending (onClose connected_at_second_attempt))
  + length (onConnected connected_at_second_attempt) = 2.
Proof. reflexivity. Qed.

(** ** The numbering of the client is kept by a session *)

(** [m] keeps the property [I] of the client. *)
Definition s_keeps (I : client → Prop) {A : Type} (m : SM A) : Prop :=
  ∀ s, I (cl s) → I (cl (m s).2).

Lemma s_keeps_same I {A : Type} (m : SM A) :
  (∀ s, cl (m s).2 = cl s) → s_keeps I m.
Proof. intros H s Hs. by rewrite H. Qed.

Lemma s_keeps_bind I {A B : Type} (m : SM A) (k : A → SM B) :
  s_keeps I m → (∀ a, s_keeps I (k a)) → s_keeps I (m ≫= k).
Proof.
  intros Hm Hk s Hs. specialize (Hm s Hs). unfold mbind, SM_bind.
  destruct (m s) as [[a|e] s']; cbn [snd] in *; [by apply Hk|done].
Qed.

Lemma s_keeps_lift I {A : Type} (m : M A) : keeps I m → s_keeps I (lift m).
Proof.
  intros Hm s Hs. specialize (Hm (cl s) Hs). unfold lift.
  by destruct (m (cl s)) as [r c'].
Qed.

Lemma s_keeps_finish I q c : s_keeps I (finish q c).
Proof. apply s_keeps_same. intros s. unfold finish, update. cbn. by destruct (calls s !! q) as [[]|]. Qed.

Lemma s_keeps_await I h k : s_keeps I (await h k).
Proof. by apply s_keeps_same. Qed.

Lemma s_keeps_attempt I self body : s_keeps I body → s_keeps I (attempt self body).
Proof.
  intros Hb s Hs. specialize (Hb s Hs). unfold attempt.
  destruct (body s) as [[a|e] s']; cbn [snd] in *; [done|].
  by apply s_keeps_finish.
Qed.

Lemma s_keeps_async I body : (∀ self, s_keeps I (body self)) → s_keeps I (async body).
Proof.
  intros Hb. unfold async. apply s_keeps_bind; [by apply s_keeps_same|intros self].
  apply s_keeps_bind; [by apply s_keeps_attempt|intros _]. by apply s_keeps_same.
Qed.

Lemma s_keeps_wf_s_request cmd args ev : s_keeps wf (s_request cmd args ev).
Proof.
  unfold s_request, randomUUID. apply s_keeps_bind; [by apply s_keeps_same|intros u].
  apply s_keeps_lift, keeps_wf_request.
Qed.

Lemma s_keeps_wf_s_fetch path form : s_keeps wf (s_fetch path form).
Proof.
  unfold s_fetch.
  apply s_keeps_bind; [apply s_keeps_lift, keeps_wf_fetch|intros _].
  apply s_keeps_bind; [by apply s_keeps_same|intros k].
  apply s_keeps_bind; [by apply s_keeps_same|intros _]. by apply s_keeps_same.
Qed.

Lemma s_keeps_wf_authenticate : s_keeps wf authenticate.
Proof.
  apply s_keeps_async. intros self.
  apply s_keeps_bind; [apply s_keeps_lift, keeps_gets|intros at_].
  apply s_keeps_bind; [apply s_keeps_wf_s_request|intros p]. apply s_keeps_await.
Qed.

Lemma s_keeps_wf_authorize_request self o t : s_keeps wf (authorize_request self o t).
Proof.
  unfold authorize_request.
  apply s_keeps_bind; [apply s_keeps_lift, keeps_gets|intros id].
  apply s_keeps_bind; [apply s_keeps_wf_s_request|intros p]. apply s_keeps_await.
Qed.

Lemma s_keeps_wf_authorize o : s_keeps wf (authorize o).
Proof.
  apply s_keeps_async. intros self. destruct (useRPCToken o).
  - apply s_keeps_bind; [apply s_keeps_lift, keeps_gets|intros id].
    apply s_keeps_bind; [apply s_keeps_lift, keeps_gets|intros secret].
    apply s_keeps_bind; [apply s_keeps_wf_s_fetch|intros k]. apply s_keeps_await.
  - apply s_keeps_wf_authorize_request.
Qed.

Lemma s_keeps_payload I a : s_keeps I (payload a).
Proof. apply s_keeps_same. intros s. by destruct a as [[]| | |]. Qed.

Lemma s_keeps_field I v k : s_keeps I (field v k).
Proof. apply s_keeps_lift, keeps_read. Qed.

Lemma s_keeps_wf_rest k a : s_keeps wf (rest k a).
Proof.
  destruct k as [self [o|]|self|self|self o|self o|self|self|self ev args]; cbn [rest].
  - destruct (truthy (scopes o)).
    + apply s_keeps_bind; [apply s_keeps_wf_authorize|intros q]. apply s_keeps_await.
    + apply s_keeps_bind; [apply s_keeps_lift, keeps_wf_emit|intros _].
      apply s_keeps_finish.
  - apply s_keeps_bind; [apply s_keeps_lift, keeps_wf_emit|intros _].
    apply s_keeps_finish.
  - apply s_keeps_bind; [apply s_keeps_wf_authenticate|intros q]. apply s_keeps_await.
  - apply s_keeps_finish.
  - apply s_keeps_bind; [apply s_keeps_payload|intros d].
    apply s_keeps_bind; [apply s_keeps_field|intros t]. apply s_keeps_wf_authorize_request.
  - apply s_keeps_bind; [apply s_keeps_payload|intros d].
    apply s_keeps_bind; [apply s_keeps_field|intros c].
    apply s_keeps_bind; [apply s_keeps_lift, keeps_gets|intros id].
    apply s_keeps_bind; [apply s_keeps_lift, keeps_gets|intros secret].
    apply s_keeps_bind; [apply s_keeps_wf_s_fetch|intros k]. apply s_keeps_await.
  - apply s_keeps_bind; [apply s_keeps_payload|intros d].
    apply s_keeps_bind; [apply s_keeps_lift, keeps_wf_hanleAccessTokenResponse|intros _].
    apply s_keeps_finish.
  - apply s_keeps_bind; [apply s_keeps_payload|intros d].
    apply s_keeps_bind; [apply s_keeps_field|intros ap].
    apply s_keeps_bind; [apply s_keeps_field|intros u].
    apply s_keeps_bind; [by apply s_keeps_same|intros _].
    apply s_keeps_bind; [apply s_keeps_lift|intros _].
    { apply keeps_modify. intros st Hst. by destruct Hst. }
    apply s_keeps_bind; [apply s_keeps_lift, keeps_wf_emit|intros _].
    apply s_keeps_finish.
  - apply s_keeps_finish.
Qed.

Lemma s_keeps_wf_resume k a : s_keeps wf (resume k a).
Proof.
  unfold resume. destruct a; try apply s_keeps_attempt, s_keeps_wf_rest.
  apply s_keeps_finish.
Qed.

Lemma wf_drain n s : wf (cl s) → wf (cl (drain n s)).
Proof.
  revert s. induction n as [|n IH]; intros s Hs; simpl; [done|].
  destruct (take_ready s (tasks s)) as [[[k a] r]|]; [|done].
  apply IH. by apply (s_keeps_wf_resume k a (set_tasks r s)).
Qed.

(** The numbering of the client stays consistent through every event of
    a session. *)
Lemma wf_s_step e s : wf (cl s) → wf (cl (s_step e s)).
Proof.
  intros Hs. unfold s_step. apply wf_drain.
  destruct e as [e|o|ev args|q|n d|n err]; cbn [s_handle].
  - cbn. by apply wf_step.
  - apply (s_keeps_async wf); [|done]. intros self.
    apply s_keeps_bind; [apply s_keeps_lift, keeps_wf_connect|intros p].
    apply s_keeps_await.
  - apply (s_keeps_async wf); [|done]. intros self.
    apply s_keeps_bind; [apply s_keeps_wf_s_request|intros p]. apply s_keeps_await.
  - unfold unsubscribe.
    apply (s_keeps_bind wf); [by apply s_keeps_same| |done]. intros c.
    destruct c as [[|[|event args]|]|]; try by apply s_keeps_same.
    apply s_keeps_bind; [apply s_keeps_wf_s_request|intros _]. by apply s_keeps_same.
  - destruct (take_fetch n (tasks s)) as [[k r]|]; [|done].
    by apply (s_keeps_wf_resume k (Response d) (set_tasks r s)).
  - destruct (take_fetch n (tasks s)) as [[k r]|]; [|done].
    by apply (s_keeps_wf_resume k (Failure err) (set_tasks r s)).
Qed.

Lemma wf_s_run es s : wf (cl s) → wf (cl (s_run es s)).
Proof.
  revert s. induction es as [|e es IH]; intros s Hs; simpl; [done|].
  by apply IH, wf_s_step.
Qed.
